(** * CanvasShaderExt: the pixel-buffer transforms of [index.js]

    A shallow embedding of the functions of the library and the properties
    its specification states about them.

    - A JavaScript number is an IEEE 754 binary64 value: Rocq's primitive
      [float], whose [+ - * /] and comparisons are the JavaScript ones.  The
      functions of [Math] and the conversions the code relies on are written
      out from ECMAScript in the module [JS]; the one case ECMAScript leaves
      to the implementation, the approximated value of [Math.pow], is a
      parameter.
    - A [Uint8ClampedArray] is a [list Z] of bytes; a read out of range is
      [undefined] and a write out of range does nothing, as in JavaScript.
    - An object used as a channel map is the list of its entries in the
      order of [Object.entries].
    - A 2D context is the width and the height of its canvas and the RGBA
      bytes of the bitmap, which [getImageData] and [putImageData] read and
      write exactly.  The [canvas] package is not part of the library: the
      resampling of its scaled [drawImage] is a parameter, and the errors it
      raises itself are not modelled. *)

From Stdlib Require Import ZArith Floats Lia.
From stdpp Require Import base list strings.

Set Warnings "-inexact-float".

(** ** JavaScript numbers *)

Module JS.

Definition Number := float.

(** An integer as a Number (exact below 2^53). *)
Definition ofZ (z : Z) : Number :=
  if (z <? 0)%Z then (- of_uint63 (Uint63.of_Z (- z)))%float
  else of_uint63 (Uint63.of_Z z).

(** [m * 2^e] is an integer. *)
Definition integralSF (m : positive) (e : Z) : bool :=
  (0 <=? e)%Z || (Z.pos m mod 2 ^ (- e) =? 0)%Z.

(** [m * 2^e] is an odd integer. *)
Definition oddSF (m : positive) (e : Z) : bool :=
  if (0 <? e)%Z then false
  else integralSF m e && Z.odd (Z.pos m / 2 ^ (- e)).

Definition isIntegral (x : Number) : bool :=
  match Prim2SF x with
  | S754_zero _ => true
  | S754_finite _ m e => integralSF m e
  | _ => false
  end.

Definition isOddInteger (x : Number) : bool :=
  match Prim2SF x with
  | S754_finite _ m e => oddSF m e
  | _ => false
  end.

(** [Math.round]: the closest integer, ties towards +Infinity; NaN, the
    infinities and integers are returned as they are, and a result of zero
    keeps the sign of the argument. *)
Definition Math_round (x : Number) : Number :=
  match Prim2SF x with
  | S754_finite s m e =>
      if (0 <=? e)%Z then x
      else
        let v := if s then Z.neg m else Z.pos m in
        let n := ((2 * v + 2 ^ (- e)) / 2 ^ (1 - e))%Z in
        if (n =? 0)%Z then (if s then neg_zero else zero) else ofZ n
  | _ => x
  end.

(** [Math.floor]: the greatest integer not above the argument; NaN, the
    infinities, the zeros and integers are returned as they are, and a number
    between 0 and 1 gives +0. *)
Definition Math_floor (x : Number) : Number :=
  match Prim2SF x with
  | S754_finite s m e =>
      if (0 <=? e)%Z then x
      else
        let v := if s then Z.neg m else Z.pos m in
        let n := (v / 2 ^ (- e))%Z in
        if (n =? 0)%Z then zero else ofZ n
  | _ => x
  end.

(** The [%] operator (Number::remainder): the exact remainder of the
    truncating division, with the sign of the dividend. *)
Definition rem (n d : Number) : Number :=
  match Prim2SF n, Prim2SF d with
  | S754_nan, _ | _, S754_nan => nan
  | S754_infinity _, _ => nan
  | _, S754_infinity _ => n
  | _, S754_zero _ => nan
  | S754_zero _, _ => n
  | S754_finite sn mn en, S754_finite _ md ed =>
      let e0 := Z.min en ed in
      let N := (Z.pos mn * 2 ^ (en - e0))%Z in
      let D := (Z.pos md * 2 ^ (ed - e0))%Z in
      let r := Z.rem N D in
      let f := SF2Prim (binary_normalize prec emax r e0 false) in
      if sn then (- f)%float else f
  end.

(** [Math.pow] (Number::exponentiate).  ECMAScript fixes the result in the
    cases written out below and leaves the remaining one, a finite non-zero
    base with a finite non-zero exponent, to an "implementation-approximated"
    value: that case is the argument [approx]. *)
Definition Math_pow (approx : Number -> Number -> Number)
    (base exponent : Number) : Number :=
  if is_nan exponent then nan
  else if is_zero exponent then 1%float
  else if is_nan base then nan
  else if (base =? infinity)%float then
    (if (0 <? exponent)%float then infinity else 0%float)
  else if (base =? neg_infinity)%float then
    (if (0 <? exponent)%float
     then (if isOddInteger exponent then neg_infinity else infinity)
     else (if isOddInteger exponent then neg_zero else 0%float))
  else if is_zero base then
    (if get_sign base
     then (if (0 <? exponent)%float
           then (if isOddInteger exponent then neg_zero else 0%float)
           else (if isOddInteger exponent then neg_infinity else infinity))
     else (if (0 <? exponent)%float then 0%float else infinity))
  else if (exponent =? infinity)%float then
    (if (1 <? abs base)%float then infinity
     else if (abs base =? 1)%float then nan else 0%float)
  else if (exponent =? neg_infinity)%float then
    (if (1 <? abs base)%float then 0%float
     else if (abs base =? 1)%float then nan else infinity)
  else if (base <? 0)%float && negb (isIntegral exponent) then nan
  else approx base exponent.

(** The conversion of a Number stored into a [Uint8ClampedArray]
    (ToUint8Clamp): NaN is 0, the value is clamped to [0, 255] and rounded
    to the nearest integer, ties to even. *)
Definition ToUint8Clamp (x : Number) : Z :=
  if is_nan x then 0%Z
  else if (x <=? 0)%float then 0%Z
  else if (255 <=? x)%float then 255%Z
  else
    match Prim2SF x with
    | S754_finite _ m e =>
        if (0 <=? e)%Z then (Z.pos m * 2 ^ e)%Z
        else
          let d := (2 ^ (- e))%Z in
          let f := (Z.pos m / d)%Z in
          match (2 * (Z.pos m mod d) ?= d)%Z with
          | Lt => f
          | Gt => (f + 1)%Z
          | Eq => if Z.even f then f else (f + 1)%Z
          end
    | _ => 0%Z
    end.

(** A Number used as a canvas coordinate or size: truncated to an integer,
    NaN and the infinities being 0. *)
Definition toInt (x : Number) : Z :=
  match Prim2SF x with
  | S754_finite s m e =>
      let n := if (0 <=? e)%Z then (Z.pos m * 2 ^ e)%Z else (Z.pos m / 2 ^ (- e))%Z in
      if s then (- n)%Z else n
  | _ => 0%Z
  end.

(** A Number in a condition: 0, -0 and NaN are false. *)
Definition truthy (x : Number) : bool := negb (is_zero x || is_nan x).

End JS.

Import JS.

(** ** Utility functions and the HDR tone mapper *)

Section Library.

(** The implementation-approximated case of [Math.pow]. *)
Variable pow_approx : Number -> Number -> Number.

Local Open Scope float_scope.

Local Abbreviation Math_pow' := (Math_pow pow_approx).

(** [tint2Mult(tint)]: [tint > 0 ? tint / 255 : 0]. *)
Definition tint2Mult (tint : Number) : Number :=
  if 0 <? tint then tint / 255 else 0.

(** [lerp(a, b, t)]: [a + (b - a) * t]. *)
Definition lerp (a b t : Number) : Number := a + (b - a) * t.

(** [clamp(min, max, val)]. *)
Definition clamp (min max val : Number) : Number :=
  if val <? min then min
  else if max <? val then max
  else val.

(** [linearToSRGB(x)]. *)
Definition linearToSRGB (x : Number) : Number :=
  if x <=? 0.0031308 then x * 12.92
  else 1.055 * Math_pow' x (1 / 2.4) - 0.055.

(** [sRGBToLinear(x)]. *)
Definition sRGBToLinear (x : Number) : Number :=
  if x <=? 0.04045 then x / 12.92
  else Math_pow' ((x + 0.055) / 1.055) 2.4.

Definition exposureDefault : Number := 1.0.
Definition contrastDefault : Number := 1.0.
Definition saturationDefault : Number := 1.0.
Definition highlightCompressionDefault : Number := 1.0.
Definition shadowLiftingDefault : Number := 0.0.

Definition toneA : Number := 2.51.
Definition toneB : Number := 0.03.
Definition toneC : Number := 2.43.
Definition toneD : Number := 0.59.
Definition toneE : Number := 0.14.

(** [tonemap(x)]. *)
Definition tonemap (x : Number) : Number :=
  (x * (toneA * x + toneB)) / (x * (toneC * x + toneD) + toneE).

(** [hdrToSdr(r, g, b, intensity, exposure, contrast, saturation,
    highlightCompression, shadowLifting)], statement by statement. *)
Definition hdrToSdr (r g b intensity exposure contrast saturation
    highlightCompression shadowLifting : Number)
    : Number * Number * Number :=
  (* Convert to linear space *)
  let r := sRGBToLinear (r / 255) in
  let g := sRGBToLinear (g / 255) in
  let b := sRGBToLinear (b / 255) in
  (* Apply intensity and exposure *)
  let r := r * (intensity * exposure) in
  let g := g * (intensity * exposure) in
  let b := b * (intensity * exposure) in
  (* Apply contrast *)
  let r := Math_pow' r contrast in
  let g := Math_pow' g contrast in
  let b := Math_pow' b contrast in
  (* Apply ACES-inspired tone mapping *)
  let r := tonemap (r * highlightCompression) + shadowLifting in
  let g := tonemap (g * highlightCompression) + shadowLifting in
  let b := tonemap (b * highlightCompression) + shadowLifting in
  (* Apply saturation *)
  let luminance := 0.2126 * r + 0.7152 * g + 0.0722 * b in
  let r := luminance + saturation * (r - luminance) in
  let g := luminance + saturation * (g - luminance) in
  let b := luminance + saturation * (b - luminance) in
  (* Clamp values *)
  let r := clamp 0 1 r in
  let g := clamp 0 1 g in
  let b := clamp 0 1 b in
  (* Convert back to sRGB space *)
  let r := linearToSRGB r in
  let g := linearToSRGB g in
  let b := linearToSRGB b in
  (* Convert to 0-255 range *)
  let r := Math_round (r * 255) in
  let g := Math_round (g * 255) in
  let b := Math_round (b * 255) in
  (r, g, b).

(** ** Typed arrays and channel maps *)

(** [data[i]] used as a number: [undefined] converts to NaN. *)
Definition aget (data : list Z) (i : nat) : Number :=
  from_option ofZ nan (data !! i).

(** [data[i] = v] for a Number [v]. *)
Definition aset (data : list Z) (i : nat) (v : Number) : list Z :=
  <[i := ToUint8Clamp v]> data.

(** A value copied from a byte array: a byte, or [undefined].  Stored into
    a [Uint8ClampedArray] a byte is itself and [undefined] is 0. *)
Definition stored (v : option Z) : Z := default 0%Z v.

(** [const channelIndexes = { R: 0, G: 1, B: 2, A: 3 }].  For any other
    name the lookup gives no index: [undefined], or a property inherited
    from [Object.prototype], which added to a number indexes no byte. *)
Definition channelIndexes (channel : string) : option nat :=
  if String.eqb channel "R" then Some 0%nat
  else if String.eqb channel "G" then Some 1%nat
  else if String.eqb channel "B" then Some 2%nat
  else if String.eqb channel "A" then Some 3%nat
  else None.

(** The values of [i] in [for (let i = 0; i < length; i += 4)]. *)
Definition frames (length : nat) : list nat :=
  (fun k => 4 * k)%nat <$> seq 0 ((length + 3) / 4).

(** How a call ends, with the byte array as the call left it. *)
Inductive outcome : Type :=
  | Returned (data : list Z)
  | Threw (message : string) (data : list Z).

(** ** swizzle *)

(** [const swizzleMap = { R, G, B, A }] and its lookup [swizzleMap[source]]. *)
Definition swizzleMap (R G B A : option Z) (source : string) : option Z :=
  if String.eqb source "R" then R
  else if String.eqb source "G" then G
  else if String.eqb source "B" then B
  else if String.eqb source "A" then A
  else None.

(** The loop of [swizzleFrame] over [Object.entries(options)]; an entry is
    [(source, dest)], key first. *)
Fixpoint swizzleEntries (lookup : string -> option Z)
    (entries : list (string * string)) (i : nat) (data : list Z) : outcome :=
  match entries with
  | [] => Returned data
  | (source, dest) :: rest =>
      if String.eqb dest "R" then
        swizzleEntries lookup rest i (<[i := stored (lookup source)]> data)
      else if String.eqb dest "G" then
        swizzleEntries lookup rest i (<[(i + 1)%nat := stored (lookup source)]> data)
      else if String.eqb dest "B" then
        swizzleEntries lookup rest i (<[(i + 2)%nat := stored (lookup source)]> data)
      else if String.eqb dest "A" then
        swizzleEntries lookup rest i (<[(i + 3)%nat := stored (lookup source)]> data)
      else Threw "Oh, so we're doing other data channels now" data
  end.

(** [swizzleFrame(data, options, i)]. *)
Definition swizzleFrame (data : list Z) (options : list (string * string))
    (i : nat) : outcome :=
  let R := data !! i in
  let G := data !! (i + 1)%nat in
  let B := data !! (i + 2)%nat in
  let A := data !! (i + 3)%nat in
  swizzleEntries (swizzleMap R G B A) options i data.

Fixpoint swizzleFrames (options : list (string * string)) (starts : list nat)
    (data : list Z) : outcome :=
  match starts with
  | [] => Returned data
  | i :: rest =>
      match swizzleFrame data options i with
      | Returned data' => swizzleFrames options rest data'
      | Threw message data' => Threw message data'
      end
  end.

(** [swizzle(data, options)]. *)
Definition swizzle (data : list Z) (options : list (string * string)) : outcome :=
  swizzleFrames options (frames (length data)) data.

(** ** tint *)

(** [tintFrame(data, r, g, b, int, i)]. *)
Definition tintFrame (data : list Z) (r g b int : Number) (i : nat) : list Z :=
  let data :=
    if r <? 0 then
      aset data i (clamp 0 255 (lerp (aget data i) (255 - aget data i) (tint2Mult (- r))))
    else aset data i (clamp 0 255 (Math_round (aget data i * tint2Mult r))) in
  let data :=
    if g <? 0 then
      aset data (i + 1) (clamp 0 255
        (lerp (aget data (i + 1)) (255 - aget data (i + 1)) (tint2Mult (- g))))
    else aset data (i + 1) (clamp 0 255 (Math_round (aget data (i + 1) * tint2Mult g))) in
  let data :=
    if b <? 0 then
      aset data (i + 2) (clamp 0 255
        (lerp (aget data (i + 2)) (255 - aget data (i + 2)) (tint2Mult (- b))))
    else aset data (i + 2) (clamp 0 255 (Math_round (aget data (i + 2) * tint2Mult b))) in
  (* HDR color *)
  if negb (int =? 1) then
    let hdrColor :=
      hdrToSdr (aget data i) (aget data (i + 1)) (aget data (i + 2)) int
        exposureDefault contrastDefault saturationDefault
        highlightCompressionDefault shadowLiftingDefault in
    let data := aset data i (hdrColor.1.1) in
    let data := aset data (i + 1) (hdrColor.1.2) in
    let data := aset data (i + 2) (hdrColor.2) in
    data
  else data.

(** [tint(data, r, g, b, int = 1)]. *)
Definition tint (data : list Z) (r g b int : Number) : list Z :=
  foldl (fun data i => tintFrame data r g b int i) data (frames (length data)).

(** ** bumpScale *)

(** [const normalDefaultRGB = [128, 128, 255]]. *)
Definition normalDefaultRGB : Number * Number * Number := (128, 128, 255).

(** [bumpScaleFrame(data, scale, i)]. *)
Definition bumpScaleFrame (data : list Z) (scale : Number) (i : nat) : list Z :=
  let data :=
    aset data i (clamp 0 255 (lerp normalDefaultRGB.1.1 (aget data i) scale)) in
  let data :=
    aset data (i + 1)
      (clamp 0 255 (lerp normalDefaultRGB.1.2 (aget data (i + 1)) scale)) in
  (* leave the Blue and Alpha channel alone for _BumpScale *)
  data.

(** [bumpScale(data, scale)]. *)
Definition bumpScale (data : list Z) (scale : Number) : list Z :=
  foldl (fun data i => bumpScaleFrame data scale i) data (frames (length data)).

(** ** The canvas *)

(** A 2D context with its canvas: [canvas.width], [canvas.height] and the
    RGBA bytes of the bitmap in row-major order. *)
Record Context : Type := mkContext {
  width : nat;
  height : nat;
  pixels : list Z
}.

(** [Canvas.ImageData]. *)
Record ImageData : Type := mkImageData {
  iwidth : nat;
  iheight : nat;
  idata : list Z
}.

(** The bitmap holds four bytes for each of its [width * height] pixels. *)
Definition wf (ctx : Context) : Prop :=
  length (pixels ctx) = (4 * (width ctx * height ctx))%nat.

(** The four bytes of pixel number [k]. *)
Definition pixel (bytes : list Z) (k : nat) : list Z :=
  take 4 (drop (4 * k) bytes).

(** [createCanvas(w, h).getContext("2d")]: transparent black. *)
Definition createCanvas (w h : nat) : Context :=
  mkContext w h (replicate (4 * (w * h)) 0%Z).

(** The pixel of the canvas at [(x, y)]; transparent black outside. *)
Definition pixelAt (ctx : Context) (x y : Z) : list Z :=
  if ((0 <=? x) && (x <? Z.of_nat (width ctx)) &&
      (0 <=? y) && (y <? Z.of_nat (height ctx)))%Z
  then pixel (pixels ctx) (Z.to_nat y * width ctx + Z.to_nat x)
  else [0; 0; 0; 0]%Z.

(** The bytes of a [w] by [h] bitmap whose pixel at [(x, y)] is [f x y]. *)
Definition raster (w h : nat) (f : nat -> nat -> list Z) : list Z :=
  y ← seq 0 h; x ← seq 0 w; f x y.

(** [ctx.getImageData(sx, sy, sw, sh)]. *)
Definition getImageData (ctx : Context) (sx sy : Z) (sw sh : nat) : ImageData :=
  mkImageData sw sh
    (raster sw sh (fun x y => pixelAt ctx (sx + Z.of_nat x) (sy + Z.of_nat y))).

(** [ctx.putImageData(img, dx, dy)]: the pixels of [img] that fall on the
    canvas replace what was there. *)
Definition putImageData (ctx : Context) (img : ImageData) (dx dy : Z) : Context :=
  mkContext (width ctx) (height ctx)
    (raster (width ctx) (height ctx) (fun x y =>
       let ix := (Z.of_nat x - dx)%Z in
       let iy := (Z.of_nat y - dy)%Z in
       if ((0 <=? ix) && (ix <? Z.of_nat (iwidth img)) &&
           (0 <=? iy) && (iy <? Z.of_nat (iheight img)))%Z
       then pixel (idata img) (Z.to_nat iy * iwidth img + Z.to_nat ix)
       else pixel (pixels ctx) (y * width ctx + x))).

(** What [ctx.drawImage(source, 0, 0, w, h)] leaves in byte [k] of a freshly
    cleared [w] by [h] canvas, given the source's width, height and bytes.
    The resampling is the canvas package's. *)
Variable drawImageScaled : nat -> nat -> list Z -> nat -> nat -> nat -> Z.

(** [resize(ctx, newX, newY)]; an omitted [newY] is passed as 0, which is
    as falsy as [undefined]; the sizes are natural numbers, on which
    [Math.abs] does nothing. *)
Definition resize (ctx : Context) (newX newY : nat) : Context :=
  let newY :=
    if (newY =? 0)%nat then
      let difference := ofZ (Z.of_nat newX) / ofZ (Z.of_nat (width ctx)) in
      Z.to_nat (toInt (Math_round (ofZ (Z.of_nat (height ctx)) * difference)))
    else newY in
  let oldX := width ctx in
  let oldY := height ctx in
  let data := getImageData ctx 0 0 oldX oldY in
  let absX := newX in
  let absY := newY in
  let newCanvas := putImageData (createCanvas oldX oldY) data 0 0 in
  mkContext absX absY
    (drawImageScaled (width newCanvas) (height newCanvas) (pixels newCanvas) absX absY
       <$> seq 0 (4 * (absX * absY))).

(** [duplicate(ctx)]. *)
Definition duplicate (ctx : Context) : Context :=
  let data := getImageData ctx 0 0 (width ctx) (height ctx) in
  putImageData (createCanvas (width ctx) (height ctx)) data 0 0.

(** ** tile *)

(** [Math.floor(size / tile)] as a canvas size, for a size and a positive
    whole number of tiles. *)
Definition sectionSize (size : nat) (tiles : positive) : nat :=
  Z.to_nat (toInt (Math_floor (ofZ (Z.of_nat size) / ofZ (Z.pos tiles)))).

(** [tile(ctx, tileX, tileY, size, sizeY = size)] for positive whole numbers
    of tiles; the result is the canvas after the call.  Setting the size of
    the canvas clears it before the scaled [drawImage]. *)
Definition tile (ctx : Context) (tileX tileY : positive) (size sizeY : nat)
    : Context :=
  let sectionSizeX := sectionSize size tileX in
  let sectionSizeY := sectionSize sizeY tileY in
  let ctx := resize ctx sectionSizeX sectionSizeY in
  let part :=
    createCanvas (sectionSizeX * Pos.to_nat tileX) (sectionSizeY * Pos.to_nat tileY) in
  let data2 := getImageData ctx 0 0 (width ctx) (height ctx) in
  let part :=
    foldl (fun part y =>
             foldl (fun part x =>
                      putImageData part data2
                        (Z.of_nat (x * sectionSizeX)) (Z.of_nat (y * sectionSizeY)))
                   part (seq 0 (Pos.to_nat tileX)))
          part (seq 0 (Pos.to_nat tileY)) in
  mkContext size sizeY
    (drawImageScaled (width part) (height part) (pixels part) size sizeY
       <$> seq 0 (4 * (size * sizeY))).

(** ** mask *)

(** [mask(base, imageMask, channel)]; the result is the canvas of [base]
    after the call. *)
Definition mask (base imageMask : Context) (channel : string) : Context :=
  let maskDupe := duplicate imageMask in
  let maskDupe :=
    if negb (width base =? width imageMask)%nat || negb (height base =? height imageMask)%nat
    then resize maskDupe (width base) (height base)
    else maskDupe in
  let baseData := getImageData base 0 0 (width base) (height base) in
  let maskData := getImageData maskDupe 0 0 (width maskDupe) (height maskDupe) in
  let channelIndex := channelIndexes channel in
  let data :=
    foldl (fun data i =>
             <[(i + 3)%nat := stored (k ← channelIndex; idata maskData !! (i + k)%nat)]> data)
          (idata baseData) (frames (length (idata baseData))) in
  putImageData base (mkImageData (iwidth baseData) (iheight baseData) data) 0 0.

(** ** pack *)

(** An element of the [images] array of [pack]: [{ data, channels }]. *)
Record PackImage : Type := mkPackImage {
  data : Context;
  channels : list (string * string)
}.

(** [delete object[key]] on a channel map. *)
Definition deleteKey (key : string) (object : list (string * string))
    : list (string * string) :=
  filter (fun entry => negb (String.eqb entry.1 key)) object.

(** [array.includes(name)]. *)
Definition includes (name : string) (array : list string) : bool :=
  existsb (String.eqb name) array.

(** The state of the first loop of [pack]: the [images] array, the
    [packedChannels] array and the indexes [console.warn] was called with. *)
Record PackState : Type := mkPackState {
  st_images : list PackImage;
  st_packedChannels : list string;
  st_warnings : list nat
}.

(** [for (const channel of Object.entries(images[i].channels))]: the entries
    are those the object had when the loop began; [current] is the object
    as the deletions leave it. *)
Fixpoint packClaims (i : nat) (entries current : list (string * string))
    (packedChannels : list string) (warnings : list nat)
    : list (string * string) * list string * list nat :=
  match entries with
  | [] => (current, packedChannels, warnings)
  | channel :: rest =>
      if includes channel.1 packedChannels then
        packClaims i rest (deleteKey channel.2 current) packedChannels (warnings ++ [i])
      else packClaims i rest current (packedChannels ++ [channel.1]) warnings
  end.

(** [for (let i = 0; i < images.length; i++)] of [pack], from index [i];
    [fuel] bounds the iterations, and [length images] of them are enough. *)
Fixpoint packScan (fuel : nat) (sizeX sizeY : nat) (i : nat) (st : PackState)
    : PackState :=
  match fuel with
  | O => st
  | S fuel =>
      match st_images st !! i with
      | None => st
      | Some image =>
          let '(current, packedChannels, warnings) :=
            packClaims i (channels image) (channels image)
              (st_packedChannels st) (st_warnings st) in
          if (length current =? 0)%nat then
            (* images.splice(i, 1); continue; *)
            packScan fuel sizeX sizeY (i + 1)
              (mkPackState (delete i (st_images st)) packedChannels warnings)
          else
            let data :=
              if negb (width (data image) =? sizeX)%nat
                 || negb (height (data image) =? sizeY)%nat
              then resize (duplicate (data image)) sizeX sizeY
              else data image in
            packScan fuel sizeX sizeY (i + 1)
              (mkPackState (<[i := mkPackImage data current]> (st_images st))
                 packedChannels warnings)
      end
  end.

(** [packedData.data[i + channelIndexTo] = imagesDatas[i2].data[i + channelIndexFrom]]
    for the entry [[to, from]]. *)
Definition packEntry (imageData : list Z) (i : nat) (packedData : list Z)
    (entry : string * string) : list Z :=
  let channelIndexFrom := channelIndexes entry.2 in
  let channelIndexTo := channelIndexes entry.1 in
  match channelIndexTo with
  | Some to =>
      <[(i + to)%nat := stored (from ← channelIndexFrom; imageData !! (i + from)%nat)]>
        packedData
  | None => packedData
  end.

(** The body of the loop over [i]: every image in turn, every entry of its
    channel map in turn. *)
Definition packFrame (images : list PackImage) (imagesDatas : list ImageData)
    (packedData : list Z) (i : nat) : list Z :=
  foldl (fun packedData image =>
           foldl (packEntry (idata image.2) i) packedData (channels image.1))
        packedData (zip images imagesDatas).

(** [pack(images, sizeX, sizeY = sizeX)]: the packed context and the
    warnings. *)
Definition pack (images : list PackImage) (sizeX sizeY : nat)
    : Context * list nat :=
  let packed := createCanvas sizeX sizeY in
  let packedData := getImageData packed 0 0 sizeX sizeY in
  let st := packScan (length images) sizeX sizeY 0 (mkPackState images [] []) in
  let images := st_images st in
  let imagesDatas := (fun img => getImageData (data img) 0 0 sizeX sizeY) <$> images in
  let data :=
    foldl (packFrame images imagesDatas) (idata packedData)
          (frames (length (idata packedData))) in
  (putImageData packed (mkImageData sizeX sizeY data) 0 0, st_warnings st).

(** ** unpack *)

(** The body of the loop of [unpack] on the four copies. *)
Definition unpackFrame (st : list Z * list Z * list Z * list Z) (i : nat)
    : list Z * list Z * list Z * list Z :=
  let '(rData, gData, bData, aData) := st in
  let rData := <[(i + 1)%nat := 0%Z]> rData in
  let rData := <[(i + 2)%nat := 0%Z]> rData in
  let rData := <[(i + 3)%nat := 255%Z]> rData in
  let gData := <[i := 0%Z]> gData in
  let gData := <[(i + 2)%nat := 0%Z]> gData in
  let gData := <[(i + 3)%nat := 255%Z]> gData in
  let bData := <[i := 0%Z]> bData in
  let bData := <[(i + 1)%nat := 0%Z]> bData in
  let bData := <[(i + 3)%nat := 255%Z]> bData in
  let aData := <[i := stored (aData !! 3%nat)]> aData in
  let aData := <[(i + 1)%nat := stored (aData !! 3%nat)]> aData in
  let aData := <[(i + 2)%nat := stored (aData !! 3%nat)]> aData in
  let aData := <[(i + 3)%nat := 255%Z]> aData in
  (rData, gData, bData, aData).

(** [unpack(ctx)]: the R, G, B and A contexts. *)
Definition unpack (ctx : Context) : Context * Context * Context * Context :=
  let w := width ctx in
  let h := height ctx in
  let imageData := getImageData ctx 0 0 w h in
  let rImageData := getImageData ctx 0 0 w h in
  let gImageData := getImageData ctx 0 0 w h in
  let bImageData := getImageData ctx 0 0 w h in
  let aImageData := getImageData ctx 0 0 w h in
  let rCanvas := createCanvas w h in
  let gCanvas := createCanvas w h in
  let bCanvas := createCanvas w h in
  let aCanvas := createCanvas w h in
  let '(rData, gData, bData, aData) :=
    foldl unpackFrame
      (idata rImageData, idata gImageData, idata bImageData, idata aImageData)
      (frames (length (idata imageData))) in
  (putImageData rCanvas (mkImageData w h rData) 0 0,
   putImageData gCanvas (mkImageData w h gData) 0 0,
   putImageData bCanvas (mkImageData w h bData) 0 0,
   putImageData aCanvas (mkImageData w h aData) 0 0).

(** ** offset *)

(** [offset(ctx, offsetX, offsetY)]; the result is the canvas after the
    call. *)
Definition offset (ctx : Context) (offsetX offsetY : Number) : Context :=
  let sizeX := ofZ (Z.of_nat (width ctx)) in
  let sizeY := ofZ (Z.of_nat (height ctx)) in
  let normalizedX := rem offsetX 1 in
  let normalizedY := rem offsetY 1 in
  let xIsNeg := normalizedX <? 0 in
  let yIsNeg := normalizedY <? 0 in
  let shiftAmountX :=
    if truthy normalizedX
    then Math_round (sizeX * (if xIsNeg then 1 + normalizedX else normalizedX))
    else 0 in
  let shiftAmountY :=
    if truthy normalizedY
    then Math_round (sizeY * (if yIsNeg then 1 + normalizedY else normalizedY))
    else 0 in
  let get (sx sy sw sh : Number) :=
    getImageData ctx (toInt sx) (toInt sy) (Z.to_nat (toInt sw)) (Z.to_nat (toInt sh)) in
  let put (ctx : Context) (img : ImageData) (dx dy : Number) :=
    putImageData ctx img (toInt dx) (toInt dy) in
  if negb (normalizedX =? 0) && (normalizedY =? 0) then
    let right := get (sizeX - shiftAmountX) 0 shiftAmountX sizeY in
    let left := get 0 0 (sizeX - shiftAmountX) sizeY in
    let ctx := put ctx left shiftAmountX 0 in
    put ctx right 0 0
  else if (normalizedX =? 0) && negb (normalizedY =? 0) then
    let bottom := get 0 (sizeY - shiftAmountY) sizeX shiftAmountY in
    let top := get 0 0 sizeX (sizeY - shiftAmountY) in
    let ctx := put ctx top 0 shiftAmountY in
    put ctx bottom 0 0
  else if negb (normalizedX =? 0) && negb (normalizedY =? 0) then
    let bottomRight :=
      get (sizeX - shiftAmountX) (sizeY - shiftAmountY) shiftAmountX shiftAmountY in
    let bottomLeft :=
      get 0 (sizeY - shiftAmountY) (sizeX - shiftAmountX) (sizeY - shiftAmountY) in
    let topRight := get (sizeX - shiftAmountX) 0 shiftAmountX (sizeY - shiftAmountY) in
    let topLeft := get 0 0 (sizeX - shiftAmountX) (sizeY - shiftAmountY) in
    let ctx := put ctx topLeft shiftAmountX shiftAmountY in
    let ctx := put ctx topRight 0 shiftAmountY in
    let ctx := put ctx bottomLeft shiftAmountX 0 in
    put ctx bottomRight 0 0
  else ctx.

End Library.

(** * Readings of the specification and auxiliary definitions *)

(** Stands for the approximated case of [Math.pow] in examples that never
    reach it. *)
Definition noPow : Number -> Number -> Number := fun _ _ => nan.

(** A sample of the canvas package's scaled [drawImage] for the examples:
    nearest-neighbour sampling. *)
Definition nearestNeighbour (sw sh : nat) (source : list Z) (w h k : nat) : Z :=
  let x := ((k / 4) mod w)%nat in
  let y := ((k / 4) / w)%nat in
  default 0%Z (source !! (4 * ((y * sh / h) * sw + x * sw / w) + k mod 4)%nat).

(** A call ends with an error. *)
Definition failsFast (o : outcome) : Prop :=
  exists message data, o = Threw message data.

(** A channel map declares a name that is not a channel, as a key or as a
    value. *)
Definition declaresInvalid (options : list (string * string)) : Prop :=
  Exists (fun entry => channelIndexes entry.1 = None \/ channelIndexes entry.2 = None)
    options.

(** The key of the last entry of a channel map whose value is [dest]. *)
Fixpoint lastSource (options : list (string * string)) (dest : string)
    : option string :=
  match options with
  | [] => None
  | (source, d) :: rest =>
      match lastSource rest dest with
      | Some s => Some s
      | None => if String.eqb d dest then Some source else None
      end
  end.

(** The reading of the specification: the key of an entry is the
    destination and its value the source, the four channels being read
    first. *)
Definition swizzleFrame_keyed_by_destination (data : list Z)
    (options : list (string * string)) (i : nat) : list Z :=
  let original := swizzleMap (data !! i) (data !! (i + 1)%nat)
                    (data !! (i + 2)%nat) (data !! (i + 3)%nat) in
  foldl (fun data entry =>
           match channelIndexes entry.1 with
           | Some c => <[(i + c)%nat := stored (original entry.2)]> data
           | None => data
           end)
        data options.

(** The transformation of one colour byte in the words of the
    specification: a negative multiplier interpolates the channel towards
    its inverse [255 - channel] by [|multiplier| / 255]; any other
    multiplier multiplies it by [multiplier / 255] and rounds. *)
Definition tinted (multiplier channel : Number) : Number :=
  (if multiplier <? 0
   then channel + (255 - channel - channel) * (abs multiplier / 255)
   else Math_round (channel * (multiplier / 255)))%float.

(** The pipeline in the words of the specification (section 4.1), step by
    step, to be compared with [hdrToSdr]. *)
Module Pipeline.
Section Steps.

Variable pow : Number -> Number -> Number.

Local Open Scope float_scope.

(** 1. Decode sRGB to linear, on [x] normalized to [0, 1]. *)
Definition decode (x : Number) : Number :=
  if x <=? 0.04045 then x / 12.92 else pow ((x + 0.055) / 1.055) 2.4.

(** 2. Multiply by [intensity * exposure]. *)
Definition scale (intensity exposure x : Number) : Number :=
  x * (intensity * exposure).

(** 3. Raise to the power [contrast]. *)
Definition contrast (c x : Number) : Number := pow x c.

(** The filmic curve [f(x) = x(Ax+B) / (x(Cx+D)+E)]. *)
Definition filmic (x : Number) : Number :=
  let A := 2.51 in let B := 0.03 in let C := 2.43 in
  let D := 0.59 in let E := 0.14 in
  x * (A * x + B) / (x * (C * x + D) + E).

(** 4. Multiply by [highlightCompression], apply the curve, add
    [shadowLifting]. *)
Definition tone (highlightCompression shadowLifting x : Number) : Number :=
  filmic (x * highlightCompression) + shadowLifting.

(** 5. Luminance, and the saturation adjustment around it. *)
Definition luminance (r g b : Number) : Number :=
  0.2126 * r + 0.7152 * g + 0.0722 * b.

Definition saturate (saturation L channel : Number) : Number :=
  L + saturation * (channel - L).

(** 6. Clamp to [0, 1]. *)
Definition clamp01 (x : Number) : Number :=
  if x <? 0 then 0 else if 1 <? x then 1 else x.

(** 7. Encode linear to sRGB. *)
Definition encode (x : Number) : Number :=
  if x <=? 0.0031308 then x * 12.92 else 1.055 * pow x (1 / 2.4) - 0.055.

(** 8. Scale to [0, 255] and round. *)
Definition toByte (x : Number) : Number := Math_round (x * 255).

(** Steps 1 to 4 act on each channel alone. *)
Definition linear (intensity exposure c highlightCompression shadowLifting
    channel : Number) : Number :=
  tone highlightCompression shadowLifting
    (contrast c (scale intensity exposure (decode (channel / 255)))).

(** Steps 5 to 8, given the luminance of the three channels. *)
Definition finish (saturation L channel : Number) : Number :=
  toByte (encode (clamp01 (saturate saturation L channel))).

Definition run (r g b intensity exposure c saturation highlightCompression
    shadowLifting : Number) : Number * Number * Number :=
  let r := linear intensity exposure c highlightCompression shadowLifting r in
  let g := linear intensity exposure c highlightCompression shadowLifting g in
  let b := linear intensity exposure c highlightCompression shadowLifting b in
  let L := luminance r g b in
  (finish saturation L r, finish saturation L g, finish saturation L b).

End Steps.
End Pipeline.






(** A loop body that keeps the length and writes only inside the frame it is
    given. *)
Definition frameLocal (body : list Z -> nat -> list Z) : Prop :=
  (forall d i, length (body d i) = length d) /\
  (forall d i j, (j < i \/ i + 4 <= j)%nat -> body d i !! j = d !! j).

(** The array after the first [n] frames of the loop. *)
Definition after (body : list Z -> nat -> list Z) (l : list Z) (n : nat) : list Z :=
  foldl body l ((fun k => 4 * k)%nat <$> seq 0 n).

(** The loop body of [unpack] on each of the four arrays. *)
Definition unpackR (d : list Z) (i : nat) : list Z :=
  <[(i + 3)%nat := 255%Z]> (<[(i + 2)%nat := 0%Z]> (<[(i + 1)%nat := 0%Z]> d)).
Definition unpackG (d : list Z) (i : nat) : list Z :=
  <[(i + 3)%nat := 255%Z]> (<[(i + 2)%nat := 0%Z]> (<[i := 0%Z]> d)).
Definition unpackB (d : list Z) (i : nat) : list Z :=
  <[(i + 3)%nat := 255%Z]> (<[(i + 1)%nat := 0%Z]> (<[i := 0%Z]> d)).
Definition unpackA (d : list Z) (i : nat) : list Z :=
  let d := <[i := stored (d !! 3%nat)]> d in
  let d := <[(i + 1)%nat := stored (d !! 3%nat)]> d in
  let d := <[(i + 2)%nat := stored (d !! 3%nat)]> d in
  <[(i + 3)%nat := 255%Z]> d.


(** The loop body of [mask]. *)
Definition maskBody (maskData : list Z) (channelIndex : option nat)
    (d : list Z) (i : nat) : list Z :=
  <[(i + 3)%nat := stored (k ← channelIndex; maskData !! (i + k)%nat)]> d.

(** The duplicate of the mask that [mask] reads: resized when the sizes
    differ. *)
Definition maskDupeOf
    (drawImageScaled : nat -> nat -> list Z -> nat -> nat -> nat -> Z)
    (base imageMask : Context) : Context :=
  if negb (width base =? width imageMask)%nat || negb (height base =? height imageMask)%nat
  then resize drawImageScaled (duplicate imageMask) (width base) (height base)
  else duplicate imageMask.

(** The intended semantics of a horizontal offset in the words of the
    specification: the offset is normalized to [[0, width)] by
    [((offset % width) + width) % width], and a shift by 1 moves column 0 to
    column [width - 1] and every other column left by one. *)
Definition offset_intended (ctx : Context) (offsetX : Z) : Context :=
  let W := Z.of_nat (width ctx) in
  let shift := ((Z.rem offsetX W + W) mod W)%Z in
  mkContext (width ctx) (height ctx)
    (raster (width ctx) (height ctx) (fun x y =>
       pixelAt ctx ((Z.of_nat x + shift) mod W) (Z.of_nat y))).

(** ** Auxiliary definitions for the whole-array and canvas properties *)

(** A byte of a [Uint8ClampedArray]. *)
Definition byte (x : Z) : Prop := (0 <= x <= 255)%Z.

(** What [bumpScaleFrame] stores for a channel byte: the byte interpolated
    from 128 by [scale], stored into the array. *)
Definition bumpScaled (scale : Number) (channel : Z) : Z :=
  ToUint8Clamp (lerp 128%float (ofZ channel) scale).

(** The pixel [bumpScaleFrame] leaves. *)
Definition bumpScaledPixel (scale : Number) (p : list Z) : list Z :=
  match p with
  | [x; y; z; t] => [bumpScaled scale x; bumpScaled scale y; z; t]
  | _ => p
  end.

(** The colour bytes [tintFrame] leaves for the bytes [x], [y], [z] of a
    pixel: each tinted and stored, and then, when the intensity is not 1,
    the stored components of [hdrToSdr] on them. *)
Definition tintedPixel (pow_approx : Number -> Number -> Number)
    (r g b int : Number) (x y z : Z) : list Z :=
  let x' := ToUint8Clamp (tinted r (ofZ x)) in
  let y' := ToUint8Clamp (tinted g (ofZ y)) in
  let z' := ToUint8Clamp (tinted b (ofZ z)) in
  let hdr :=
    hdrToSdr pow_approx (ofZ x') (ofZ y') (ofZ z') int
      exposureDefault contrastDefault saturationDefault
      highlightCompressionDefault shadowLiftingDefault in
  if PrimFloat.eqb int 1 then [x'; y'; z']
  else [ToUint8Clamp hdr.1.1; ToUint8Clamp hdr.1.2; ToUint8Clamp hdr.2].

(** The byte array a call leaves, however it ends. *)
Definition outcomeData (o : outcome) : list Z :=
  match o with
  | Returned data => data
  | Threw _ data => data
  end.

(** Two numbers are the same binary64 value, the sign of zero included. *)
Definition sameNumber (x y : Number) : bool :=
  match Prim2SF x, Prim2SF y with
  | S754_zero s1, S754_zero s2 => Bool.eqb s1 s2
  | S754_infinity s1, S754_infinity s2 => Bool.eqb s1 s2
  | S754_nan, S754_nan => true
  | S754_finite s1 m1 e1, S754_finite s2 m2 e2 =>
      Bool.eqb s1 s2 && (m1 =? m2)%positive && (e1 =? e2)%Z
  | _, _ => false
  end.

(** An image is well formed. *)
Definition wfImage (img : ImageData) : Prop :=
  length (idata img) = (4 * (iwidth img * iheight img))%nat.

(** The canvas [part] of [tile], of [tX] by [tY] sections of [sX] by [sY]
    pixels, when the rows of sections before [j] and the sections before [i]
    of row [j] have been put: these hold the pixels of [cell], the others
    are transparent black. *)
Definition tiled (sX sY tX tY : nat) (cell : list Z) (j i : nat)
    (part : Context) : Prop :=
  wf part /\ width part = (sX * tX)%nat /\ height part = (sY * tY)%nat /\
  forall x y, (x < sX * tX)%nat -> (y < sY * tY)%nat ->
    pixel (pixels part) (y * (sX * tX) + x)
    = if decide (y / sY < j \/ (y / sY = j /\ x / sX < i))%nat
      then pixel cell ((y mod sY) * sX + x mod sX)
      else [0; 0; 0; 0]%Z.

(** The canvas [pack] reads an image from: a resized duplicate when the
    image has not the size of the packed image, the image's own otherwise. *)
Definition packFit
    (drawImageScaled : nat -> nat -> list Z -> nat -> nat -> nat -> Z)
    (sizeX sizeY : nat) (ctx : Context) : Context :=
  if negb (width ctx =? sizeX)%nat || negb (height ctx =? sizeY)%nat
  then resize drawImageScaled (duplicate ctx) sizeX sizeY
  else ctx.

(** The writes of one iteration of the second loop of [pack], in order: the
    bytes of the image and the entry [[to, from]]. *)
Definition packWrites (images : list PackImage) (imagesDatas : list ImageData)
    : list (list Z * (string * string)) :=
  p ← zip images imagesDatas;
  (fun entry => (idata p.2, entry)) <$> channels p.1.

(** The writes of an iteration of the second loop of [pack] when every
    image has the size of the packed image. *)
Definition writesOf (images : list PackImage) : list (list Z * (string * string)) :=
  image ← images; (fun entry => (pixels (data image), entry)) <$> channels image.

(** One write of the second loop of [pack] at the frame [i]. *)
Definition packWrite (i : nat) (d : list Z) (w : list Z * (string * string)) : list Z :=
  packEntry w.1 i d w.2.

(** [shiftAmountX] and [shiftAmountY] of [offset]: the size times the
    fractional part of the offset, counted from the other side when it is
    negative, rounded. *)
Definition shiftAmount (size : nat) (offset : Number) : Number :=
  (let normalized := rem offset 1 in
   if truthy normalized
   then Math_round (ofZ (Z.of_nat size)
                    * (if normalized <? 0 then 1 + normalized else normalized))
   else 0)%float.

(** The whole numbers [offset] passes to the canvas for one direction are
    [s], for the shift amount, and [size - s], for [size - shiftAmount]. *)
Definition shiftsBy (size : nat) (offset : Number) (s : nat) : bool :=
  (toInt (shiftAmount size offset) =? Z.of_nat s)%Z &&
  (toInt (ofZ (Z.of_nat size) - shiftAmount size offset)%float =? Z.of_nat (size - s))%Z.

(** * Properties *)

(** ** The numbers of JavaScript on some known values *)

Section Numbers.

Local Open Scope float_scope.

Example Math_round_ties :
  Math_round 2.5 = 3 /\ Math_round (-2.5) = -2 /\ Math_round (-0.5) = neg_zero /\
  Math_round 0.49999999999999994 = 0 /\ Math_round 254.5 = 255 /\
  is_nan (Math_round nan) = true.
Proof. repeat split; reflexivity. Qed.

Example ToUint8Clamp_ties :
  ToUint8Clamp 2.5 = 2%Z /\ ToUint8Clamp 3.5 = 4%Z /\ ToUint8Clamp nan = 0%Z /\
  ToUint8Clamp (-3) = 0%Z /\ ToUint8Clamp 300 = 255%Z /\
  ToUint8Clamp 127.92156862745098 = 128%Z.
Proof. repeat split; reflexivity. Qed.

Example rem_values :
  rem 5.5 1 = 0.5 /\ rem (-5.5) 1 = -0.5 /\ rem 50 1 = 0 /\
  rem (-50) 1 = neg_zero /\ rem 7.25 2 = 1.25 /\ is_nan (rem infinity 1) = true.
Proof. repeat split; reflexivity. Qed.

Example Math_pow_fixed_cases (approx : Number -> Number -> Number) :
  is_nan (Math_pow approx (-2) 0.5) = true /\ Math_pow approx 0 1 = 0 /\
  Math_pow approx 7 0 = 1 /\ Math_pow approx neg_zero (-3) = neg_infinity /\
  is_nan (Math_pow approx nan 2) = true /\ Math_pow approx 9 2 = approx 9 2.
Proof. repeat split; reflexivity. Qed.

(** The examples of the documentation of [lerp], [clamp] and [tint2Mult]. *)
Example documented_values :
  lerp 0 125 0.25 = 31.25 /\ clamp 0 255 1000 = 255 /\ tint2Mult 128 = 128 / 255.
Proof. repeat split; reflexivity. Qed.

End Numbers.

(** ** Bitmaps *)

Section Bitmaps.

Implicit Types (l : list Z) (w h n k : nat).

Lemma bind_ext_in {A B} (f g : A -> list B) (xs : list A) :
  (forall x, x ∈ xs -> f x = g x) -> xs ≫= f = xs ≫= g.
Proof.
  induction xs as [|x xs IH]; intros Hfg; [done|].
  rewrite !bind_cons, Hfg by left.
  rewrite IH; [done|]. intros y Hy. apply Hfg. by right.
Qed.

Lemma bind_pixels l n : seq 0 n ≫= pixel l = take (4 * n) l.
Proof.
  induction n as [|n IH]; [done|].
  rewrite seq_S, bind_app, IH, bind_singleton. unfold pixel. simpl.
  rewrite take_take_drop. f_equal. lia.
Qed.

Lemma bind_rows {B} (f : nat -> list B) w h :
  (y ← seq 0 h; x ← seq 0 w; f (y * w + x)%nat) = seq 0 (h * w) ≫= f.
Proof.
  induction h as [|h IH]; [done|].
  rewrite seq_S, bind_app, IH, bind_singleton. simpl.
  replace (w + h * w)%nat with (h * w + w)%nat by lia.
  rewrite seq_app, bind_app. f_equal. simpl.
  replace (seq (h * w) w) with (Nat.add (h * w) <$> seq 0 w)
    by (rewrite fmap_add_seq; f_equal; lia).
  clear IH. generalize (seq 0 w). intros xs.
  induction xs as [|x xs IHx]; [done|].
  rewrite fmap_cons, !bind_cons, IHx. done.
Qed.

(** A raster whose pixels are those of [l] is [l]. *)
Lemma raster_pixels l w h (f : nat -> nat -> list Z) :
  length l = (4 * (w * h))%nat ->
  (forall x y, (x < w)%nat -> (y < h)%nat -> f x y = pixel l (y * w + x)) ->
  raster w h f = l.
Proof.
  intros Hlen Hf. unfold raster.
  transitivity (y ← seq 0 h; x ← seq 0 w; pixel l (y * w + x)%nat).
  - apply bind_ext_in. intros y Hy. apply bind_ext_in. intros x Hx.
    apply elem_of_seq in Hx, Hy. apply Hf; lia.
  - rewrite (bind_rows (pixel l)), bind_pixels. apply take_ge. lia.
Qed.

Lemma getImageData_full (ctx : Context) :
  wf ctx ->
  getImageData ctx 0 0 (width ctx) (height ctx)
  = mkImageData (width ctx) (height ctx) (pixels ctx).
Proof.
  intros Hwf. unfold getImageData. f_equal.
  apply raster_pixels; [done|]. intros x y Hx Hy. unfold pixelAt.
  rewrite !Z.add_0_l, !Nat2Z.id.
  replace (_ && _ && _ && _) with true; [done|].
  symmetry. repeat (apply andb_true_intro; split); lia.
Qed.

Lemma getImageData_sized (ctx : Context) w h :
  wf ctx -> width ctx = w -> height ctx = h ->
  getImageData ctx 0 0 w h = mkImageData w h (pixels ctx).
Proof. intros Hwf <- <-. by apply getImageData_full. Qed.

Lemma putImageData_full (ctx : Context) (img : ImageData) :
  iwidth img = width ctx -> iheight img = height ctx ->
  length (idata img) = (4 * (width ctx * height ctx))%nat ->
  putImageData ctx img 0 0 = mkContext (width ctx) (height ctx) (idata img).
Proof.
  intros Hw Hh Hlen. unfold putImageData. f_equal.
  apply raster_pixels; [done|]. intros x y Hx Hy. cbv zeta.
  rewrite !Z.sub_0_r, !Nat2Z.id, Hw, Hh.
  replace (_ && _ && _ && _) with true; [done|].
  symmetry. repeat (apply andb_true_intro; split); lia.
Qed.

Lemma duplicate_wf (ctx : Context) : wf ctx -> duplicate ctx = ctx.
Proof.
  intros Hwf. unfold duplicate. rewrite getImageData_full by done.
  rewrite putImageData_full by (simpl; done). by destruct ctx.
Qed.

Lemma pixel_lookup l k a b c d :
  pixel l k = [a; b; c; d] <->
  l !! (4 * k)%nat = Some a /\ l !! (4 * k + 1)%nat = Some b /\
  l !! (4 * k + 2)%nat = Some c /\ l !! (4 * k + 3)%nat = Some d.
Proof.
  unfold pixel. split.
  - intros H.
    assert (Hi : forall i, (i < 4)%nat -> l !! (4 * k + i)%nat = [a; b; c; d] !! i).
    { intros i Hi. rewrite <- H, lookup_take_lt, lookup_drop by done. done. }
    rewrite <- (Nat.add_0_r (4 * k)) at 1.
    rewrite !Hi by lia. done.
  - intros (Ha & Hb & Hc & Hd). apply list_eq. intros i.
    destruct (decide (i < 4)%nat) as [Hi|Hi].
    + rewrite lookup_take_lt, lookup_drop by done.
      destruct i as [|[|[|[|i]]]];
        [rewrite Nat.add_0_r; exact Ha|exact Hb|exact Hc|exact Hd|lia].
    + rewrite lookup_take_ge by lia. symmetry. apply lookup_ge_None_2. simpl. lia.
Qed.

End Bitmaps.

(** ** Loops over the frames of a byte array *)

Section Frames.

Implicit Types (l d : list Z).

Lemma foldl_pointwise {A B} (f g : A -> B -> A) (a : A) (bs : list B) :
  (forall a b, f a b = g a b) -> foldl f a bs = foldl g a bs.
Proof.
  intros Hfg. revert a. induction bs as [|b bs IH]; intros a; [done|].
  simpl. by rewrite Hfg, IH.
Qed.

Lemma frames_pixels (n : nat) : frames (4 * n) = (fun k => 4 * k)%nat <$> seq 0 n.
Proof.
  unfold frames. do 2 f_equal.
  replace (4 * n + 3)%nat with (3 + n * 4)%nat by lia.
  rewrite Nat.div_add by lia. done.
Qed.

Lemma after_S body l n : after body l (S n) = body (after body l n) (4 * n).
Proof. unfold after. by rewrite seq_S, fmap_app, foldl_app. Qed.

Lemma after_length body l n : frameLocal body -> length (after body l n) = length l.
Proof.
  intros [Hlen _]. induction n as [|n IH]; [done|]. by rewrite after_S, Hlen.
Qed.

(** The frames the loop has not reached are as they were. *)
Lemma after_untouched body l n j :
  frameLocal body -> (4 * n <= j)%nat -> after body l n !! j = l !! j.
Proof.
  intros [_ Hloc]. induction n as [|n IH]; intros Hj; [done|].
  rewrite after_S, Hloc by lia. apply IH. lia.
Qed.

(** A frame the loop has passed is as its own iteration left it. *)
Lemma after_frame body l n k j :
  frameLocal body -> (k < n)%nat -> (4 * k <= j < 4 * k + 4)%nat ->
  after body l n !! j = body (after body l k) (4 * k) !! j.
Proof.
  intros Hb Hk Hj. induction n as [|n IH]; [lia|].
  rewrite after_S. destruct (decide (k = n)) as [->|Hne]; [done|].
  destruct Hb as [Hlen Hloc]. rewrite Hloc by lia. apply IH. lia.
Qed.

End Frames.

(** Resolves the lookups in a stack of inserts, with [lia] for the indexes. *)
Ltac insert_lookup :=
  repeat (rewrite list_lookup_insert;
          let Hd := fresh "Hd" in
          case_decide as Hd; rewrite ?length_insert in Hd;
          [ try (exfalso; lia) | try (exfalso; apply Hd; lia) ]).

(** ** unpack *)

Section Unpack.

Implicit Types (l d : list Z).

Lemma foldl_unpackFrame (starts : list nat) r g b a :
  foldl unpackFrame (r, g, b, a) starts
  = (foldl unpackR r starts, foldl unpackG g starts,
     foldl unpackB b starts, foldl unpackA a starts).
Proof.
  revert r g b a. induction starts as [|i starts IH]; intros; [done|].
  simpl. apply IH.
Qed.

Ltac frame_local :=
  split; intros;
  [ cbv beta delta [unpackR unpackG unpackB unpackA] zeta;
    by rewrite !length_insert
  | cbv beta delta [unpackR unpackG unpackB unpackA] zeta;
    by rewrite !list_lookup_insert_ne by lia ].

Lemma unpackR_local : frameLocal unpackR.
Proof. frame_local. Qed.
Lemma unpackG_local : frameLocal unpackG.
Proof. frame_local. Qed.
Lemma unpackB_local : frameLocal unpackB.
Proof. frame_local. Qed.
Lemma unpackA_local : frameLocal unpackA.
Proof. frame_local. Qed.

(** What [unpack] returns for a well-formed canvas: four canvases of the
    same size holding the four arrays after the loop. *)
Lemma unpack_after (ctx : Context) :
  wf ctx ->
  let n := (width ctx * height ctx)%nat in
  unpack ctx
  = (mkContext (width ctx) (height ctx) (after unpackR (pixels ctx) n),
     mkContext (width ctx) (height ctx) (after unpackG (pixels ctx) n),
     mkContext (width ctx) (height ctx) (after unpackB (pixels ctx) n),
     mkContext (width ctx) (height ctx) (after unpackA (pixels ctx) n)).
Proof.
  intros Hwf n. unfold unpack. rewrite getImageData_full by done. simpl idata.
  rewrite Hwf, frames_pixels, foldl_unpackFrame. fold n.
  change (foldl ?f ?l (_ <$> seq 0 n)) with (after f l n).
  rewrite !putImageData_full; simpl; try done;
    rewrite after_length; auto using unpackR_local, unpackG_local, unpackB_local, unpackA_local.
Qed.

Lemma unpackA_first l t0 :
  (4 <= length l)%nat -> l !! 3%nat = Some t0 ->
  pixel (unpackA l 0) 0 = [t0; t0; t0; 255%Z].
Proof.
  intros Hlen H3. apply pixel_lookup. unfold unpackA. cbv zeta.
  insert_lookup. by rewrite H3.
Qed.

Lemma unpackA_later d (k : nat) :
  (4 * k + 4 <= length d)%nat -> (1 <= k)%nat -> d !! 3%nat = Some 255%Z ->
  pixel (unpackA d (4 * k)) k = [255; 255; 255; 255]%Z.
Proof.
  intros Hlen Hk H3. apply pixel_lookup. unfold unpackA. cbv zeta.
  insert_lookup. by rewrite H3.
Qed.

(** Pixel [k] of the array after the loop is pixel [k] of what iteration
    [k] produced. *)
Lemma after_pixel body l n k :
  frameLocal body -> (k < n)%nat ->
  pixel (after body l n) k = pixel (body (after body l k) (4 * k)) k.
Proof.
  intros Hb Hk. unfold pixel. apply list_eq. intros i.
  destruct (decide (i < 4)%nat) as [Hi|Hi].
  - rewrite !lookup_take_lt, !lookup_drop by done. apply after_frame; [done..|lia].
  - by rewrite !lookup_take_ge by lia.
Qed.

End Unpack.

(** C10: in the alpha output of [unpack] the first pixel's R, G and B are
    that pixel's own alpha, and every later pixel's R, G and B are 255: the
    first iteration has stored 255 at index 3, which the later ones read. *)
Theorem unpack_alpha_output (ctx : Context) (t0 : Z) :
  wf ctx -> pixels ctx !! 3%nat = Some t0 ->
  let aCanvas := (unpack ctx).2 in
  pixel (pixels aCanvas) 0 = [t0; t0; t0; 255%Z] /\
  forall k, (1 <= k < width ctx * height ctx)%nat ->
    pixel (pixels aCanvas) k = [255; 255; 255; 255]%Z.
Proof.
  intros Hwf H3. rewrite unpack_after by done. simpl.
  pose proof (lookup_lt_Some _ _ _ H3) as Hlen. unfold wf in Hwf.
  split.
  - rewrite after_pixel by (auto using unpackA_local; lia).
    apply (unpackA_first (pixels ctx)); [lia|done].
  - intros k Hk. rewrite after_pixel by (auto using unpackA_local; lia).
    apply unpackA_later; [rewrite after_length by apply unpackA_local; lia|lia|].
    rewrite (after_frame _ _ _ 0) by (auto using unpackA_local; lia).
    change (after unpackA (pixels ctx) 0) with (pixels ctx).
    unfold unpackA. cbv zeta. by insert_lookup.
Qed.

Lemma unpack_alpha_output_witness :
  let ctx := mkContext 2 1 [1; 2; 3; 40; 5; 6; 7; 80]%Z in
  let aCanvas := (unpack ctx).2 in
  pixel (pixels aCanvas) 0 = [40; 40; 40; 255]%Z /\
  forall k, (1 <= k < 2 * 1)%nat -> pixel (pixels aCanvas) k = [255; 255; 255; 255]%Z.
Proof.
  apply (unpack_alpha_output (mkContext 2 1 [1; 2; 3; 40; 5; 6; 7; 80]%Z) 40%Z);
    reflexivity.
Defined.

(** ** mask *)

Section Mask.

Variable drawImageScaled : nat -> nat -> list Z -> nat -> nat -> nat -> Z.

Implicit Types (l d : list Z) (base imageMask : Context).

Lemma maskBody_local maskData channelIndex :
  frameLocal (maskBody maskData channelIndex).
Proof.
  split; intros; unfold maskBody.
  - by rewrite length_insert.
  - by rewrite list_lookup_insert_ne by lia.
Qed.

Lemma resize_wf (ctx : Context) (newX newY : nat) :
  wf (resize drawImageScaled ctx newX newY).
Proof. unfold wf, resize. simpl. by rewrite length_fmap, length_seq. Qed.

Lemma resize_size (ctx : Context) (newX newY : nat) :
  newY <> 0%nat ->
  width (resize drawImageScaled ctx newX newY) = newX /\
  height (resize drawImageScaled ctx newX newY) = newY.
Proof.
  intros Hy. unfold resize. simpl. split; [done|].
  by destruct (Nat.eqb_spec newY 0).
Qed.

Lemma maskDupeOf_wf base imageMask : wf imageMask -> wf (maskDupeOf drawImageScaled base imageMask).
Proof.
  intros Hwf. unfold maskDupeOf. destruct (_ || _); [apply resize_wf|].
  by rewrite duplicate_wf.
Qed.


(** What [mask] leaves on a well-formed canvas. *)
Lemma mask_after base imageMask channel :
  wf base -> wf imageMask ->
  mask drawImageScaled base imageMask channel
  = mkContext (width base) (height base)
      (after (maskBody (pixels (maskDupeOf drawImageScaled base imageMask)) (channelIndexes channel))
         (pixels base) (width base * height base)).
Proof.
  intros Hb Hm. unfold mask. fold (maskDupeOf drawImageScaled base imageMask).
  rewrite (getImageData_full base) by done.
  rewrite (getImageData_full (maskDupeOf _ _ _)) by by apply maskDupeOf_wf.
  simpl. rewrite Hb, frames_pixels.
  rewrite putImageData_full; simpl; try done.
  change (foldl ?f ?l (_ <$> seq 0 ?n)) with (after (maskBody (pixels (maskDupeOf drawImageScaled base imageMask)) (channelIndexes channel)) l n).
  rewrite after_length by apply maskBody_local. done.
Qed.

Lemma channelIndexes_lt (channel : string) (c : nat) :
  channelIndexes channel = Some c -> (c < 4)%nat.
Proof.
  unfold channelIndexes.
  repeat (destruct (String.eqb _ _); [intros [= <-]; lia|]). done.
Qed.


End Mask.


(** ** pack without conflicts *)

Section Pack.

Variable drawImageScaled : nat -> nat -> list Z -> nat -> nat -> nat -> Z.

Implicit Types (l d : list Z).


(** The first loop ends within [length images] iterations: fuel beyond the
    images left to visit changes nothing. *)
Lemma packScan_fuel (fuel fuel' sizeX sizeY i : nat) (st : PackState) :
  (length (st_images st) - i <= fuel)%nat -> (fuel <= fuel')%nat ->
  packScan drawImageScaled fuel' sizeX sizeY i st
  = packScan drawImageScaled fuel sizeX sizeY i st.
Proof.
  revert fuel' i st. induction fuel as [|fuel IH]; intros fuel' i st Hlen Hle.
  - destruct fuel' as [|fuel']; [done|]. simpl.
    by rewrite lookup_ge_None_2 by lia.
  - destruct fuel' as [|fuel']; [lia|]. simpl.
    destruct (st_images st !! i) as [image|] eqn:Hi; [|done].
    apply lookup_lt_Some in Hi.
    destruct (packClaims _ _ _ _ _) as [[current packedChannels] warnings].
    destruct (length current =? 0)%nat; apply IH; simpl;
      rewrite ?length_delete, ?length_insert; try lia.
    apply lookup_lt_is_Some_2. lia.
Qed.

Lemma packEntry_local imageData entry :
  frameLocal (fun d i => packEntry imageData i d entry).
Proof.
  unfold packEntry. split; intros d i;
    destruct (channelIndexes entry.1) as [c|] eqn:Hc; try done.
  - by rewrite length_insert.
  - intros j Hj. apply channelIndexes_lt in Hc.
    by rewrite list_lookup_insert_ne by lia.
Qed.


End Pack.

(** ** pack: conflicting claims *)


(** ** unpack: the colour outputs *)


Ltac unpack_pixel Hpx Hlen :=
  apply pixel_lookup; apply pixel_lookup in Hpx;
  destruct Hpx as (? & ? & ? & ?);
  cbv beta delta [unpackR unpackG unpackB] zeta;
  insert_lookup;
  rewrite ?after_untouched by (auto using unpackR_local, unpackG_local, unpackB_local; lia);
  repeat split; (done || (exfalso; rewrite after_length in *
    by auto using unpackR_local, unpackG_local, unpackB_local; lia)).

Lemma unpack_pixels (ctx : Context) (k : nat) (x y z t : Z) :
  wf ctx -> (k < width ctx * height ctx)%nat ->
  pixel (pixels ctx) k = [x; y; z; t] ->
  let '(rCanvas, gCanvas, bCanvas, aCanvas) := unpack ctx in
  pixel (pixels rCanvas) k = [x; 0; 0; 255]%Z /\
  pixel (pixels gCanvas) k = [0; y; 0; 255]%Z /\
  pixel (pixels bCanvas) k = [0; 0; z; 255]%Z /\
  pixels aCanvas !! (4 * k + 3)%nat = Some 255%Z /\
  Forall (fun canvas => width canvas = width ctx /\ height canvas = height ctx)
    [rCanvas; gCanvas; bCanvas; aCanvas].
Proof.
  intros Hwf Hk Hpx. rewrite unpack_after by done. unfold wf in Hwf. simpl.
  rewrite !after_pixel by (auto using unpackR_local, unpackG_local, unpackB_local; lia).
  split; [|split; [|split; [|split]]].
  - unpack_pixel Hpx Hwf.
  - unpack_pixel Hpx Hwf.
  - unpack_pixel Hpx Hwf.
  - rewrite (after_frame _ _ _ k) by (auto using unpackA_local; lia).
    unfold unpackA. cbv zeta. insert_lookup; [done|].
    exfalso. rewrite after_length in * by apply unpackA_local. lia.
  - repeat constructor.
Qed.



(** ** swizzle *)

Section Swizzle.

Implicit Types (data d : list Z) (options entries : list (string * string)).

Lemma channelIndexes_inj (c1 c2 : string) (k : nat) :
  channelIndexes c1 = Some k -> channelIndexes c2 = Some k -> c1 = c2.
Proof.
  assert (Hname : forall s, channelIndexes s = Some k ->
            s = nth k ["R"; "G"; "B"; "A"] "").
  { intros s. unfold channelIndexes.
    repeat match goal with
           | |- context [String.eqb s ?c] =>
               destruct (String.eqb_spec s c) as [->|?]; [by intros [= <-]|]
           end.
    done. }
  intros H1 H2. by rewrite (Hname c1), (Hname c2).
Qed.

(** One entry with a channel as its value is one write. *)
Lemma swizzleEntries_valid lookup source dest (c : nat) entries (i : nat) d :
  channelIndexes dest = Some c ->
  swizzleEntries lookup ((source, dest) :: entries) i d
  = swizzleEntries lookup entries i (<[(i + c)%nat := stored (lookup source)]> d).
Proof.
  unfold channelIndexes. simpl.
  repeat (destruct (String.eqb dest _);
          [intros [= <-]; by rewrite ?Nat.add_0_r|]).
  done.
Qed.

(** One entry with anything else as its value ends the call. *)
Lemma swizzleEntries_invalid lookup source dest entries (i : nat) d :
  channelIndexes dest = None ->
  swizzleEntries lookup ((source, dest) :: entries) i d
  = Threw "Oh, so we're doing other data channels now" d.
Proof.
  unfold channelIndexes. simpl.
  by repeat (destruct (String.eqb dest _); [done|]).
Qed.

Lemma swizzleEntries_returns lookup entries (i : nat) d :
  Forall (fun entry => is_Some (channelIndexes entry.2)) entries ->
  exists d',
    swizzleEntries lookup entries i d = Returned d' /\
    length d' = length d /\
    (forall j, (j < i \/ i + 4 <= j)%nat -> d' !! j = d !! j) /\
    (forall dest c, channelIndexes dest = Some c -> (i + c < length d)%nat ->
       d' !! (i + c)%nat
       = match lastSource entries dest with
         | Some source => Some (stored (lookup source))
         | None => d !! (i + c)%nat
         end).
Proof.
  intros Hvalid. revert d.
  induction Hvalid as [|[source dst] entries [c Hc] _ IH]; intros d.
  { exists d. by repeat split. }
  simpl in Hc.
  destruct (IH (<[(i + c)%nat := stored (lookup source)]> d))
    as (d' & Hret & Hlen & Hout & Hin).
  exists d'. rewrite (swizzleEntries_valid _ _ _ c) by done.
  pose proof (channelIndexes_lt _ _ Hc) as Hc4.
  split; [done|]. split; [by rewrite Hlen, length_insert|]. split.
  - intros j Hj. rewrite Hout by done. by rewrite list_lookup_insert_ne by lia.
  - intros dest c' Hc' Hlt. rewrite (Hin dest c') by (rewrite ?length_insert; done).
    simpl. destruct (lastSource entries dest); [done|].
    destruct (String.eqb_spec dst dest) as [->|Hne].
    + assert (c' = c) as -> by congruence.
      by rewrite list_lookup_insert_eq.
    + rewrite list_lookup_insert_ne; [done|].
      intros Heq. apply Hne, (channelIndexes_inj _ _ c); [done|].
      by replace c with c' by lia.
Qed.

Lemma swizzleEntries_throws lookup entries (i : nat) d :
  Exists (fun entry => channelIndexes entry.2 = None) entries ->
  failsFast (swizzleEntries lookup entries i d).
Proof.
  intros Hbad. revert d.
  induction entries as [|[source dst] entries IH]; intros d.
  { by apply Exists_nil in Hbad. }
  destruct (channelIndexes dst) as [c|] eqn:Hc.
  - rewrite (swizzleEntries_valid _ _ _ c) by done. apply IH.
    apply Exists_cons in Hbad as [Hbad|Hbad]; [|done]. simpl in Hbad. congruence.
  - rewrite swizzleEntries_invalid by done. by eexists _, _.
Qed.

End Swizzle.

(** C1 (counterexample): on the pixel (10, 20, 30, 40) the map { R: "G" }
    copies R into G, giving (10, 10, 30, 40); with R as the destination and
    G as the source the result would be (20, 20, 30, 40). *)
Lemma swizzleFrame_key_is_source :
  swizzleFrame [10; 20; 30; 40]%Z [("R", "G")] 0 = Returned [10; 10; 30; 40]%Z /\
  swizzleFrame [10; 20; 30; 40]%Z [("R", "G")] 0
  <> Returned (swizzleFrame_keyed_by_destination [10; 20; 30; 40]%Z [("R", "G")] 0).
Proof. split; [reflexivity|]. vm_compute. discriminate. Qed.

(** C1 (amended): [swizzleFrame] treats the key of every entry as the
    source channel and its value as the destination: when every value is a
    channel, it returns, and each destination channel holds the byte that
    the source of the last entry naming it had before the call, the four
    channels being read before any write; a channel no entry names as its
    value, and every byte outside the frame, is unchanged. *)
Theorem swizzleFrame_source_to_destination (data : list Z)
    (options : list (string * string)) (i : nat) :
  (i + 3 < length data)%nat ->
  Forall (fun entry => is_Some (channelIndexes entry.2)) options ->
  exists data',
    swizzleFrame data options i = Returned data' /\
    length data' = length data /\
    (forall j, (j < i \/ i + 4 <= j)%nat -> data' !! j = data !! j) /\
    (forall dest c, channelIndexes dest = Some c ->
       data' !! (i + c)%nat
       = match lastSource options dest with
         | Some source =>
             Some (stored (swizzleMap (data !! i) (data !! (i + 1)%nat)
                             (data !! (i + 2)%nat) (data !! (i + 3)%nat) source))
         | None => data !! (i + c)%nat
         end).
Proof.
  intros Hlen Hvalid. unfold swizzleFrame.
  destruct (swizzleEntries_returns
              (swizzleMap (data !! i) (data !! (i + 1)%nat)
                 (data !! (i + 2)%nat) (data !! (i + 3)%nat))
              options i data Hvalid) as (d' & Hret & Hl & Hout & Hin).
  exists d'. repeat split; try done.
  intros dest c Hc. apply Hin; [done|].
  apply channelIndexes_lt in Hc. lia.
Qed.

Lemma swizzleFrame_source_to_destination_witness :
  exists data',
    swizzleFrame [10; 20; 30; 40]%Z [("R", "B"); ("B", "R")] 0 = Returned data' /\
    data' !! (0 + 2)%nat = Some 10%Z /\ data' !! (0 + 0)%nat = Some 30%Z.
Proof.
  destruct (swizzleFrame_source_to_destination
              [10; 20; 30; 40]%Z [("R", "B"); ("B", "R")] 0)
    as (data' & Hret & _ & _ & Hin).
  - simpl. lia.
  - repeat constructor; by eexists.
  - exists data'. split; [exact Hret|]. split.
    + exact (Hin "B" 2%nat eq_refl).
    + exact (Hin "R" 0%nat eq_refl).
Defined.

(** ** Invalid channel names *)

(** C8 (counterexample): [swizzle] with the map { X: "B" } declares the
    name X, returns without an error and stores 0 in B. *)
Lemma swizzle_invalid_source_returns :
  declaresInvalid [("X", "B")] /\
  swizzle [10; 20; 30; 40]%Z [("X", "B")] = Returned [10; 20; 0; 40]%Z /\
  ~ failsFast (swizzle [10; 20; 30; 40]%Z [("X", "B")]).
Proof.
  split; [constructor; by left|]. split; [reflexivity|].
  intros (message & data & H). discriminate H.
Qed.

Section InvalidChannels.

Variable drawImageScaled : nat -> nat -> list Z -> nat -> nat -> nat -> Z.

Lemma swizzle_throws (data : list Z) (options : list (string * string)) :
  data <> [] ->
  Exists (fun entry => channelIndexes entry.2 = None) options ->
  failsFast (swizzle data options).
Proof.
  intros Hdata Hbad. unfold swizzle, frames.
  destruct data as [|x data]; [done|]. simpl length.
  replace ((S (length data) + 3) / 4)%nat with (S (length data / 4)).
  - simpl.
    destruct (swizzleEntries_throws
                (swizzleMap ((x :: data) !! 0%nat) ((x :: data) !! 1%nat)
                   ((x :: data) !! 2%nat) ((x :: data) !! 3%nat))
                options 0 (x :: data) Hbad) as (message & d & Hthrow).
    unfold swizzleFrame. simpl in *. rewrite Hthrow. by eexists _, _.
  - replace (S (length data) + 3)%nat with (length data + 1 * 4)%nat by lia.
    rewrite Nat.div_add by lia. lia.
Qed.

Lemma mask_invalid_channel (base imageMask : Context) (channel : string) :
  wf base -> wf imageMask -> channelIndexes channel = None ->
  forall k, (k < width base * height base)%nat ->
    pixels (mask drawImageScaled base imageMask channel) !! (4 * k + 3)%nat
    = Some 0%Z.
Proof.
  intros Hb Hm Hc k Hk. rewrite mask_after by done.
  rewrite Hc. cbn [pixels].
  rewrite (after_frame _ _ _ k) by (apply maskBody_local || lia).
  pose proof (after_length
    (maskBody (pixels (maskDupeOf drawImageScaled base imageMask)) None)
    (pixels base) k (maskBody_local _ _)) as Hlen.
  unfold maskBody at 1. simpl. rewrite list_lookup_insert_eq; [done|].
  rewrite Hlen. unfold wf in Hb. lia.
Qed.

(** C8 (amended): [swizzleFrame] ends with an error exactly when a value of
    the map, a destination, is not one of R, G, B, A, and so does [swizzle]
    on a buffer that is not empty; a key that is not a channel raises no
    error, and neither does a channel name outside R, G, B, A in [mask] or
    [pack], which have no check: [mask] then stores 0 in every alpha byte,
    and an entry of [pack] stores 0 for an unknown source and nothing for an
    unknown destination. *)
Theorem invalid_channel_handling :
  (forall data options i,
     failsFast (swizzleFrame data options i) <->
     Exists (fun entry => channelIndexes entry.2 = None) options) /\
  (forall data options,
     data <> [] ->
     Exists (fun entry => channelIndexes entry.2 = None) options ->
     failsFast (swizzle data options)) /\
  (forall base imageMask channel,
     wf base -> wf imageMask -> channelIndexes channel = None ->
     forall k, (k < width base * height base)%nat ->
       pixels (mask drawImageScaled base imageMask channel) !! (4 * k + 3)%nat
       = Some 0%Z) /\
  (forall imageData i packedData to from,
     (channelIndexes to = None ->
      packEntry imageData i packedData (to, from) = packedData) /\
     (forall c, channelIndexes to = Some c -> channelIndexes from = None ->
      packEntry imageData i packedData (to, from)
      = <[(i + c)%nat := 0%Z]> packedData)).
Proof.
  split; [|split; [|split]].
  - intros data options i. split.
    + intros (message & d & Hthrow).
      destruct (decide (Forall (fun entry => is_Some (channelIndexes entry.2)) options))
        as [Hvalid|Hbad].
      * destruct (swizzleEntries_returns
                    (swizzleMap (data !! i) (data !! (i + 1)%nat)
                       (data !! (i + 2)%nat) (data !! (i + 3)%nat))
                    options i data Hvalid) as (d' & Hret & _).
        unfold swizzleFrame in Hthrow. congruence.
      * apply not_Forall_Exists in Hbad; [|apply _].
        eapply Exists_impl; [exact Hbad|]. simpl. intros entry Hno.
        destruct (channelIndexes entry.2); [|done]. by destruct Hno.
    + apply swizzleEntries_throws.
  - apply swizzle_throws.
  - apply mask_invalid_channel.
  - intros imageData i packedData to from. unfold packEntry. simpl. split.
    + by intros ->.
    + by intros c -> ->.
Qed.

End InvalidChannels.

Lemma invalid_channel_handling_witness :
  failsFast (swizzle [10; 20; 30; 40]%Z [("R", "X")]) /\
  pixels (mask nearestNeighbour (mkContext 1 1 [1; 2; 3; 4]%Z)
            (mkContext 1 1 [5; 6; 7; 8]%Z) "X") !! (4 * 0 + 3)%nat = Some 0%Z.
Proof.
  destruct (invalid_channel_handling nearestNeighbour) as (_ & Hs & Hm & _).
  split.
  - apply Hs; [discriminate|]. constructor. reflexivity.
  - apply Hm; [reflexivity|reflexivity|reflexivity|simpl; lia].
Defined.

(** ** offset: whole pixels *)

Section Offset.

Local Open Scope float_scope.

(** The remainder by 1 of a whole number is 0 or -0. *)
Lemma rem_1_integral (x : Number) :
  isIntegral x = true -> rem x 1 = 0 \/ rem x 1 = neg_zero.
Proof.
  unfold isIntegral, rem. intros Hint.
  remember (Prim2SF 1) as one eqn:Hone. vm_compute in Hone. subst one.
  pose proof (SF2Prim_Prim2SF x) as Hx.
  destruct (Prim2SF x) as [[]|[]| |s m e]; try done.
  - right. by rewrite <- Hx.
  - left. by rewrite <- Hx.
  - cbv zeta.
    assert (Hrem : Z.rem (Z.pos m * 2 ^ (e - Z.min e (-52)))
                     (4503599627370496 * 2 ^ (-52 - Z.min e (-52))) = 0%Z).
    { apply Z.rem_divide; [lia|].
      unfold integralSF in Hint. apply orb_true_iff in Hint.
      destruct (Z.min_spec e (-52)) as [[Hlt ->]|[Hge ->]].
      - replace (-52 - e)%Z with (- e - 52)%Z by lia.
        rewrite Z.sub_diag, Z.mul_1_r.
        change 4503599627370496%Z with (2 ^ 52)%Z.
        rewrite <- Z.pow_add_r by lia. replace (52 + (- e - 52))%Z with (- e)%Z by lia.
        destruct Hint as [Hint|Hint]; [lia|].
        apply Z.eqb_eq in Hint. apply Z.mod_divide; [lia|done].
      - replace (-52 - -52)%Z with 0%Z by lia. rewrite Z.mul_1_r.
        change 4503599627370496%Z with (2 ^ 52)%Z.
        destruct Hint as [Hint|Hint].
        + apply Z.leb_le in Hint. replace (e - -52)%Z with (e + 52)%Z by lia.
          rewrite Z.pow_add_r by lia. apply Z.divide_mul_r, Z.divide_factor_r.
        + apply Z.eqb_eq in Hint.
          destruct (Z.leb_spec 0 e) as [Hpos|Hneg].
          * replace (e - -52)%Z with (e + 52)%Z by lia.
            rewrite Z.pow_add_r by lia. apply Z.divide_mul_r, Z.divide_factor_r.
          * apply Z.mod_divide in Hint; [|lia]. destruct Hint as [q Hq].
            exists q. rewrite Hq, <- Z.mul_assoc, <- Z.pow_add_r by lia.
            do 2 f_equal. lia. }
    rewrite Hrem. simpl. destruct s; auto.
Qed.

Lemma offset_integral (ctx : Context) (offsetX offsetY : Number) :
  isIntegral offsetX = true -> isIntegral offsetY = true ->
  offset ctx offsetX offsetY = ctx.
Proof.
  intros Hx Hy. unfold offset.
  destruct (rem_1_integral offsetX Hx) as [-> | ->],
    (rem_1_integral offsetY Hy) as [-> | ->]; reflexivity.
Qed.

End Offset.

(** C5: [offset] on offsets in whole pixels.  The offset is reduced by
    [% 1], which is 0 for every whole number, so no branch runs and the
    canvas is left as it is: a shift by the width 3 does nothing, as
    intended, but neither do the shifts by 1 and by -1 nor the shift by 50
    and -50 of the documentation, where the intended result of the shift by
    1 has the columns rotated. *)
Theorem offset_whole_pixels_unchanged :
  (forall (ctx : Context) (offsetX offsetY : Number),
     isIntegral offsetX = true -> isIntegral offsetY = true ->
     offset ctx offsetX offsetY = ctx) /\
  let ctx := mkContext 3 1 [1; 2; 3; 255; 5; 6; 7; 255; 9; 10; 11; 255]%Z in
  offset ctx 3%float 0%float = ctx /\
  offset ctx 1%float 0%float = ctx /\
  offset ctx (-1)%float 0%float = ctx /\
  offset ctx 50%float (-50)%float = ctx /\
  offset_intended ctx 3 = ctx /\
  offset_intended ctx 1
  = mkContext 3 1 [5; 6; 7; 255; 9; 10; 11; 255; 1; 2; 3; 255]%Z.
Proof.
  split; [exact offset_integral|]. repeat split; vm_compute; reflexivity.
Qed.

Lemma offset_whole_pixels_unchanged_witness :
  offset (mkContext 2 1 [1; 2; 3; 255; 5; 6; 7; 255]%Z) 1%float 0%float
  = mkContext 2 1 [1; 2; 3; 255; 5; 6; 7; 255]%Z.
Proof.
  apply (proj1 offset_whole_pixels_unchanged); reflexivity.
Defined.

(** ** The tone mapper *)

Section ToneMapper.

Variable pow_approx : Number -> Number -> Number.

Local Open Scope float_scope.

(** C4: [hdrToSdr] is the fixed sequence of the specification: decode of
    the input over 255, times [intensity * exposure], to the power
    [contrast], times [highlightCompression], the filmic curve with
    A=2.51, B=0.03, C=2.43, D=0.59, E=0.14, plus [shadowLifting], saturation
    around the luminance 0.2126r+0.7152g+0.0722b, clamp to [0,1], encode,
    times 255 and round.  With intensity 1 and the defaults every step
    with a parameter has its neutral one (times 1, power 1, times 1, plus 0,
    saturation weight 1), which leaves the decoding, the filmic curve, the
    clamp, the encoding and the rounding; black is then mapped to black. *)
Theorem hdrToSdr_pipeline :
  (forall r g b intensity exposure contrast saturation highlightCompression
          shadowLifting,
     hdrToSdr pow_approx r g b intensity exposure contrast saturation
       highlightCompression shadowLifting
     = Pipeline.run (Math_pow pow_approx) r g b intensity exposure contrast
         saturation highlightCompression shadowLifting) /\
  (forall r g b,
     let pow := Math_pow pow_approx in
     let curve channel :=
       Pipeline.filmic (pow (Pipeline.decode pow (channel / 255) * 1) 1 * 1) + 0 in
     let L := Pipeline.luminance (curve r) (curve g) (curve b) in
     let out channel :=
       Pipeline.toByte
         (Pipeline.encode pow (Pipeline.clamp01 (L + 1 * (curve channel - L)))) in
     hdrToSdr pow_approx r g b 1 exposureDefault contrastDefault
       saturationDefault highlightCompressionDefault shadowLiftingDefault
     = (out r, out g, out b)) /\
  hdrToSdr pow_approx 0 0 0 1 exposureDefault contrastDefault saturationDefault
    highlightCompressionDefault shadowLiftingDefault = (0, 0, 0).
Proof.
  split; [|split].
  - reflexivity.
  - reflexivity.
  - vm_compute. reflexivity.
Qed.

End ToneMapper.

(** ** Comparisons of binary64 numbers *)

Section Comparisons.

Local Open Scope float_scope.

Implicit Types (x y v : Number).

Lemma is_nan_spec x :
  is_nan x = match Prim2SF x with S754_nan => true | _ => false end.
Proof.
  unfold is_nan. rewrite FloatAxioms.eqb_spec. unfold SFeqb.
  destruct (Prim2SF x) as [[]|[]| |[] m e]; simpl; try done;
    by rewrite Z.compare_refl, Pos.compare_cont_refl.
Qed.

Lemma SFcompare_antisym (a b : spec_float) :
  SFcompare b a = CompOpp <$> SFcompare a b.
Proof.
  destruct a as [[]|[]| |[] m1 e1], b as [[]|[]| |[] m2 e2]; simpl; try done;
    rewrite (Z.compare_antisym e1 e2);
    destruct (e1 ?= e2)%Z; simpl; try done;
    change Eq with (CompOpp Eq) at 1;
    rewrite <- (Pos.compare_cont_antisym m1 m2 Eq);
    by destruct (Pos.compare_cont Eq m1 m2).
Qed.

Lemma ltb_leb x y : (x <? y) = true -> (x <=? y) = true.
Proof.
  rewrite FloatAxioms.ltb_spec, FloatAxioms.leb_spec. unfold SFltb, SFleb.
  by destruct (SFcompare _ _) as [[]|].
Qed.

Lemma ltb_not_nan x y : (x <? y) = true -> is_nan x = false /\ is_nan y = false.
Proof.
  rewrite FloatAxioms.ltb_spec, !is_nan_spec. unfold SFltb.
  destruct (Prim2SF x) as [[]|[]| |[] m1 e1], (Prim2SF y) as [[]|[]| |[] m2 e2];
    simpl; try done; intros; try done.
Qed.

(** Two numbers that are not NaN are ordered one way or the other. *)
Lemma ltb_false_leb x y :
  is_nan x = false -> is_nan y = false -> (x <? y) = false -> (y <=? x) = true.
Proof.
  rewrite !is_nan_spec, FloatAxioms.ltb_spec, FloatAxioms.leb_spec. unfold SFltb, SFleb.
  rewrite (SFcompare_antisym (Prim2SF x) (Prim2SF y)).
  destruct (Prim2SF x) as [[]|[]| |[] m1 e1], (Prim2SF y) as [[]|[]| |[] m2 e2];
    try done; simpl; intros _ _;
    destruct (e1 ?= e2)%Z; simpl; try done;
    by destruct (Pos.compare_cont Eq m1 m2).
Qed.

Lemma ltb_asym x y : (x <? y) = true -> (y <=? x) = false.
Proof.
  rewrite FloatAxioms.ltb_spec, FloatAxioms.leb_spec. unfold SFltb, SFleb.
  rewrite (SFcompare_antisym (Prim2SF x) (Prim2SF y)).
  by destruct (SFcompare _ _) as [[]|].
Qed.

(** A number below zero is below every number from zero on. *)
Lemma ltb_0_255 v : (255 <? v) = true -> (v <=? 0) = false.
Proof.
  rewrite FloatAxioms.ltb_spec, FloatAxioms.leb_spec. unfold SFltb, SFleb.
  remember (Prim2SF 255) as c eqn:Hc. vm_compute in Hc. subst c.
  remember (Prim2SF 0) as c eqn:Hc. vm_compute in Hc. subst c.
  destruct (Prim2SF v) as [[]|[]| |[] m e]; simpl; done.
Qed.



End Comparisons.

(** ** The range of the tone mapper *)

Section Range.

Variable pow_approx : Number -> Number -> Number.

Local Open Scope float_scope.





End Range.



(** ** tint *)

Section Tint.

Variable pow_approx : Number -> Number -> Number.

Local Open Scope float_scope.

Implicit Types (v m : Number) (data : list Z).

(** Storing a number clamped to [0, 255] stores the number. *)
Lemma ToUint8Clamp_clamp v : ToUint8Clamp (clamp 0 255 v) = ToUint8Clamp v.
Proof.
  unfold clamp. destruct (v <? 0) eqn:H0.
  - unfold ToUint8Clamp at 2.
    destruct (ltb_not_nan _ _ H0) as [-> _]. by rewrite (ltb_leb _ _ H0).
  - destruct (255 <? v) eqn:H1; [|done].
    unfold ToUint8Clamp at 2.
    destruct (ltb_not_nan _ _ H1) as [_ ->].
    by rewrite (ltb_0_255 _ H1), (ltb_leb _ _ H1).
Qed.

Lemma tint2Mult_neg m : (m <? 0) = true -> tint2Mult (- m) = abs m / 255.
Proof.
  intros H. unfold tint2Mult.
  assert (Hpos : (0 <? - m) = true /\ - m = abs m).
  { split; [|apply Prim2SF_inj]; revert H;
      rewrite ?FloatAxioms.ltb_spec, ?opp_spec, ?abs_spec; unfold SFltb;
      remember (Prim2SF 0) as c eqn:Hc; vm_compute in Hc; subst c;
      destruct (Prim2SF m) as [[]|[]| |[] p e]; simpl; done. }
  destruct Hpos as [-> ->]. done.
Qed.

(** A number that is neither negative nor positive is 0, -0 or NaN. *)
Lemma zero_or_nan m :
  (m <? 0) = false -> (0 <? m) = false -> m = 0 \/ m = neg_zero \/ m = nan.
Proof.
  rewrite <- (SF2Prim_Prim2SF m) at 3 4 5.
  rewrite !FloatAxioms.ltb_spec. unfold SFltb.
  remember (Prim2SF 0) as c eqn:Hc; vm_compute in Hc; subst c.
  destruct (Prim2SF m) as [[]|[]| |[] p e]; simpl; try done; auto.
Qed.

Lemma bytes_all (f g : Z -> Z) :
  forallb (fun b => (f b =? g b)%Z) (seqZ 0 256) = true ->
  forall b, (0 <= b <= 255)%Z -> f b = g b.
Proof.
  intros Hall b Hb. rewrite forallb_forall in Hall.
  apply Z.eqb_eq, Hall, list_elem_of_In, elem_of_seqZ. lia.
Qed.

Lemma tint_other_byte m (b : Z) :
  (0 <= b <= 255)%Z -> (m <? 0) = false ->
  ToUint8Clamp (clamp 0 255 (Math_round (ofZ b * tint2Mult m)))
  = ToUint8Clamp (Math_round (ofZ b * (m / 255))).
Proof.
  intros Hb Hm. rewrite ToUint8Clamp_clamp. unfold tint2Mult.
  destruct (0 <? m) eqn:Hpos; [done|].
  revert b Hb.
  destruct (zero_or_nan m Hm Hpos) as [->|[->| ->]];
    apply bytes_all; vm_compute; reflexivity.
Qed.

Lemma tint_channel data (k : nat) m (x : Z) :
  data !! k = Some x -> (0 <= x <= 255)%Z ->
  (if m <? 0
   then aset data k (clamp 0 255 (lerp (aget data k) (255 - aget data k) (tint2Mult (- m))))
   else aset data k (clamp 0 255 (Math_round (aget data k * tint2Mult m))))
  = <[k := ToUint8Clamp (tinted m (ofZ x))]> data.
Proof.
  intros Hk Hx. unfold aget, aset, tinted. rewrite Hk. simpl.
  destruct (m <? 0) eqn:Hm.
  - by rewrite ToUint8Clamp_clamp, tint2Mult_neg.
  - by rewrite tint_other_byte.
Qed.

(** [tintFrame] writes at [i], [i + 1] and [i + 2] only. *)
Lemma tintFrame_elsewhere data (r g b int : Number) (i j : nat) :
  j <> i -> j <> (i + 1)%nat -> j <> (i + 2)%nat ->
  tintFrame pow_approx data r g b int i !! j = data !! j.
Proof.
  intros H0 H1 H2. unfold tintFrame, aset. cbv zeta.
  destruct (negb (int =? 1)), (r <? 0), (g <? 0), (b <? 0);
    by rewrite !list_lookup_insert_ne by done.
Qed.

(** [tint] leaves every alpha byte as it was. *)
Lemma tint_alpha data (r g b int : Number) (j : nat) :
  (j mod 4 = 3)%nat -> tint pow_approx data r g b int !! j = data !! j.
Proof.
  intros Hj. unfold tint, frames. generalize ((length data + 3) / 4)%nat.
  intros n. induction n as [|n IH]; [done|].
  rewrite seq_S, fmap_app, foldl_app. cbn -[Nat.mul tintFrame].
  rewrite tintFrame_elsewhere; [done|..]; intros ->; revert Hj.
  - replace (4 * n)%nat with (0 + n * 4)%nat by lia.
    by rewrite Nat.Div0.mod_add.
  - replace (4 * n + 1)%nat with (1 + n * 4)%nat by lia.
    by rewrite Nat.Div0.mod_add.
  - replace (4 * n + 2)%nat with (2 + n * 4)%nat by lia.
    by rewrite Nat.Div0.mod_add.
Qed.

(** C6: [tintFrame] replaces each of R, G and B by the stored value of
    [tinted]: for a negative multiplier the channel interpolated towards
    [255 - channel] by [|multiplier| / 255], otherwise the channel times
    [multiplier / 255], rounded; then, when the intensity is not 1, the three
    bytes are replaced by the stored components of [hdrToSdr] on them with
    that intensity and the default parameters; the alpha byte, like every
    byte outside the three, is not modified. *)
Theorem tintFrame_spec data (r g b int : Number) (i : nat) (x y z : Z) :
  data !! i = Some x -> data !! (i + 1)%nat = Some y ->
  data !! (i + 2)%nat = Some z ->
  (0 <= x <= 255)%Z -> (0 <= y <= 255)%Z -> (0 <= z <= 255)%Z ->
  let x' := ToUint8Clamp (tinted r (ofZ x)) in
  let y' := ToUint8Clamp (tinted g (ofZ y)) in
  let z' := ToUint8Clamp (tinted b (ofZ z)) in
  let hdr :=
    hdrToSdr pow_approx (ofZ x') (ofZ y') (ofZ z') int
      exposureDefault contrastDefault saturationDefault
      highlightCompressionDefault shadowLiftingDefault in
  tintFrame pow_approx data r g b int i
  = (if int =? 1
     then <[(i + 2)%nat := z']> (<[(i + 1)%nat := y']> (<[i := x']> data))
     else <[(i + 2)%nat := ToUint8Clamp hdr.2]>
            (<[(i + 1)%nat := ToUint8Clamp hdr.1.2]>
               (<[i := ToUint8Clamp hdr.1.1]> data))) /\
  tintFrame pow_approx data r g b int i !! (i + 3)%nat = data !! (i + 3)%nat.
Proof.
  intros Hx Hy Hz Bx By Bz x' y' z' hdr.
  split; [|apply tintFrame_elsewhere; lia].
  pose proof (lookup_lt_Some _ _ _ Hx). pose proof (lookup_lt_Some _ _ _ Hy).
  pose proof (lookup_lt_Some _ _ _ Hz).
  unfold tintFrame. cbv zeta.
  rewrite (tint_channel data i r x) by done. fold x'.
  rewrite (tint_channel _ (i + 1) g y) by (by insert_lookup). fold y'.
  rewrite (tint_channel _ (i + 2) b z) by (by insert_lookup). fold z'.
  destruct (int =? 1); simpl; [done|].
  assert (Hget : forall k (v : Z),
    <[(i + 2)%nat := z']> (<[(i + 1)%nat := y']> (<[i := x']> data)) !! k = Some v ->
    aget (<[(i + 2)%nat := z']> (<[(i + 1)%nat := y']> (<[i := x']> data))) k = ofZ v).
  { intros k v Hk. unfold aget. by rewrite Hk. }
  rewrite (Hget i x'), (Hget (i + 1)%nat y'), (Hget (i + 2)%nat z')
    by (by insert_lookup).
  fold hdr. unfold aset. apply list_eq. intros j. by insert_lookup.
Qed.

End Tint.

Lemma tintFrame_spec_witness :
  tintFrame noPow [10; 20; 30; 40]%Z 128%float (-255)%float 255%float 1%float 0
  = [5; 235; 30; 40]%Z /\
  tintFrame noPow [10; 20; 30; 40]%Z 128%float (-255)%float 255%float 1%float 0
    !! 3%nat = Some 40%Z.
Proof.
  apply (tintFrame_spec noPow [10; 20; 30; 40]%Z
           128%float (-255)%float 255%float 1%float 0 10 20 30);
    (reflexivity || lia).
Defined.

(** * Further properties of the library *)

(** ** More known values *)

Section MoreNumbers.

Local Open Scope float_scope.

Example Math_floor_values :
  Math_floor 2.5 = 2 /\ Math_floor (-2.5) = -3 /\ Math_floor (-0.5) = -1 /\
  Math_floor 0.5 = 0 /\ Math_floor neg_zero = neg_zero /\ Math_floor 7 = 7 /\
  is_nan (Math_floor nan) = true.
Proof. repeat split; reflexivity. Qed.

Example sectionSize_values :
  sectionSize 4 2 = 2%nat /\ sectionSize 5 2 = 2%nat /\
  sectionSize 1024 3 = 341%nat /\ sectionSize 1 3 = 0%nat.
Proof. repeat split; reflexivity. Qed.

End MoreNumbers.

(** ** Loops that map every pixel alone *)

Section Pixelwise.

Implicit Types (l d : list Z).

Lemma pixel_ext d d' (k : nat) :
  (forall c, (c < 4)%nat -> d !! (4 * k + c)%nat = d' !! (4 * k + c)%nat) ->
  pixel d k = pixel d' k.
Proof.
  intros H. unfold pixel. apply list_eq. intros i.
  destruct (decide (i < 4)%nat) as [Hi|Hi].
  - rewrite !lookup_take_lt, !lookup_drop by done. by apply H.
  - by rewrite !lookup_take_ge by lia.
Qed.

(** A loop whose body maps the pixel of its own frame by [F], whatever the
    other frames hold, maps every pixel by [F]. *)
Lemma after_pixelwise body (P : list Z -> Prop) (F : list Z -> list Z) l (n k : nat) :
  frameLocal body ->
  (forall d i, P (pixel d i) -> pixel (body d (4 * i)%nat) i = F (pixel d i)) ->
  (k < n)%nat -> P (pixel l k) -> pixel (after body l n) k = F (pixel l k).
Proof.
  intros Hb HF Hk HP. rewrite after_pixel by done.
  assert (Heq : pixel (after body l k) k = pixel l k).
  { apply pixel_ext. intros c Hc. apply after_untouched; [done|lia]. }
  rewrite HF; by rewrite Heq.
Qed.

Lemma pixel_length d (k : nat) x y z t :
  pixel d k = [x; y; z; t] -> (4 * k + 3 < length d)%nat.
Proof.
  intros H. apply pixel_lookup in H as (_ & _ & _ & H).
  by apply lookup_lt_Some in H.
Qed.

Lemma frames_count d (k : nat) :
  (4 * k + 3 < length d)%nat -> (k < (length d + 3) / 4)%nat.
Proof.
  intros H. apply Nat.div_le_lower_bound; lia.
Qed.

End Pixelwise.

(** ** bumpScale *)

Section BumpScale.

Local Open Scope float_scope.

Implicit Types (data d : list Z) (scale : Number).

Lemma bumpScale_channel data (k : nat) scale :
  aset data k (clamp 0 255 (lerp 128 (aget data k) scale))
  = match data !! k with
    | Some x => <[k := bumpScaled scale x]> data
    | None => data
    end.
Proof.
  unfold aset, aget, bumpScaled. rewrite ToUint8Clamp_clamp.
  destruct (data !! k) eqn:H; simpl; [done|].
  apply list_insert_ge. by apply lookup_ge_None.
Qed.

Lemma bumpScaleFrame_inserts data scale (i : nat) :
  bumpScaleFrame data scale i
  = let data := match data !! i with
                | Some x => <[i := bumpScaled scale x]> data
                | None => data
                end in
    match data !! (i + 1)%nat with
    | Some y => <[(i + 1)%nat := bumpScaled scale y]> data
    | None => data
    end.
Proof.
  unfold bumpScaleFrame, normalDefaultRGB. cbn [fst snd]. cbv zeta.
  by rewrite !bumpScale_channel.
Qed.

Lemma bumpScaleFrame_local scale : frameLocal (fun d i => bumpScaleFrame d scale i).
Proof.
  split; intros d i; [|intros j Hj]; rewrite bumpScaleFrame_inserts; cbv zeta;
    destruct (d !! i); destruct (_ !! (i + 1)%nat);
    rewrite ?length_insert, ?list_lookup_insert_ne by lia; done.
Qed.

Lemma bumpScaleFrame_pixel d (i : nat) scale x y z t :
  pixel d i = [x; y; z; t] ->
  pixel (bumpScaleFrame d scale (4 * i)) i
  = [bumpScaled scale x; bumpScaled scale y; z; t].
Proof.
  intros Hp. pose proof (pixel_length _ _ _ _ _ _ Hp) as Hlen.
  apply pixel_lookup in Hp as (Hx & Hy & Hz & Ht). apply pixel_lookup.
  rewrite bumpScaleFrame_inserts. cbv zeta. rewrite Hx.
  rewrite list_lookup_insert_ne, Hy by lia.
  repeat split; insert_lookup; done.
Qed.

Lemma bumpScale_after data scale :
  bumpScale data scale
  = after (fun d i => bumpScaleFrame d scale i) data ((length data + 3) / 4).
Proof. reflexivity. Qed.

Lemma bumpScale_pixel data scale (k : nat) x y z t :
  pixel data k = [x; y; z; t] ->
  pixel (bumpScale data scale) k
  = [bumpScaled scale x; bumpScaled scale y; z; t].
Proof.
  intros Hp. rewrite bumpScale_after.
  rewrite (after_pixelwise _ (fun p => exists x y z t, p = [x; y; z; t])
             (bumpScaledPixel scale)).
  - by rewrite Hp.
  - apply bumpScaleFrame_local.
  - intros d i (x' & y' & z' & t' & Hd). rewrite Hd. simpl.
    by apply bumpScaleFrame_pixel.
  - apply frames_count. by eapply pixel_length.
  - by eexists _, _, _, _.
Qed.

End BumpScale.

Section FloatFacts.

Local Open Scope float_scope.

Lemma mul_nan_r (x : Number) : x * nan = nan.
Proof.
  apply Prim2SF_inj. rewrite FloatAxioms.mul_spec.
  change (Prim2SF nan) with S754_nan.
  by destruct (Prim2SF x) as [[]|[]| |[] m e].
Qed.

Lemma add_nan_r (x : Number) : x + nan = nan.
Proof.
  apply Prim2SF_inj. rewrite FloatAxioms.add_spec.
  change (Prim2SF nan) with S754_nan.
  by destruct (Prim2SF x) as [[]|[]| |[] m e].
Qed.

End FloatFacts.

Lemma foldl_fixed {A B} (f : A -> B -> A) (a : A) (bs : list B) :
  (forall b, f a b = a) -> foldl f a bs = a.
Proof. intros H. induction bs as [|b bs IH]; [done|]. simpl. by rewrite H. Qed.

Section BumpScaleValues.

Local Open Scope float_scope.

Lemma bumpScaled_one (b : Z) : byte b -> bumpScaled 1 b = b.
Proof. revert b. apply (bytes_all (bumpScaled 1) (fun b => b)). vm_compute. reflexivity. Qed.

Lemma bumpScaled_zero (b : Z) : byte b -> bumpScaled 0 b = 128%Z.
Proof. revert b. apply (bytes_all (bumpScaled 0) (fun _ => 128%Z)). vm_compute. reflexivity. Qed.

Lemma bumpScaled_nan (x : Z) : bumpScaled nan x = 0%Z.
Proof. unfold bumpScaled, lerp. by rewrite mul_nan_r, add_nan_r. Qed.

Lemma bumpScaleFrame_one (d : list Z) (i : nat) :
  Forall byte d -> bumpScaleFrame d 1 i = d.
Proof.
  intros Hd. rewrite bumpScaleFrame_inserts. cbv zeta.
  assert (Hk : forall k, match d !! k with
                         | Some x => <[k := bumpScaled 1 x]> d
                         | None => d
                         end = d).
  { intros k. destruct (d !! k) as [x|] eqn:Hx; [|done].
    rewrite bumpScaled_one by (eapply Forall_lookup_1; done).
    by apply list_insert_id. }
  by rewrite !Hk.
Qed.

End BumpScaleValues.

(** X1: bumpScale, at every pixel: R and G are replaced by the stored value
    of [lerp(128, channel, scale)] (the clamp to [0, 255] is what the store
    does anyway), B and A are kept, and the array keeps its length. *)
Theorem bumpScale_every_pixel (data : list Z) (scale : Number) (k : nat)
    (x y z t : Z) :
  pixel data k = [x; y; z; t] ->
  pixel (bumpScale data scale) k
  = [ToUint8Clamp (lerp 128%float (ofZ x) scale);
     ToUint8Clamp (lerp 128%float (ofZ y) scale); z; t] /\
  length (bumpScale data scale) = length data.
Proof.
  intros Hp. split; [by apply bumpScale_pixel|].
  rewrite bumpScale_after. apply after_length, bumpScaleFrame_local.
Qed.

Lemma bumpScale_every_pixel_witness :
  pixel (bumpScale [100; 200; 30; 40; 128; 0; 255; 7]%Z 2%float) 0
  = [72; 255; 30; 40]%Z /\
  length (bumpScale [100; 200; 30; 40; 128; 0; 255; 7]%Z 2%float) = 8%nat.
Proof.
  apply (bumpScale_every_pixel [100; 200; 30; 40; 128; 0; 255; 7]%Z 2%float 0
           100 200 30 40).
  reflexivity.
Defined.

(** X2: bumpScale with the scale 1, the documented default, changes no byte
    of a byte array, whatever its length. *)
Theorem bumpScale_one_is_identity (data : list Z) :
  Forall byte data -> bumpScale data 1%float = data.
Proof.
  intros Hd. unfold bumpScale. apply foldl_fixed. intros i.
  by apply bumpScaleFrame_one.
Qed.

Lemma bumpScale_one_is_identity_witness :
  bumpScale [100; 200; 30; 40; 128; 0; 255; 7; 9]%Z 1%float
  = [100; 200; 30; 40; 128; 0; 255; 7; 9]%Z.
Proof.
  apply bumpScale_one_is_identity. unfold byte. repeat constructor; lia.
Defined.

(** X3: bumpScale with the scale 0 gives every pixel the R and G of the flat
    normal (128, 128); with a NaN scale it stores 0 in R and G. B and A are
    kept in both cases. *)
Theorem bumpScale_zero_is_flat (data : list Z) (k : nat) (x y z t : Z) :
  pixel data k = [x; y; z; t] -> byte x -> byte y ->
  pixel (bumpScale data 0%float) k = [128; 128; z; t]%Z /\
  pixel (bumpScale data nan) k = [0; 0; z; t]%Z.
Proof.
  intros Hp Hx Hy. rewrite !(bumpScale_pixel _ _ _ _ _ _ _ Hp).
  by rewrite !bumpScaled_zero, !bumpScaled_nan.
Qed.

Lemma bumpScale_zero_is_flat_witness :
  pixel (bumpScale [100; 200; 30; 40; 1; 2; 3; 4]%Z 0%float) 1 = [128; 128; 3; 4]%Z /\
  pixel (bumpScale [100; 200; 30; 40; 1; 2; 3; 4]%Z nan) 1 = [0; 0; 3; 4]%Z.
Proof.
  apply (bumpScale_zero_is_flat [100; 200; 30; 40; 1; 2; 3; 4]%Z 1 1 2 3 4);
    [reflexivity|unfold byte; lia..].
Defined.

(** ** tint on the whole array *)

Section TintBuffer.

Variable pow_approx : Number -> Number -> Number.

Local Open Scope float_scope.

Implicit Types (data d : list Z) (r g b int m : Number).

(** One channel statement of [tintFrame], in range or not. *)
Lemma tint_channel_total d (k : nat) m :
  Forall byte d ->
  (if m <? 0
   then aset d k (clamp 0 255 (lerp (aget d k) (255 - aget d k) (tint2Mult (- m))))
   else aset d k (clamp 0 255 (Math_round (aget d k * tint2Mult m))))
  = match d !! k with
    | Some x => <[k := ToUint8Clamp (tinted m (ofZ x))]> d
    | None => d
    end.
Proof.
  intros Hd. destruct (d !! k) as [x|] eqn:Hx.
  - apply tint_channel; [done|]. by eapply (Forall_lookup_1 byte).
  - unfold aset. apply lookup_ge_None in Hx.
    destruct (m <? 0); by apply list_insert_ge.
Qed.

Lemma tintFrame_local r g b int :
  frameLocal (fun d i => tintFrame pow_approx d r g b int i).
Proof.
  split.
  - intros d i. unfold tintFrame, aset. cbv zeta.
    destruct (negb (int =? 1)), (r <? 0), (g <? 0), (b <? 0);
      by rewrite !length_insert.
  - intros d i j Hj. apply tintFrame_elsewhere; lia.
Qed.

Lemma tintFrame_inserts d r g b int (i : nat) (x y z : Z) :
  d !! i = Some x -> d !! (i + 1)%nat = Some y -> d !! (i + 2)%nat = Some z ->
  byte x -> byte y -> byte z ->
  tintFrame pow_approx d r g b int i
  = foldr (fun '(c, v) d => <[(i + c)%nat := v]> d) d
      (reverse (zip [0; 1; 2]%nat (tintedPixel pow_approx r g b int x y z))).
Proof.
  intros Hx Hy Hz Bx By Bz.
  pose proof (lookup_lt_Some _ _ _ Hx). pose proof (lookup_lt_Some _ _ _ Hy).
  pose proof (lookup_lt_Some _ _ _ Hz).
  unfold tintFrame, tintedPixel. cbv zeta.
  rewrite (tint_channel d i r x) by done.
  rewrite (tint_channel _ (i + 1) g y) by (by insert_lookup).
  rewrite (tint_channel _ (i + 2) b z) by (by insert_lookup).
  set (x' := ToUint8Clamp (tinted r (ofZ x))).
  set (y' := ToUint8Clamp (tinted g (ofZ y))).
  set (z' := ToUint8Clamp (tinted b (ofZ z))).
  destruct (int =? 1); cbn [negb].
  - cbn [zip zip_with reverse foldr]. unfold reverse. cbn [rev_append foldr].
    by rewrite Nat.add_0_r.
  - assert (Hget : forall k (v : Z),
      <[(i + 2)%nat := z']> (<[(i + 1)%nat := y']> (<[i := x']> d)) !! k = Some v ->
      aget (<[(i + 2)%nat := z']> (<[(i + 1)%nat := y']> (<[i := x']> d))) k = ofZ v).
    { intros k v Hk. unfold aget. by rewrite Hk. }
    rewrite (Hget i x'), (Hget (i + 1)%nat y'), (Hget (i + 2)%nat z')
      by (by insert_lookup).
    unfold aset. unfold reverse. cbn [zip zip_with rev_append foldr].
    rewrite Nat.add_0_r.
    apply list_eq. intros j. by insert_lookup.
Qed.

Lemma tintedPixel_length r g b int x y z :
  exists x' y' z', tintedPixel pow_approx r g b int x y z = [x'; y'; z'].
Proof. unfold tintedPixel. cbv zeta. destruct (int =? 1); by eexists _, _, _. Qed.

Lemma tintFrame_pixel d (i : nat) r g b int x y z t :
  pixel d i = [x; y; z; t] -> byte x -> byte y -> byte z ->
  pixel (tintFrame pow_approx d r g b int (4 * i)) i
  = tintedPixel pow_approx r g b int x y z ++ [t].
Proof.
  intros Hp Bx By Bz. pose proof (pixel_length _ _ _ _ _ _ Hp) as Hlen.
  apply pixel_lookup in Hp as (Hx & Hy & Hz & Ht).
  rewrite (tintFrame_inserts d r g b int (4 * i) x y z) by done.
  destruct (tintedPixel_length r g b int x y z) as (x' & y' & z' & ->).
  unfold reverse. cbn [zip zip_with rev_append foldr app].
  apply pixel_lookup. rewrite Nat.add_0_r. repeat split; by insert_lookup.
Qed.

Lemma tint_after data r g b int :
  tint pow_approx data r g b int
  = after (fun d i => tintFrame pow_approx d r g b int i) data ((length data + 3) / 4).
Proof. reflexivity. Qed.

Lemma tint_pixel data r g b int (k : nat) x y z t :
  pixel data k = [x; y; z; t] -> byte x -> byte y -> byte z ->
  pixel (tint pow_approx data r g b int) k
  = tintedPixel pow_approx r g b int x y z ++ [t].
Proof.
  intros Hp Bx By Bz. rewrite tint_after.
  rewrite (after_pixelwise _
             (fun p => exists x y z t, p = [x; y; z; t] /\ byte x /\ byte y /\ byte z)
             (fun p => match p with
                       | [x; y; z; t] => tintedPixel pow_approx r g b int x y z ++ [t]
                       | _ => p
                       end)).
  - by rewrite Hp.
  - apply tintFrame_local.
  - intros d i (x' & y' & z' & t' & Hd & ? & ? & ?). rewrite Hd.
    by apply tintFrame_pixel.
  - apply frames_count. by eapply pixel_length.
  - by eexists _, _, _, _.
Qed.

Lemma tinted_white (x : Z) : byte x -> ToUint8Clamp (tinted 255 (ofZ x)) = x.
Proof.
  revert x. apply (bytes_all (fun x => ToUint8Clamp (tinted 255 (ofZ x))) (fun x => x)).
  vm_compute. reflexivity.
Qed.

Lemma tinted_black (x : Z) : byte x -> ToUint8Clamp (tinted 0 (ofZ x)) = 0%Z.
Proof.
  revert x. apply (bytes_all (fun x => ToUint8Clamp (tinted 0 (ofZ x))) (fun _ => 0%Z)).
  vm_compute. reflexivity.
Qed.

Lemma tinted_nan (x : Z) : byte x -> ToUint8Clamp (tinted nan (ofZ x)) = 0%Z.
Proof.
  revert x. apply (bytes_all (fun x => ToUint8Clamp (tinted nan (ofZ x))) (fun _ => 0%Z)).
  vm_compute. reflexivity.
Qed.

Lemma tinted_inverse (x : Z) :
  byte x -> ToUint8Clamp (tinted (-255) (ofZ x)) = (255 - x)%Z.
Proof.
  revert x.
  apply (bytes_all (fun x => ToUint8Clamp (tinted (-255) (ofZ x))) (fun x => (255 - x)%Z)).
  vm_compute. reflexivity.
Qed.

Lemma tintFrame_white d (i : nat) :
  Forall byte d -> tintFrame pow_approx d 255 255 255 1 i = d.
Proof.
  intros Hd. unfold tintFrame. cbv zeta.
  assert (Hk : forall k,
    (if 255 <? 0
     then aset d k (clamp 0 255 (lerp (aget d k) (255 - aget d k) (tint2Mult (- 255))))
     else aset d k (clamp 0 255 (Math_round (aget d k * tint2Mult 255)))) = d).
  { intros k. rewrite tint_channel_total by done.
    destruct (d !! k) as [x|] eqn:Hx; [|done].
    rewrite tinted_white by (by eapply (Forall_lookup_1 byte)).
    by apply list_insert_id. }
  rewrite !Hk. reflexivity.
Qed.

End TintBuffer.

(** X4: tint, at every pixel of a byte array: each of R, G and B becomes the
    stored value of its own tinted byte, a negative multiplier interpolating
    towards the inverse and any other multiplying by [multiplier / 255] and
    rounding; when the intensity is not 1 the three are then replaced by the
    stored components of [hdrToSdr] on them; the alpha byte is kept. A pixel
    depends on no other pixel. *)
Theorem tint_every_pixel (pow_approx : Number -> Number -> Number)
    (data : list Z) (r g b int : Number) (k : nat) (x y z t : Z) :
  pixel data k = [x; y; z; t] -> byte x -> byte y -> byte z ->
  let x' := ToUint8Clamp (tinted r (ofZ x)) in
  let y' := ToUint8Clamp (tinted g (ofZ y)) in
  let z' := ToUint8Clamp (tinted b (ofZ z)) in
  let hdr :=
    hdrToSdr pow_approx (ofZ x') (ofZ y') (ofZ z') int
      exposureDefault contrastDefault saturationDefault
      highlightCompressionDefault shadowLiftingDefault in
  pixel (tint pow_approx data r g b int) k
  = (if PrimFloat.eqb int 1 then [x'; y'; z'; t]
     else [ToUint8Clamp hdr.1.1; ToUint8Clamp hdr.1.2; ToUint8Clamp hdr.2; t]).
Proof.
  intros Hp Bx By Bz x' y' z' hdr.
  rewrite (tint_pixel pow_approx data r g b int k x y z t) by done.
  unfold tintedPixel. cbv zeta. fold x' y' z'. fold hdr.
  by destruct (PrimFloat.eqb int 1).
Qed.

Lemma tint_every_pixel_witness :
  pixel (tint noPow [1; 2; 3; 4; 10; 20; 30; 40]%Z
           128%float (-255)%float 255%float 1%float) 1
  = [5; 235; 30; 40]%Z.
Proof.
  apply (tint_every_pixel noPow [1; 2; 3; 4; 10; 20; 30; 40]%Z
           128%float (-255)%float 255%float 1%float 1 10 20 30 40);
    [reflexivity|unfold byte; lia..].
Defined.

(** X5: tint with the multipliers (255, 255, 255) and the default intensity
    1 changes no byte of a byte array, whatever its length. *)
Theorem tint_white_is_identity (pow_approx : Number -> Number -> Number)
    (data : list Z) :
  Forall byte data ->
  tint pow_approx data 255%float 255%float 255%float 1%float = data.
Proof.
  intros Hd. unfold tint. apply foldl_fixed. intros i.
  by apply tintFrame_white.
Qed.

Lemma tint_white_is_identity_witness :
  tint noPow [1; 2; 3; 4; 10; 20; 30; 40; 77]%Z 255%float 255%float 255%float 1%float
  = [1; 2; 3; 4; 10; 20; 30; 40; 77]%Z.
Proof.
  apply tint_white_is_identity. unfold byte. repeat constructor; lia.
Defined.

(** X6: tint with the intensity 1: the multiplier 0, like a NaN multiplier,
    makes a colour byte 0, and the multiplier -255 makes it its inverse [255
    - byte]; the alpha byte is kept. *)
Theorem tint_black_and_inverse (pow_approx : Number -> Number -> Number)
    (data : list Z) (k : nat) (x y z t : Z) :
  pixel data k = [x; y; z; t] -> byte x -> byte y -> byte z ->
  pixel (tint pow_approx data 0%float 0%float 0%float 1%float) k
  = [0; 0; 0; t]%Z /\
  pixel (tint pow_approx data nan nan nan 1%float) k = [0; 0; 0; t]%Z /\
  pixel (tint pow_approx data (-255)%float (-255)%float (-255)%float 1%float) k
  = [255 - x; 255 - y; 255 - z; t]%Z.
Proof.
  intros Hp Bx By Bz.
  rewrite !(tint_pixel pow_approx data _ _ _ _ k x y z t) by done.
  unfold tintedPixel. cbv zeta.
  change (PrimFloat.eqb 1 1) with true. cbv iota.
  rewrite !tinted_black, !tinted_nan, !tinted_inverse by done. done.
Qed.

Lemma tint_black_and_inverse_witness :
  pixel (tint noPow [1; 2; 3; 4; 10; 20; 30; 40]%Z 0%float 0%float 0%float 1%float) 1
  = [0; 0; 0; 40]%Z /\
  pixel (tint noPow [1; 2; 3; 4; 10; 20; 30; 40]%Z nan nan nan 1%float) 1
  = [0; 0; 0; 40]%Z /\
  pixel (tint noPow [1; 2; 3; 4; 10; 20; 30; 40]%Z
           (-255)%float (-255)%float (-255)%float 1%float) 1
  = [255 - 10; 255 - 20; 255 - 30; 40]%Z.
Proof.
  apply (tint_black_and_inverse noPow [1; 2; 3; 4; 10; 20; 30; 40]%Z 1 10 20 30 40);
    [reflexivity|unfold byte; lia..].
Defined.

(** X7: tint never changes an alpha byte nor the length of the array,
    whatever the multipliers and the intensity, NaN included. *)
Theorem tint_keeps_alpha_and_length (pow_approx : Number -> Number -> Number)
    (data : list Z) (r g b int : Number) :
  length (tint pow_approx data r g b int) = length data /\
  forall j, (j mod 4 = 3)%nat ->
    tint pow_approx data r g b int !! j = data !! j.
Proof.
  split.
  - rewrite tint_after. apply after_length, tintFrame_local.
  - intros j Hj. by apply tint_alpha.
Qed.

Lemma tint_keeps_alpha_and_length_witness :
  tint noPow [1; 2; 3; 4; 10; 20; 30; 40]%Z nan 7%float (-3)%float 2%float !! 7%nat
  = Some 40%Z.
Proof.
  apply (proj2 (tint_keeps_alpha_and_length noPow [1; 2; 3; 4; 10; 20; 30; 40]%Z
                  nan 7%float (-3)%float 2%float) 7%nat).
  reflexivity.
Defined.

(** ** swizzle on the whole array *)

Section SwizzleBuffer.

Implicit Types (data d : list Z) (options entries : list (string * string)).

Local Abbreviation valid options :=
  (Forall (fun entry : string * string => is_Some (channelIndexes entry.2)) options).

Lemma swizzleFrame_returns data options (i : nat) :
  valid options ->
  swizzleFrame data options i = Returned (outcomeData (swizzleFrame data options i)).
Proof.
  intros Hv. unfold swizzleFrame.
  destruct (swizzleEntries_returns
              (swizzleMap (data !! i) (data !! (i + 1)%nat)
                 (data !! (i + 2)%nat) (data !! (i + 3)%nat))
              options i data Hv) as (d' & -> & _). done.
Qed.

Lemma swizzleFrames_returns options (starts : list nat) data :
  valid options ->
  swizzleFrames options starts data
  = Returned (foldl (fun d i => outcomeData (swizzleFrame d options i)) data starts).
Proof.
  intros Hv. revert data. induction starts as [|i starts IH]; intros data; [done|].
  simpl. rewrite (swizzleFrame_returns data options i Hv). apply IH.
Qed.

Lemma swizzleFrame_local options :
  valid options -> frameLocal (fun d i => outcomeData (swizzleFrame d options i)).
Proof.
  intros Hv. split; intros d i; [|intros j Hj]; unfold swizzleFrame;
    destruct (swizzleEntries_returns
                (swizzleMap (d !! i) (d !! (i + 1)%nat)
                   (d !! (i + 2)%nat) (d !! (i + 3)%nat))
                options i d Hv) as (d' & -> & Hlen & Hout & _); simpl; auto.
Qed.

Lemma swizzle_lookup data options :
  valid options ->
  exists data',
    swizzle data options = Returned data' /\
    length data' = length data /\
    forall (k : nat) dest (c : nat),
      (4 * k + 3 < length data)%nat -> channelIndexes dest = Some c ->
      data' !! (4 * k + c)%nat
      = match lastSource options dest with
        | Some source =>
            Some (stored (swizzleMap (data !! (4 * k)%nat) (data !! (4 * k + 1)%nat)
                            (data !! (4 * k + 2)%nat) (data !! (4 * k + 3)%nat) source))
        | None => data !! (4 * k + c)%nat
        end.
Proof.
  intros Hv. pose proof (swizzleFrame_local options Hv) as Hloc.
  set (body := fun d i => outcomeData (swizzleFrame d options i)) in *.
  exists (after body data ((length data + 3) / 4)).
  split; [|split].
  - unfold swizzle. by rewrite swizzleFrames_returns.
  - by apply after_length.
  - intros k dest c Hk Hc. pose proof (channelIndexes_lt _ _ Hc) as Hc4.
    rewrite (after_frame _ _ _ k) by (done || (by apply frames_count) || lia).
    pose proof (after_length body data k Hloc) as Hlen.
    assert (Hsame : forall c', (c' < 4)%nat ->
      after body data k !! (4 * k + c')%nat = data !! (4 * k + c')%nat).
    { intros c' Hc'. apply after_untouched; [done|lia]. }
    set (d := after body data k) in *.
    unfold body at 1. unfold swizzleFrame.
    destruct (swizzleEntries_returns
                (swizzleMap (d !! (4 * k)%nat) (d !! (4 * k + 1)%nat)
                   (d !! (4 * k + 2)%nat) (d !! (4 * k + 3)%nat))
                options (4 * k) d Hv) as (d' & -> & _ & _ & Hin).
    cbn [outcomeData]. rewrite (Hin dest c) by (done || lia).
    pose proof (Hsame 0%nat ltac:(lia)) as Hs0. rewrite Nat.add_0_r in Hs0.
    by rewrite Hs0, !Hsame by lia.
Qed.

Lemma swizzleEntries_app lookup entries1 entries2 (i : nat) d :
  swizzleEntries lookup (entries1 ++ entries2) i d
  = match swizzleEntries lookup entries1 i d with
    | Returned d' => swizzleEntries lookup entries2 i d'
    | Threw message d' => Threw message d'
    end.
Proof.
  revert d. induction entries1 as [|[source dest] entries1 IH]; intros d; [done|].
  simpl. repeat (destruct (String.eqb dest _); [apply IH|]). done.
Qed.

End SwizzleBuffer.

(** X8: swizzle with a map whose values are all channels returns, keeps the
    length of the array, and at every pixel gives each destination channel
    the byte that the source of the last entry naming it had in that same
    pixel before the call; a channel no entry names is kept. *)
Theorem swizzle_every_pixel (data : list Z) (options : list (string * string)) :
  Forall (fun entry => is_Some (channelIndexes entry.2)) options ->
  exists data',
    swizzle data options = Returned data' /\
    length data' = length data /\
    forall (k : nat) dest (c : nat),
      (4 * k + 3 < length data)%nat -> channelIndexes dest = Some c ->
      data' !! (4 * k + c)%nat
      = match lastSource options dest with
        | Some source =>
            Some (stored (swizzleMap (data !! (4 * k)%nat) (data !! (4 * k + 1)%nat)
                            (data !! (4 * k + 2)%nat) (data !! (4 * k + 3)%nat) source))
        | None => data !! (4 * k + c)%nat
        end.
Proof. apply swizzle_lookup. Qed.

Lemma swizzle_every_pixel_witness :
  exists data',
    swizzle [10; 20; 30; 40; 1; 2; 3; 4]%Z [("R", "B"); ("A", "G")] = Returned data' /\
    data' !! (4 * 1 + 2)%nat = Some 1%Z /\ data' !! (4 * 1 + 1)%nat = Some 4%Z /\
    data' !! (4 * 1 + 0)%nat = Some 1%Z.
Proof.
  destruct (swizzle_every_pixel [10; 20; 30; 40; 1; 2; 3; 4]%Z [("R", "B"); ("A", "G")])
    as (data' & Hret & _ & Hpx).
  - repeat constructor; by eexists.
  - exists data'. split; [exact Hret|]. split; [|split].
    + exact (Hpx 1%nat "B" 2%nat ltac:(simpl; lia) eq_refl).
    + exact (Hpx 1%nat "G" 1%nat ltac:(simpl; lia) eq_refl).
    + exact (Hpx 1%nat "R" 0%nat ltac:(simpl; lia) eq_refl).
Defined.

(** X9: Swapping R and B twice, the example of the documentation applied two
    times, gives back the array, when its length is a multiple of 4. *)
Theorem swizzle_swap_twice (data : list Z) (n : nat) :
  length data = (4 * n)%nat ->
  exists data',
    swizzle data [("R", "B"); ("B", "R")] = Returned data' /\
    swizzle data' [("R", "B"); ("B", "R")] = Returned data.
Proof.
  intros Hlen.
  assert (Hv : Forall (fun entry : string * string => is_Some (channelIndexes entry.2))
                 [("R", "B"); ("B", "R")]) by (repeat constructor; by eexists).
  destruct (swizzle_lookup data _ Hv) as (d1 & Hr1 & Hl1 & Hp1).
  destruct (swizzle_lookup d1 _ Hv) as (d2 & Hr2 & Hl2 & Hp2).
  exists d1. split; [done|]. rewrite Hr2. f_equal.
  apply list_eq. intros j.
  destruct (decide (j < length data)%nat) as [Hj|Hj].
  - pose proof (Nat.div_mod_eq j 4) as Hdm.
    pose proof (Nat.mod_upper_bound j 4 ltac:(lia)) as Hm.
    assert (Hk : (4 * (j / 4) + 3 < length data)%nat) by lia.
    assert (Hk1 : (4 * (j / 4) + 3 < length d1)%nat) by lia.
    destruct (lookup_lt_is_Some_2 data (4 * (j / 4)) ltac:(lia)) as [x Hx].
    destruct (lookup_lt_is_Some_2 data (4 * (j / 4) + 2) ltac:(lia)) as [z Hz].
    pose proof (Hp1 (j / 4)%nat "R" 0%nat Hk eq_refl) as H1R.
    pose proof (Hp1 (j / 4)%nat "G" 1%nat Hk eq_refl) as H1G.
    pose proof (Hp1 (j / 4)%nat "B" 2%nat Hk eq_refl) as H1B.
    pose proof (Hp1 (j / 4)%nat "A" 3%nat Hk eq_refl) as H1A.
    pose proof (Hp2 (j / 4)%nat "R" 0%nat Hk1 eq_refl) as H2R.
    pose proof (Hp2 (j / 4)%nat "G" 1%nat Hk1 eq_refl) as H2G.
    pose proof (Hp2 (j / 4)%nat "B" 2%nat Hk1 eq_refl) as H2B.
    pose proof (Hp2 (j / 4)%nat "A" 3%nat Hk1 eq_refl) as H2A.
    cbn [lastSource String.eqb Ascii.eqb Bool.eqb swizzleMap] in *.
    rewrite Nat.add_0_r in *.
    rewrite Hx, Hz in *. cbn [stored default] in *.
    rewrite H1R, H1B in *. cbn [stored default] in *.
    rewrite Hdm. destruct (j mod 4) as [|[|[|[|m]]]]; [| | | |lia].
    + by rewrite Nat.add_0_r, H2R.
    + by rewrite H2G, H1G.
    + by rewrite H2B.
    + by rewrite H2A, H1A.
  - rewrite !lookup_ge_None_2 by lia. done.
Qed.

Lemma swizzle_swap_twice_witness :
  exists data',
    swizzle [10; 20; 30; 40; 1; 2; 3; 4]%Z [("R", "B"); ("B", "R")] = Returned data' /\
    swizzle data' [("R", "B"); ("B", "R")] = Returned [10; 20; 30; 40; 1; 2; 3; 4]%Z.
Proof. apply (swizzle_swap_twice [10; 20; 30; 40; 1; 2; 3; 4]%Z 2). reflexivity. Defined.

(** X10: An entry whose value is not a channel makes swizzleFrame throw
    after the writes of the entries before it, which stay in the array; the
    entries after it are not looked at. swizzle then throws in its first
    frame and leaves the later frames as they were; on an empty array
    nothing is checked and it returns. *)
Theorem swizzle_throws_after_earlier_writes (data : list Z)
    (earlier later : list (string * string)) (source bad : string) :
  Forall (fun entry => is_Some (channelIndexes entry.2)) earlier ->
  channelIndexes bad = None ->
  let options := earlier ++ (source, bad) :: later in
  let message := "Oh, so we're doing other data channels now" in
  (forall i, exists data',
     swizzleFrame data earlier i = Returned data' /\
     swizzleFrame data options i = Threw message data') /\
  (exists data',
     swizzleFrame data earlier 0 = Returned data' /\
     (forall j, (4 <= j)%nat -> data' !! j = data !! j) /\
     (data <> [] -> swizzle data options = Threw message data')) /\
  swizzle [] options = Returned [].
Proof.
  intros Hv Hbad options message.
  assert (Hframe : forall i, exists data',
     swizzleFrame data earlier i = Returned data' /\
     swizzleFrame data options i = Threw message data').
  { intros i. exists (outcomeData (swizzleFrame data earlier i)).
    split; [by apply swizzleFrame_returns|].
    pose proof (swizzleFrame_returns data earlier i Hv) as Hret.
    unfold swizzleFrame, options in *. rewrite swizzleEntries_app, Hret.
    by apply swizzleEntries_invalid. }
  split; [done|]. split; [|done].
  destruct (Hframe 0%nat) as (data' & Hret & Hthrow).
  exists data'. split; [done|]. split.
  { intros j Hj. pose proof (swizzleFrame_local earlier Hv) as [_ Hloc].
    specialize (Hloc data 0%nat j ltac:(lia)). cbv beta in Hloc.
    by rewrite Hret in Hloc. }
  intros Hne.
  unfold swizzle, frames. destruct data as [|x data]; [done|]. simpl length.
  replace ((S (length data) + 3) / 4)%nat with (S (length data / 4)).
  - cbn [seq fmap list_fmap swizzleFrames]. change (4 * 0)%nat with 0%nat.
    by rewrite Hthrow.
  - replace (S (length data) + 3)%nat with (length data + 1 * 4)%nat by lia.
    rewrite Nat.div_add by lia. lia.
Qed.

Lemma swizzle_throws_after_earlier_writes_witness :
  swizzleFrame [10; 20; 30; 40; 1; 2; 3; 4]%Z [("R", "G"); ("B", "X"); ("A", "R")] 4
  = Threw "Oh, so we're doing other data channels now" [10; 20; 30; 40; 1; 1; 3; 4]%Z.
Proof.
  destruct (swizzle_throws_after_earlier_writes [10; 20; 30; 40; 1; 2; 3; 4]%Z
              [("R", "G")] [("A", "R")] "B" "X") as (Hframe & _).
  - repeat constructor; by eexists.
  - reflexivity.
  - destruct (Hframe 4%nat) as (data' & Hret & Hthrow).
    injection Hret as <-. exact Hthrow.
Defined.

(** ** The utility functions *)

Section Utilities.

Local Open Scope float_scope.

Implicit Types (x y v min max : Number).

Lemma ltb_irrefl x : (x <? x) = false.
Proof.
  destruct (x <? x) eqn:H; [|done].
  pose proof (ltb_leb _ _ H). pose proof (ltb_asym _ _ H). congruence.
Qed.

Lemma leb_not_nan x y : (x <=? y) = true -> is_nan x = false /\ is_nan y = false.
Proof.
  rewrite FloatAxioms.leb_spec, !is_nan_spec. unfold SFleb.
  destruct (Prim2SF x) as [[]|[]| |[] m1 e1], (Prim2SF y) as [[]|[]| |[] m2 e2];
    simpl; try done; intros; try done.
Qed.

Lemma leb_refl x : is_nan x = false -> (x <=? x) = true.
Proof. intros H. apply ltb_false_leb; [done..|apply ltb_irrefl]. Qed.

Lemma leb_ltb_false x y : (x <=? y) = true -> (y <? x) = false.
Proof.
  intros H. destruct (y <? x) eqn:Hlt; [|done].
  pose proof (ltb_asym _ _ Hlt). congruence.
Qed.

Lemma ltb_nan_l x : (nan <? x) = false.
Proof.
  destruct (nan <? x) eqn:H; [|done]. by destruct (ltb_not_nan _ _ H).
Qed.

Lemma ltb_nan_r x : (x <? nan) = false.
Proof.
  destruct (x <? nan) eqn:H; [|done]. by destruct (ltb_not_nan _ _ H).
Qed.

Lemma clamp_in_range min max v :
  (min <=? max) = true -> is_nan v = false ->
  (min <=? clamp min max v) = true /\ (clamp min max v <=? max) = true.
Proof.
  intros Hmm Hv. destruct (leb_not_nan _ _ Hmm) as [Hmin Hmax].
  unfold clamp. destruct (v <? min) eqn:H1.
  - split; [by apply leb_refl|done].
  - destruct (max <? v) eqn:H2.
    + split; [done|by apply leb_refl].
    + split; by apply ltb_false_leb.
Qed.

Lemma clamp_idempotent min max v :
  (min <=? max) = true -> clamp min max (clamp min max v) = clamp min max v.
Proof.
  intros Hmm. unfold clamp at 2 3. destruct (v <? min) eqn:H1.
  - unfold clamp. by rewrite ltb_irrefl, (leb_ltb_false _ _ Hmm).
  - destruct (max <? v) eqn:H2.
    + unfold clamp. by rewrite (leb_ltb_false _ _ Hmm), ltb_irrefl.
    + unfold clamp. by rewrite H1, H2.
Qed.

Lemma clamp_nan min max : clamp min max nan = nan.
Proof. unfold clamp. by rewrite ltb_nan_l, ltb_nan_r. Qed.

End Utilities.

(** X11: clamp with [min <= max]: a value that is not NaN is brought into
    [[min, max]]; clamping a second time changes nothing; NaN is returned as
    it is, since both comparisons are false. *)
Theorem clamp_bounds (min max v : Number) :
  PrimFloat.leb min max = true ->
  (is_nan v = false ->
   PrimFloat.leb min (clamp min max v) = true /\
   PrimFloat.leb (clamp min max v) max = true) /\
  clamp min max (clamp min max v) = clamp min max v /\
  clamp min max nan = nan.
Proof.
  intros Hmm. split; [|split].
  - intros Hv. by apply clamp_in_range.
  - by apply clamp_idempotent.
  - apply clamp_nan.
Qed.

Lemma clamp_bounds_witness :
  (PrimFloat.leb 0 (clamp 0 255 1000) = true /\
   PrimFloat.leb (clamp 0 255 1000) 255 = true)%float.
Proof.
  apply (proj1 (clamp_bounds 0%float 255%float 1000%float eq_refl)). reflexivity.
Defined.

Section Endpoints.

Local Open Scope float_scope.

Lemma sameNumber_eq (x y : Number) : sameNumber x y = true -> x = y.
Proof.
  unfold sameNumber. intros H. apply Prim2SF_inj.
  destruct (Prim2SF x) as [s1|s1| |s1 m1 e1], (Prim2SF y) as [s2|s2| |s2 m2 e2];
    try done.
  - by apply Bool.eqb_prop in H as ->.
  - by apply Bool.eqb_prop in H as ->.
  - apply andb_prop in H as [H He]. apply andb_prop in H as [Hs Hm].
    apply Bool.eqb_prop in Hs as ->. apply Pos.eqb_eq in Hm as ->.
    by apply Z.eqb_eq in He as ->.
Qed.

Lemma bytes_all2 (P : Z -> Z -> bool) :
  forallb (fun a => forallb (P a) (seqZ 0 256)) (seqZ 0 256) = true ->
  forall a b, byte a -> byte b -> P a b = true.
Proof.
  intros Hall a b Ha Hb. rewrite forallb_forall in Hall.
  specialize (Hall a). rewrite forallb_forall in Hall.
  apply Hall; apply list_elem_of_In, elem_of_seqZ; unfold byte in *; lia.
Qed.

Lemma lerp_zero_bytes (a b : Z) :
  byte a -> byte b -> lerp (ofZ a) (ofZ b) 0 = ofZ a.
Proof.
  intros Ha Hb. apply sameNumber_eq.
  revert a b Ha Hb.
  apply (bytes_all2 (fun a b => sameNumber (lerp (ofZ a) (ofZ b) 0) (ofZ a))).
  vm_compute. reflexivity.
Qed.

Lemma lerp_one_bytes (a b : Z) :
  byte a -> byte b -> lerp (ofZ a) (ofZ b) 1 = ofZ b.
Proof.
  intros Ha Hb. apply sameNumber_eq.
  revert a b Ha Hb.
  apply (bytes_all2 (fun a b => sameNumber (lerp (ofZ a) (ofZ b) 1) (ofZ b))).
  vm_compute. reflexivity.
Qed.

Lemma lerp_nan (a b : Number) : lerp a b nan = nan.
Proof. unfold lerp. by rewrite mul_nan_r, add_nan_r. Qed.

Lemma tint2Mult_bytes_range (a : Z) :
  byte a ->
  (0 <=? tint2Mult (ofZ a)) = true /\ (tint2Mult (ofZ a) <=? 1) = true.
Proof.
  intros Ha. apply andb_prop. revert a Ha.
  assert (H : forall a, byte a ->
    (fun a : Z => if (0 <=? tint2Mult (ofZ a)) && (tint2Mult (ofZ a) <=? 1) then 1%Z else 0%Z) a
    = (fun _ => 1%Z) a).
  { apply bytes_all. vm_compute. reflexivity. }
  intros a Ha. specialize (H a Ha). cbv beta in H.
  by destruct (_ && _).
Qed.

Lemma tint2Mult_bytes_monotone (a b : Z) :
  byte a -> byte b -> (a <= b)%Z ->
  (tint2Mult (ofZ a) <=? tint2Mult (ofZ b)) = true.
Proof.
  intros Ha Hb Hab.
  pose proof (bytes_all2
    (fun a b => if (a <=? b)%Z then tint2Mult (ofZ a) <=? tint2Mult (ofZ b) else true))
    as Hall.
  specialize (Hall ltac:(vm_compute; reflexivity) a b Ha Hb). cbv beta in Hall.
  by rewrite (proj2 (Z.leb_le a b) Hab) in Hall.
Qed.

Lemma tint2Mult_not_positive (t : Number) : (0 <? t) = false -> tint2Mult t = 0.
Proof. unfold tint2Mult. by intros ->. Qed.

End Endpoints.

(** X12: lerp on bytes reaches its ends exactly: [lerp(a, b, 0)] is [a] and
    [lerp(a, b, 1)] is [b], with no rounding error; a NaN parameter gives
    NaN. *)
Theorem lerp_endpoints (a b : Z) :
  byte a -> byte b ->
  lerp (ofZ a) (ofZ b) 0%float = ofZ a /\
  lerp (ofZ a) (ofZ b) 1%float = ofZ b /\
  lerp (ofZ a) (ofZ b) nan = nan.
Proof.
  intros Ha Hb. split; [|split].
  - by apply lerp_zero_bytes.
  - by apply lerp_one_bytes.
  - apply lerp_nan.
Qed.

Lemma lerp_endpoints_witness :
  (lerp 200 17 0 = 200 /\ lerp 200 17 1 = 17 /\ lerp 200 17 nan = nan)%float.
Proof. apply (lerp_endpoints 200 17); unfold byte; lia. Defined.

(** X13: tint2Mult maps a byte into [[0, 1]], 255 to exactly 1, and is
    monotone on bytes; every argument that is not above 0 (a negative
    number, a zero, NaN) gives 0. *)
Theorem tint2Mult_unit_range :
  (forall a, byte a ->
     PrimFloat.leb 0 (tint2Mult (ofZ a)) = true /\
     PrimFloat.leb (tint2Mult (ofZ a)) 1 = true) /\
  (forall a b, byte a -> byte b -> (a <= b)%Z ->
     PrimFloat.leb (tint2Mult (ofZ a)) (tint2Mult (ofZ b)) = true) /\
  tint2Mult 255%float = 1%float /\
  (forall t, PrimFloat.ltb 0 t = false -> tint2Mult t = 0%float).
Proof.
  split; [|split; [|split]].
  - apply tint2Mult_bytes_range.
  - apply tint2Mult_bytes_monotone.
  - reflexivity.
  - apply tint2Mult_not_positive.
Qed.

Lemma tint2Mult_unit_range_witness :
  PrimFloat.leb (tint2Mult 128%float) (tint2Mult 200%float) = true /\
  tint2Mult (-3)%float = 0%float /\ tint2Mult nan = 0%float.
Proof.
  destruct tint2Mult_unit_range as (_ & Hmono & _ & Hzero).
  split; [|split].
  - apply (Hmono 128%Z 200%Z); unfold byte; lia.
  - apply Hzero. reflexivity.
  - apply Hzero. reflexivity.
Defined.

(** ** Rasters *)

Section Rasters.

Implicit Types (l : list Z) (w h n k x y : nat) (f g : nat -> nat -> list Z).

Lemma bind_chunks_length (c : nat -> list Z) n :
  (forall i, (i < n)%nat -> length (c i) = 4%nat) ->
  length (seq 0 n ≫= c) = (4 * n)%nat.
Proof.
  induction n as [|n IH]; intros Hc; [done|].
  rewrite seq_S, bind_app, length_app, IH by (intros; apply Hc; lia).
  simpl. rewrite app_nil_r, Hc by lia. lia.
Qed.

Lemma bind_chunks (c : nat -> list Z) n k :
  (forall i, (i < n)%nat -> length (c i) = 4%nat) -> (k < n)%nat ->
  pixel (seq 0 n ≫= c) k = c k.
Proof.
  induction n as [|n IH]; intros Hc Hk; [lia|].
  pose proof (bind_chunks_length c n ltac:(intros; apply Hc; lia)) as Hlen.
  rewrite seq_S, bind_app. simpl. rewrite app_nil_r. unfold pixel.
  destruct (decide (k = n)) as [->|Hne].
  - rewrite drop_app_length' by done. apply take_ge. rewrite Hc by lia. lia.
  - rewrite drop_app_le by lia. rewrite take_app_le by (rewrite length_drop; lia).
    apply IH; [intros; apply Hc; lia|lia].
Qed.

Lemma raster_chunks w h f :
  raster w h f = seq 0 (h * w) ≫= (fun k => f (k mod w) (k / w)).
Proof.
  unfold raster. rewrite <- (bind_rows (fun k => f (k mod w) (k / w)) w h).
  apply bind_ext_in. intros y Hy. apply bind_ext_in. intros x Hx.
  apply elem_of_seq in Hx.
  replace (y * w + x)%nat with (x + y * w)%nat by lia.
  rewrite Nat.Div0.mod_add, Nat.div_add, Nat.mod_small, Nat.div_small by lia.
  done.
Qed.

Lemma raster_length w h f :
  (forall x y, (x < w)%nat -> (y < h)%nat -> length (f x y) = 4%nat) ->
  length (raster w h f) = (4 * (w * h))%nat.
Proof.
  intros Hf. rewrite raster_chunks, bind_chunks_length; [lia|].
  intros i Hi. apply Hf.
  - apply Nat.mod_upper_bound. lia.
  - apply Nat.Div0.div_lt_upper_bound. lia.
Qed.

Lemma raster_pixel w h f x y :
  (forall x y, (x < w)%nat -> (y < h)%nat -> length (f x y) = 4%nat) ->
  (x < w)%nat -> (y < h)%nat ->
  pixel (raster w h f) (y * w + x) = f x y.
Proof.
  intros Hf Hx Hy. rewrite raster_chunks, bind_chunks.
  - replace (y * w + x)%nat with (x + y * w)%nat by lia.
    by rewrite Nat.Div0.mod_add, Nat.div_add, Nat.mod_small, Nat.div_small by lia.
  - intros i Hi. apply Hf.
    + apply Nat.mod_upper_bound. lia.
    + apply Nat.Div0.div_lt_upper_bound. lia.
  - nia.
Qed.

Lemma raster_ext w h f g :
  (forall x y, (x < w)%nat -> (y < h)%nat -> f x y = g x y) ->
  raster w h f = raster w h g.
Proof.
  intros Hfg. unfold raster.
  apply bind_ext_in. intros y Hy. apply bind_ext_in. intros x Hx.
  apply elem_of_seq in Hx, Hy. apply Hfg; lia.
Qed.

Lemma pixel_length_4 l k : (4 * k + 4 <= length l)%nat -> length (pixel l k) = 4%nat.
Proof. intros H. unfold pixel. rewrite length_take, length_drop. lia. Qed.

Lemma pixelAt_length (ctx : Context) (a b : Z) : wf ctx -> length (pixelAt ctx a b) = 4%nat.
Proof.
  intros Hwf. unfold pixelAt. destruct (_ && _ && _ && _) eqn:Hin; [|done].
  repeat (apply andb_prop in Hin as [Hin ?]).
  apply pixel_length_4. unfold wf in Hwf. rewrite Hwf. nia.
Qed.

Lemma pixelAt_inside (ctx : Context) x y :
  (x < width ctx)%nat -> (y < height ctx)%nat ->
  pixelAt ctx (Z.of_nat x) (Z.of_nat y) = pixel (pixels ctx) (y * width ctx + x).
Proof.
  intros Hx Hy. unfold pixelAt. rewrite !Nat2Z.id.
  replace (_ && _ && _ && _) with true; [done|].
  symmetry. repeat (apply andb_true_intro; split); lia.
Qed.

(** A rectangle read by [getImageData]. *)
Lemma getImageData_pixel (ctx : Context) (sx sy : Z) (sw sh : nat) x y :
  wf ctx -> (x < sw)%nat -> (y < sh)%nat ->
  pixel (idata (getImageData ctx sx sy sw sh)) (y * sw + x)
  = pixelAt ctx (sx + Z.of_nat x) (sy + Z.of_nat y).
Proof.
  intros Hwf Hx Hy. unfold getImageData. cbn [idata].
  rewrite raster_pixel; [done| |done..].
  intros. by apply pixelAt_length.
Qed.

Lemma getImageData_length (ctx : Context) (sx sy : Z) (sw sh : nat) :
  wf ctx -> length (idata (getImageData ctx sx sy sw sh)) = (4 * (sw * sh))%nat.
Proof.
  intros Hwf. unfold getImageData. cbn [idata]. apply raster_length.
  intros. by apply pixelAt_length.
Qed.

Lemma putImageData_chunk (ctx : Context) (img : ImageData) (dx dy : Z) x y :
  wf ctx -> wfImage img -> (x < width ctx)%nat -> (y < height ctx)%nat ->
  length
    (let ix := (Z.of_nat x - dx)%Z in
     let iy := (Z.of_nat y - dy)%Z in
     if ((0 <=? ix) && (ix <? Z.of_nat (iwidth img)) &&
         (0 <=? iy) && (iy <? Z.of_nat (iheight img)))%Z
     then pixel (idata img) (Z.to_nat iy * iwidth img + Z.to_nat ix)
     else pixel (pixels ctx) (y * width ctx + x)) = 4%nat.
Proof.
  intros Hwf Himg Hx Hy. cbv zeta.
  destruct (_ && _ && _ && _) eqn:Hin.
  - repeat (apply andb_prop in Hin as [Hin ?]).
    apply pixel_length_4. rewrite Himg. nia.
  - apply pixel_length_4. unfold wf in Hwf. rewrite Hwf. nia.
Qed.

Lemma putImageData_wf (ctx : Context) (img : ImageData) (dx dy : Z) :
  wf ctx -> wfImage img -> wf (putImageData ctx img dx dy).
Proof.
  intros Hwf Himg. unfold wf, putImageData. cbn [pixels width height].
  apply raster_length. intros x y Hx Hy. by apply putImageData_chunk.
Qed.

(** A pixel of the canvas after [putImageData]. *)
Lemma putImageData_pixel (ctx : Context) (img : ImageData) (dx dy : Z) x y :
  wf ctx -> wfImage img -> (x < width ctx)%nat -> (y < height ctx)%nat ->
  pixel (pixels (putImageData ctx img dx dy)) (y * width ctx + x)
  = let ix := (Z.of_nat x - dx)%Z in
    let iy := (Z.of_nat y - dy)%Z in
    if ((0 <=? ix) && (ix <? Z.of_nat (iwidth img)) &&
        (0 <=? iy) && (iy <? Z.of_nat (iheight img)))%Z
    then pixel (idata img) (Z.to_nat iy * iwidth img + Z.to_nat ix)
    else pixel (pixels ctx) (y * width ctx + x).
Proof.
  intros Hwf Himg Hx Hy. unfold putImageData. cbn [pixels].
  rewrite raster_pixel; [done| |done..].
  intros x' y' Hx' Hy'. by apply putImageData_chunk.
Qed.

Lemma getImageData_wfImage (ctx : Context) (sx sy : Z) (sw sh : nat) :
  wf ctx -> wfImage (getImageData ctx sx sy sw sh).
Proof. intros Hwf. unfold wfImage. by rewrite getImageData_length. Qed.

(** Two well-formed canvases of the same size with the same pixels are the
    same canvas. *)
Lemma context_ext (a b : Context) :
  wf a -> wf b -> width a = width b -> height a = height b ->
  (forall x y, (x < width a)%nat -> (y < height a)%nat ->
     pixel (pixels a) (y * width a + x) = pixel (pixels b) (y * width a + x)) ->
  a = b.
Proof.
  intros Ha Hb Hw Hh Hpx. destruct a as [w h la], b as [w' h' lb].
  simpl in *. subst w' h'. f_equal.
  transitivity (raster w h (fun x y => pixel la (y * w + x))).
  - symmetry. by apply raster_pixels.
  - apply raster_pixels; [done|]. intros x y Hx Hy. by apply Hpx.
Qed.

End Rasters.

(** ** duplicate and resize *)

(** X14: duplicate returns a canvas with the width, the height and the bytes
    of its argument. *)
Theorem duplicate_same_canvas (ctx : Context) : wf ctx -> duplicate ctx = ctx.
Proof.
  intros Hwf. unfold duplicate. rewrite getImageData_full by done.
  rewrite putImageData_full by (simpl; done). by destruct ctx.
Qed.

Lemma duplicate_same_canvas_witness :
  duplicate (mkContext 2 1 [1; 2; 3; 4; 5; 6; 7; 8]%Z)
  = mkContext 2 1 [1; 2; 3; 4; 5; 6; 7; 8]%Z.
Proof. apply duplicate_same_canvas. reflexivity. Defined.

Section Resize.

Variable drawImageScaled : nat -> nat -> list Z -> nat -> nat -> nat -> Z.

Lemma createCanvas_wf (w h : nat) : wf (createCanvas w h).
Proof. unfold wf, createCanvas. simpl. by rewrite length_replicate. Qed.

Lemma resize_given (ctx : Context) (newX newY : nat) :
  wf ctx -> newY <> 0%nat ->
  resize drawImageScaled ctx newX newY
  = mkContext newX newY
      (drawImageScaled (width ctx) (height ctx) (pixels ctx) newX newY
         <$> seq 0 (4 * (newX * newY))).
Proof.
  intros Hwf Hy. unfold resize. destruct (Nat.eqb_spec newY 0) as [|_]; [done|].
  cbv zeta. rewrite getImageData_full by done.
  rewrite putImageData_full by (simpl; done). done.
Qed.

End Resize.

(** X15: resize with a height that is given and not 0 leaves a canvas of
    exactly the new width and height whose bytes are the scaled drawing of
    the old bitmap, of which nothing is lost before it is drawn. *)
Theorem resize_draws_old_bitmap
    (drawImageScaled : nat -> nat -> list Z -> nat -> nat -> nat -> Z)
    (ctx : Context) (newX newY : nat) :
  wf ctx -> newY <> 0%nat ->
  resize drawImageScaled ctx newX newY
  = mkContext newX newY
      (drawImageScaled (width ctx) (height ctx) (pixels ctx) newX newY
         <$> seq 0 (4 * (newX * newY))) /\
  wf (resize drawImageScaled ctx newX newY).
Proof.
  intros Hwf Hy. split; [by apply resize_given|apply resize_wf].
Qed.

Lemma resize_draws_old_bitmap_witness :
  resize nearestNeighbour (mkContext 1 1 [1; 2; 3; 4]%Z) 2 1
  = mkContext 2 1 [1; 2; 3; 4; 1; 2; 3; 4]%Z.
Proof.
  apply (proj1 (resize_draws_old_bitmap nearestNeighbour
                  (mkContext 1 1 [1; 2; 3; 4]%Z) 2 1 eq_refl ltac:(lia))).
Defined.

(** ** tile *)

Section Tile.

Variable drawImageScaled : nat -> nat -> list Z -> nat -> nat -> nat -> Z.

Variables (sX sY tX tY : nat) (cell : list Z).

Hypothesis HsX : (0 < sX)%nat.
Hypothesis HsY : (0 < sY)%nat.
Hypothesis Hcell : length cell = (4 * (sX * sY))%nat.

Local Abbreviation partW := (sX * tX)%nat.
Local Abbreviation partH := (sY * tY)%nat.
Local Abbreviation tiledTo := (tiled sX sY tX tY cell).

Lemma tiled_start : tiledTo 0 0 (createCanvas partW partH).
Proof.
  split; [apply createCanvas_wf|]. split; [done|]. split; [done|].
  intros x y Hx Hy. destruct (decide _) as [Hd|_]; [lia|].
  unfold createCanvas. cbn [pixels]. apply pixel_lookup.
  rewrite !lookup_replicate_2 by nia. done.
Qed.

Lemma tiled_put (j i : nat) (part : Context) :
  (i < tX)%nat -> (j < tY)%nat -> tiledTo j i part ->
  tiledTo j (S i)
    (putImageData part (mkImageData sX sY cell)
       (Z.of_nat (i * sX)) (Z.of_nat (j * sY))).
Proof.
  intros Hi Hj (Hwf & Hw & Hh & Hpx).
  assert (Himg : wfImage (mkImageData sX sY cell)) by exact Hcell.
  split; [by apply putImageData_wf|]. split; [done|]. split; [done|].
  intros x y Hx Hy. rewrite <- Hw.
  rewrite putImageData_pixel by (done || lia). cbv zeta. cbn [iwidth iheight idata].
  rewrite Hw, Hpx by done.
  pose proof (Nat.div_mod_eq x sX) as Ex. pose proof (Nat.div_mod_eq y sY) as Ey.
  pose proof (Nat.mod_upper_bound x sX ltac:(lia)) as Bx.
  pose proof (Nat.mod_upper_bound y sY ltac:(lia)) as By.
  set (qx := (x / sX)%nat) in *. set (rx := (x mod sX)%nat) in *.
  set (qy := (y / sY)%nat) in *. set (ry := (y mod sY)%nat) in *.
  destruct (_ && _ && _ && _)%Z eqn:Hin.
  - repeat (apply andb_prop in Hin as [Hin ?]).
    repeat match goal with
           | Hb : (_ <=? _)%Z = true |- _ => apply Z.leb_le in Hb
           | Hb : (_ <? _)%Z = true |- _ => apply Z.ltb_lt in Hb
           end.
    assert (qx = i) by nia. assert (qy = j) by nia.
    destruct (decide _) as [_|Hn]; [|lia].
    f_equal. nia.
  - assert (Hout : ~ (qx = i /\ qy = j)).
    { intros [-> ->]. revert Hin.
      replace (_ && _ && _ && _)%Z with true; [done|].
      symmetry. repeat (apply andb_true_intro; split);
        (apply Z.leb_le || apply Z.ltb_lt); nia. }
    destruct (decide (qy < j \/ (qy = j /\ qx < i))%nat),
      (decide (qy < j \/ (qy = j /\ qx < S i))%nat); (done || lia).
Qed.

Lemma tiled_row (j : nat) (part : Context) :
  (j < tY)%nat -> tiledTo j 0 part ->
  tiledTo (S j) 0
    (foldl (fun part x =>
              putImageData part (mkImageData sX sY cell)
                (Z.of_nat (x * sX)) (Z.of_nat (j * sY)))
           part (seq 0 tX)).
Proof.
  intros Hj Hstart.
  assert (Hrow : forall i, (i <= tX)%nat ->
    tiledTo j i
      (foldl (fun part x =>
                putImageData part (mkImageData sX sY cell)
                  (Z.of_nat (x * sX)) (Z.of_nat (j * sY)))
             part (seq 0 i))).
  { induction i as [|i IH]; intros Hi; [done|].
    rewrite seq_S, foldl_app. simpl. apply tiled_put; [lia|done|]. apply IH. lia. }
  destruct (Hrow tX ltac:(lia)) as (Hwf & Hw & Hh & Hpx).
  split; [done|]. split; [done|]. split; [done|].
  intros x y Hx Hy. rewrite Hpx by done.
  assert (x / sX < tX)%nat by (apply Nat.Div0.div_lt_upper_bound; lia).
  destruct (decide (y / sY < j \/ (y / sY = j /\ x / sX < tX))%nat),
    (decide (y / sY < S j \/ (y / sY = S j /\ x / sX < 0))%nat); (done || lia).
Qed.

Lemma tiled_all :
  tiledTo tY 0
    (foldl (fun part y =>
              foldl (fun part x =>
                       putImageData part (mkImageData sX sY cell)
                         (Z.of_nat (x * sX)) (Z.of_nat (y * sY)))
                    part (seq 0 tX))
           (createCanvas partW partH) (seq 0 tY)).
Proof.
  assert (Hrows : forall j, (j <= tY)%nat ->
    tiledTo j 0
      (foldl (fun part y =>
                foldl (fun part x =>
                         putImageData part (mkImageData sX sY cell)
                           (Z.of_nat (x * sX)) (Z.of_nat (y * sY)))
                      part (seq 0 tX))
             (createCanvas partW partH) (seq 0 j))).
  { induction j as [|j IH]; intros Hj; [apply tiled_start|].
    rewrite seq_S, foldl_app. simpl. apply tiled_row; [lia|]. apply IH. lia. }
  by apply Hrows.
Qed.

End Tile.

(** X16: tile, when both section sizes [Math.floor(size / tiles)] are
    positive: the canvas is resized to one section, the sections are put
    side by side on an intermediate canvas of [tileX] by [tileY] sections,
    whose pixel [(x, y)] is the pixel [(x mod sectionSizeX, y mod
    sectionSizeY)] of the resized canvas, and the result is the scaled
    drawing of that canvas on the cleared canvas of the target size. *)
Theorem tile_repeats_the_section
    (drawImageScaled : nat -> nat -> list Z -> nat -> nat -> nat -> Z)
    (ctx : Context) (tileX tileY : positive) (size sizeY : nat) :
  let sectionSizeX := sectionSize size tileX in
  let sectionSizeY := sectionSize sizeY tileY in
  let section := resize drawImageScaled ctx sectionSizeX sectionSizeY in
  let partWidth := (sectionSizeX * Pos.to_nat tileX)%nat in
  let partHeight := (sectionSizeY * Pos.to_nat tileY)%nat in
  (0 < sectionSizeX)%nat -> (0 < sectionSizeY)%nat ->
  exists part,
    wf part /\ width part = partWidth /\ height part = partHeight /\
    (forall x y, (x < partWidth)%nat -> (y < partHeight)%nat ->
       pixel (pixels part) (y * partWidth + x)
       = pixel (pixels section)
           ((y mod sectionSizeY) * sectionSizeX + x mod sectionSizeX)) /\
    tile drawImageScaled ctx tileX tileY size sizeY
    = mkContext size sizeY
        (drawImageScaled partWidth partHeight (pixels part) size sizeY
           <$> seq 0 (4 * (size * sizeY))).
Proof.
  intros sX sY section partWidth partHeight HsX HsY.
  pose proof (resize_wf drawImageScaled ctx sX sY) as Hwf. fold section in Hwf.
  destruct (resize_size drawImageScaled ctx sX sY ltac:(lia)) as [Hw Hh].
  fold section in Hw, Hh.
  assert (Hcell : length (pixels section) = (4 * (sX * sY))%nat).
  { unfold wf in Hwf. by rewrite Hwf, Hw, Hh. }
  pose proof (tiled_all sX sY (Pos.to_nat tileX) (Pos.to_nat tileY)
                (pixels section) HsX HsY Hcell) as Hall.
  set (part := foldl _ _ _) in Hall.
  destruct Hall as (Hpwf & Hpw & Hph & Hpx).
  unfold partWidth, partHeight.
  exists part. split; [done|]. split; [done|]. split; [done|]. split.
  - intros x y Hx Hy. rewrite (Hpx x y Hx Hy).
    assert (y / sY < Pos.to_nat tileY)%nat
      by (apply Nat.Div0.div_lt_upper_bound; lia).
    destruct (decide _); [done|lia].
  - unfold tile. fold sX sY section. cbv zeta.
    rewrite (getImageData_full section) by done. rewrite Hw, Hh.
    fold part. by rewrite Hpw, Hph.
Qed.

Lemma tile_repeats_the_section_witness :
  exists part,
    wf part /\ width part = 4%nat /\ height part = 1%nat /\
    (forall x y, (x < 4)%nat -> (y < 1)%nat ->
       pixel (pixels part) (y * 4 + x)
       = pixel [1; 2; 3; 4; 5; 6; 7; 8]%Z ((y mod 1) * 2 + x mod 2)) /\
    tile nearestNeighbour (mkContext 2 1 [1; 2; 3; 4; 5; 6; 7; 8]%Z) 2 1 4 1
    = mkContext 4 1
        (nearestNeighbour 4 1 (pixels part) 4 1 <$> seq 0 (4 * (4 * 1))).
Proof.
  apply (tile_repeats_the_section nearestNeighbour
           (mkContext 2 1 [1; 2; 3; 4; 5; 6; 7; 8]%Z) 2 1 4 1);
    vm_compute; lia.
Defined.

(** ** mask: more *)

Section MaskMore.

Variable drawImageScaled : nat -> nat -> list Z -> nat -> nat -> nat -> Z.

Implicit Types (base imageMask : Context).

Lemma mask_wf base imageMask channel :
  wf base -> wf imageMask -> wf (mask drawImageScaled base imageMask channel).
Proof.
  intros Hb Hm. rewrite mask_after by done. unfold wf. cbn [pixels width height].
  rewrite after_length by apply maskBody_local. exact Hb.
Qed.

Lemma mask_size base imageMask channel :
  wf base -> wf imageMask ->
  width (mask drawImageScaled base imageMask channel) = width base /\
  height (mask drawImageScaled base imageMask channel) = height base.
Proof. intros Hb Hm. by rewrite mask_after by done. Qed.

(** Every byte of the canvas after [mask]. *)
Lemma mask_lookup base imageMask channel (j : nat) :
  wf base -> wf imageMask -> (j < 4 * (width base * height base))%nat ->
  pixels (mask drawImageScaled base imageMask channel) !! j
  = if (j mod 4 =? 3)%nat
    then Some (stored (c ← channelIndexes channel;
                       pixels (maskDupeOf drawImageScaled base imageMask)
                         !! (j - 3 + c)%nat))
    else pixels base !! j.
Proof.
  intros Hb Hm Hj. rewrite mask_after by done. cbn [pixels].
  pose proof (maskBody_local (pixels (maskDupeOf drawImageScaled base imageMask))
                (channelIndexes channel)) as Hloc.
  pose proof (Nat.div_mod_eq j 4) as Hdm.
  pose proof (Nat.mod_upper_bound j 4 ltac:(lia)) as Hmod.
  rewrite (after_frame _ _ _ (j / 4)) by (done || lia).
  pose proof (after_length _ (pixels base) (j / 4) Hloc) as Hlen.
  unfold maskBody at 1.
  destruct (Nat.eqb_spec (j mod 4) 3) as [H3|H3].
  - replace (4 * (j / 4) + 3)%nat with j by lia.
    rewrite list_lookup_insert_eq by (rewrite Hlen; unfold wf in Hb; lia).
    by replace (4 * (j / 4))%nat with (j - 3)%nat by lia.
  - rewrite list_lookup_insert_ne by lia.
    apply after_untouched; [done|lia].
Qed.

Lemma maskDupeOf_same_size base imageMask :
  wf imageMask -> width base = width imageMask -> height base = height imageMask ->
  maskDupeOf drawImageScaled base imageMask = imageMask.
Proof.
  intros Hm Hw Hh. unfold maskDupeOf. rewrite Hw, Hh, !Nat.eqb_refl. simpl.
  by apply duplicate_wf.
Qed.

(** X17: mask with the canvas itself as the mask and the channel A changes
    nothing: every alpha byte is set to itself. *)
Theorem mask_own_alpha_is_identity base :
  wf base -> mask drawImageScaled base base "A" = base.
Proof.
  intros Hb.
  pose proof (mask_wf base base "A" Hb Hb) as Hwf.
  destruct (mask_size base base "A" Hb Hb) as [Hw Hh].
  destruct (mask drawImageScaled base base "A") as [w h l] eqn:Hmask.
  destruct base as [w' h' l']. cbn [width height] in Hw, Hh. subst w' h'.
  f_equal. unfold wf in *. cbn [pixels width height] in *.
  apply list_eq. intros j.
  destruct (decide (j < 4 * (w * h))%nat) as [Hj|Hj].
  - change l with (pixels (mkContext w h l)). rewrite <- Hmask.
    rewrite mask_lookup by done.
    rewrite maskDupeOf_same_size by done. cbn [pixels channelIndexes String.eqb].
    destruct (Nat.eqb_spec (j mod 4) 3) as [H3|H3]; [|done].
    simpl. replace (j - 3 + 3)%nat with j by (pose proof (Nat.div_mod_eq j 4); lia).
    destruct (lookup_lt_is_Some_2 l' j ltac:(lia)) as [v Hv]. by rewrite Hv.
  - rewrite !lookup_ge_None_2 by lia. done.
Qed.

(** X18: mask is idempotent: masking a second time with the same mask and
    the same channel changes nothing, also when the mask has to be resized
    and when the channel name is not a channel. *)
Theorem mask_is_idempotent base imageMask channel :
  wf base -> wf imageMask ->
  mask drawImageScaled (mask drawImageScaled base imageMask channel) imageMask channel
  = mask drawImageScaled base imageMask channel.
Proof.
  intros Hb Hm.
  pose proof (mask_wf base imageMask channel Hb Hm) as Hwf1.
  destruct (mask_size base imageMask channel Hb Hm) as [Hw1 Hh1].
  set (once := mask drawImageScaled base imageMask channel) in *.
  pose proof (mask_wf once imageMask channel Hwf1 Hm) as Hwf2.
  destruct (mask_size once imageMask channel Hwf1 Hm) as [Hw2 Hh2].
  assert (Hdupe : maskDupeOf drawImageScaled once imageMask
                  = maskDupeOf drawImageScaled base imageMask).
  { unfold maskDupeOf. by rewrite Hw1, Hh1. }
  assert (Hpx : pixels (mask drawImageScaled once imageMask channel) = pixels once).
  { apply list_eq. intros j.
    destruct (decide (j < 4 * (width base * height base))%nat) as [Hj|Hj].
    - pose proof (mask_lookup base imageMask channel j Hb Hm Hj) as Hfirst.
      fold once in Hfirst.
      rewrite (mask_lookup once) by (done || (rewrite Hw1, Hh1; done)).
      rewrite Hdupe, Hfirst. by destruct (j mod 4 =? 3)%nat.
    - unfold wf in Hwf1, Hwf2. rewrite !lookup_ge_None_2; [done|lia|].
      rewrite Hwf2, Hw2, Hh2, Hw1, Hh1. lia. }
  destruct (mask drawImageScaled once imageMask channel) as [w2 h2 l2].
  destruct once as [w1 h1 l1]. cbn [pixels width height] in *. by subst.
Qed.

End MaskMore.

Lemma mask_own_alpha_is_identity_witness :
  mask nearestNeighbour (mkContext 2 1 [1; 2; 3; 4; 5; 6; 7; 8]%Z)
    (mkContext 2 1 [1; 2; 3; 4; 5; 6; 7; 8]%Z) "A"
  = mkContext 2 1 [1; 2; 3; 4; 5; 6; 7; 8]%Z.
Proof. apply mask_own_alpha_is_identity. reflexivity. Defined.

Lemma mask_is_idempotent_witness :
  mask nearestNeighbour
    (mask nearestNeighbour (mkContext 2 1 [1; 2; 3; 4; 5; 6; 7; 8]%Z)
       (mkContext 1 1 [9; 10; 11; 12]%Z) "G")
    (mkContext 1 1 [9; 10; 11; 12]%Z) "G"
  = mask nearestNeighbour (mkContext 2 1 [1; 2; 3; 4; 5; 6; 7; 8]%Z)
      (mkContext 1 1 [9; 10; 11; 12]%Z) "G".
Proof. apply mask_is_idempotent; reflexivity. Defined.

(** ** unpack, then mask *)

Section UnpackMask.

Variable drawImageScaled : nat -> nat -> list Z -> nat -> nat -> nat -> Z.

Lemma unpack_alpha_pixels (ctx : Context) (t0 : Z) :
  wf ctx -> pixels ctx !! 3%nat = Some t0 ->
  pixel (pixels (unpack ctx).2) 0 = [t0; t0; t0; 255%Z] /\
  forall k, (1 <= k < width ctx * height ctx)%nat ->
    pixel (pixels (unpack ctx).2) k = [255; 255; 255; 255]%Z.
Proof.
  intros Hwf H3. rewrite unpack_after by done. simpl.
  pose proof (lookup_lt_Some _ _ _ H3) as Hlen. unfold wf in Hwf.
  split.
  - rewrite after_pixel by (auto using unpackA_local; lia).
    apply (unpackA_first (pixels ctx)); [lia|done].
  - intros k Hk. rewrite after_pixel by (auto using unpackA_local; lia).
    apply unpackA_later; [rewrite after_length by apply unpackA_local; lia|lia|].
    rewrite (after_frame _ _ _ 0) by (auto using unpackA_local; lia).
    change (after unpackA (pixels ctx) 0) with (pixels ctx).
    unfold unpackA. cbv zeta. by insert_lookup.
Qed.

Lemma unpack_wf (ctx : Context) :
  wf ctx ->
  let '(rCanvas, gCanvas, bCanvas, aCanvas) := unpack ctx in
  Forall (fun canvas => wf canvas /\ width canvas = width ctx /\
                        height canvas = height ctx)
    [rCanvas; gCanvas; bCanvas; aCanvas].
Proof.
  intros Hwf. rewrite unpack_after by done.
  repeat constructor; unfold wf; cbn [pixels width height];
    rewrite after_length;
    auto using unpackR_local, unpackG_local, unpackB_local, unpackA_local.
Qed.

(** The alpha byte [mask] gives pixel [k] from a mask of the size of the
    base. *)
Lemma mask_alpha_same_size (base imageMask : Context) channel (c k : nat) :
  wf base -> wf imageMask ->
  width base = width imageMask -> height base = height imageMask ->
  channelIndexes channel = Some c -> (k < width base * height base)%nat ->
  pixels (mask drawImageScaled base imageMask channel) !! (4 * k + 3)%nat
  = Some (stored (pixels imageMask !! (4 * k + c)%nat)).
Proof.
  intros Hb Hm Hw Hh Hc Hk. rewrite mask_lookup by (done || lia).
  replace ((4 * k + 3) mod 4)%nat with 3%nat
    by (replace (4 * k + 3)%nat with (3 + k * 4)%nat by lia;
        by rewrite Nat.Div0.mod_add).
  rewrite maskDupeOf_same_size, Hc by done. cbn [Nat.eqb mbind option_bind].
  by replace (4 * k + 3 - 3 + c)%nat with (4 * k + c)%nat by lia.
Qed.

End UnpackMask.

(** X19: unpack, then mask on a base of the same size: masking with the R, G
    or B output and its own channel gives every pixel the alpha of that
    channel of the unpacked image; masking with the alpha output gives the
    first pixel the alpha of the unpacked image's first pixel and every
    other pixel the alpha 255, whatever alpha the unpacked image has there. *)
Theorem mask_with_unpacked_outputs
    (drawImageScaled : nat -> nat -> list Z -> nat -> nat -> nat -> Z)
    (base ctx : Context) (k : nat) (x y z t t0 : Z) :
  wf base -> wf ctx ->
  width base = width ctx -> height base = height ctx ->
  (k < width ctx * height ctx)%nat ->
  pixel (pixels ctx) k = [x; y; z; t] -> pixels ctx !! 3%nat = Some t0 ->
  let '(rCanvas, gCanvas, bCanvas, aCanvas) := unpack ctx in
  pixels (mask drawImageScaled base rCanvas "R") !! (4 * k + 3)%nat = Some x /\
  pixels (mask drawImageScaled base gCanvas "G") !! (4 * k + 3)%nat = Some y /\
  pixels (mask drawImageScaled base bCanvas "B") !! (4 * k + 3)%nat = Some z /\
  pixels (mask drawImageScaled base aCanvas "R") !! (4 * k + 3)%nat
  = Some (if (k =? 0)%nat then t0 else 255%Z).
Proof.
  intros Hb Hc Hw Hh Hk Hp H3.
  pose proof (unpack_pixels ctx k x y z t Hc Hk Hp) as Hpx.
  pose proof (unpack_wf ctx Hc) as Hwf.
  pose proof (unpack_alpha_pixels ctx t0 Hc H3) as [Ha0 Hak].
  destruct (unpack ctx) as [[[rCanvas gCanvas] bCanvas] aCanvas].
  cbn [snd] in Ha0, Hak.
  destruct Hpx as (Hr & Hg & Hbl & _).
  apply Forall_cons in Hwf as [(Wr & Wrw & Wrh) Hwf].
  apply Forall_cons in Hwf as [(Wg & Wgw & Wgh) Hwf].
  apply Forall_cons in Hwf as [(Wb & Wbw & Wbh) Hwf].
  apply Forall_cons in Hwf as [(Wa & Waw & Wah) _].
  apply pixel_lookup in Hr as (Hr & _). apply pixel_lookup in Hg as (_ & Hg & _).
  apply pixel_lookup in Hbl as (_ & _ & Hbl & _).
  rewrite <- Hw, <- Hh in Hk.
  rewrite (mask_alpha_same_size _ base rCanvas "R" 0 k) by (done || congruence).
  rewrite (mask_alpha_same_size _ base gCanvas "G" 1 k) by (done || congruence).
  rewrite (mask_alpha_same_size _ base bCanvas "B" 2 k) by (done || congruence).
  rewrite (mask_alpha_same_size _ base aCanvas "R" 0 k) by (done || congruence).
  rewrite Nat.add_0_r in *. rewrite Hr, Hg, Hbl. repeat split; try done.
  destruct k as [|k].
  - apply pixel_lookup in Ha0 as (-> & _). done.
  - specialize (Hak (S k) ltac:(lia)).
    apply pixel_lookup in Hak as (Hak & _). by rewrite Hak.
Qed.

Lemma mask_with_unpacked_outputs_witness :
  let base := mkContext 2 1 [0; 0; 0; 0; 0; 0; 0; 0]%Z in
  let ctx := mkContext 2 1 [1; 2; 3; 40; 5; 6; 7; 80]%Z in
  let '(rCanvas, gCanvas, bCanvas, aCanvas) := unpack ctx in
  pixels (mask nearestNeighbour base rCanvas "R") !! (4 * 1 + 3)%nat = Some 5%Z /\
  pixels (mask nearestNeighbour base gCanvas "G") !! (4 * 1 + 3)%nat = Some 6%Z /\
  pixels (mask nearestNeighbour base bCanvas "B") !! (4 * 1 + 3)%nat = Some 7%Z /\
  pixels (mask nearestNeighbour base aCanvas "R") !! (4 * 1 + 3)%nat = Some 255%Z.
Proof.
  intros base ctx.
  apply (mask_with_unpacked_outputs nearestNeighbour base ctx 1 5 6 7 80 40);
    (reflexivity || (simpl; lia)).
Defined.

(** ** pack: claims of different channels *)

Section PackDisjoint.

Variable drawImageScaled : nat -> nat -> list Z -> nat -> nat -> nat -> Z.

Variables sizeX sizeY : nat.

Local Abbreviation fit :=
  (fun image : PackImage =>
     mkPackImage (packFit drawImageScaled sizeX sizeY (data image)) (channels image)).

Lemma includes_false (name : string) (array : list string) :
  name ∉ array -> includes name array = false.
Proof.
  intros Hn. unfold includes. induction array as [|a array IH]; [done|].
  simpl. apply not_elem_of_cons in Hn as [Hne Hn].
  destruct (String.eqb_spec name a); [done|]. by apply IH.
Qed.

Lemma packClaims_new (i : nat) (entries current : list (string * string))
    (packedChannels : list string) (warnings : list nat) :
  NoDup (packedChannels ++ entries.*1) ->
  packClaims i entries current packedChannels warnings
  = (current, packedChannels ++ entries.*1, warnings).
Proof.
  revert packedChannels.
  induction entries as [|channel entries IH]; intros packedChannels Hnd.
  { simpl. by rewrite app_nil_r. }
  simpl. rewrite includes_false.
  - rewrite IH; [by rewrite <- app_assoc|].
    by rewrite <- app_assoc.
  - apply NoDup_app in Hnd as (_ & Hdis & _). intros Hin.
    apply (Hdis _ Hin). by left.
Qed.

Lemma packScan_new (todo : list PackImage) :
  forall (fuel : nat) (done : list PackImage) (packedChannels : list string)
         (warnings : list nat),
  (length todo <= fuel)%nat ->
  Forall (fun image => channels image <> []) todo ->
  NoDup (packedChannels ++ (todo ≫= fun image => (channels image).*1)) ->
  packScan drawImageScaled fuel sizeX sizeY (length done)
    (mkPackState (done ++ todo) packedChannels warnings)
  = mkPackState (done ++ (fit <$> todo))
      (packedChannels ++ (todo ≫= fun image => (channels image).*1)) warnings.
Proof.
  induction todo as [|image todo IH]; intros fuel done packedChannels warnings Hfuel Hne Hnd.
  { cbn [mbind list_bind fmap list_fmap]. rewrite !app_nil_r.
    destruct fuel; [done|]. simpl.
    by rewrite lookup_ge_None_2 by lia. }
  destruct fuel as [|fuel]; [simpl in Hfuel; lia|].
  apply Forall_cons in Hne as [Hne1 Hne].
  rewrite bind_cons, app_assoc in Hnd.
  cbn [packScan st_images st_packedChannels st_warnings].
  rewrite lookup_app_r, Nat.sub_diag by lia. cbn [lookup list_lookup].
  rewrite packClaims_new by (by apply NoDup_app in Hnd as (? & _)).
  destruct (channels image) as [|entry entries] eqn:Hch; [done|].
  cbn [length Nat.eqb]. rewrite <- Hch.
  fold (packFit drawImageScaled sizeX sizeY (data image)).
  rewrite insert_app_r_alt, Nat.sub_diag by lia. cbn [insert list_insert].
  replace (length done + 1)%nat with (length (done ++ [fit image]))
    by (rewrite length_app; simpl; lia).
  rewrite (cons_middle _ done todo), app_assoc.
  rewrite IH; [|simpl in Hfuel; lia|done|by rewrite Hch].
  rewrite fmap_cons, bind_cons, <- !app_assoc. done.
Qed.

End PackDisjoint.

Section PackWrites.

Implicit Types (ws : list (list Z * (string * string))) (d : list Z).

Lemma packFrame_writes images imagesDatas d (i : nat) :
  packFrame images imagesDatas d i
  = foldl (packWrite i) d (packWrites images imagesDatas).
Proof.
  unfold packFrame, packWrites. revert d.
  induction (zip images imagesDatas) as [|p ps IH]; intros d; [done|].
  rewrite bind_cons, foldl_app, foldl_fmap. simpl. apply IH.
Qed.

Lemma zip_fmap_self {A B} (f : A -> B) (l : list A) :
  zip l (f <$> l) = (fun x => (x, f x)) <$> l.
Proof. induction l as [|x l IH]; [done|]. simpl. f_equal. exact IH. Qed.

Lemma packWrites_sized (images : list PackImage) (sizeX sizeY : nat) :
  Forall (fun image => wf (data image) /\ width (data image) = sizeX /\
                       height (data image) = sizeY) images ->
  packWrites images ((fun img => getImageData (data img) 0 0 sizeX sizeY) <$> images)
  = writesOf images.
Proof.
  intros Hall. unfold packWrites, writesOf. rewrite zip_fmap_self.
  induction Hall as [|image images (Hwf & Hw & Hh) _ IH]; [done|].
  rewrite fmap_cons, !bind_cons, IH. f_equal. cbn [fst snd].
  by rewrite (getImageData_sized (data image) sizeX sizeY).
Qed.

Lemma writesOf_keys (images : list PackImage) :
  (writesOf images).*2.*1 = images ≫= fun image => (channels image).*1.
Proof.
  unfold writesOf. induction images as [|image images IH]; [done|].
  rewrite !bind_cons, !fmap_app, IH. f_equal.
  rewrite <- !list_fmap_compose. by apply list_fmap_ext.
Qed.

Lemma elem_of_writesOf (images : list PackImage) image entry :
  image ∈ images -> entry ∈ channels image ->
  (pixels (data image), entry) ∈ writesOf images.
Proof.
  intros Hi He. unfold writesOf. apply list_elem_of_bind. exists image.
  split; [|done]. apply list_elem_of_fmap. by exists entry.
Qed.

Lemma writesOf_elem (images : list PackImage) w :
  w ∈ writesOf images ->
  exists image, image ∈ images /\ w.2 ∈ channels image.
Proof.
  unfold writesOf. intros Hw. apply list_elem_of_bind in Hw as (image & Hw & Hi).
  apply list_elem_of_fmap in Hw as (entry & -> & He). by exists image.
Qed.

Lemma packWrite_length (i : nat) d w : length (packWrite i d w) = length d.
Proof. apply (packEntry_local w.1 w.2). Qed.

Lemma packWrites_length (i : nat) d ws : length (foldl (packWrite i) d ws) = length d.
Proof.
  revert d. induction ws as [|w ws IH]; intros d; [done|].
  simpl. by rewrite IH, packWrite_length.
Qed.

Lemma packWrites_local ws : frameLocal (fun d i => foldl (packWrite i) d ws).
Proof.
  split; [intros; apply packWrites_length|].
  intros d i j Hj. revert d. induction ws as [|w ws IH]; intros d; [done|].
  simpl. rewrite IH. by apply (packEntry_local w.1 w.2).
Qed.

(** A byte no write claims is as it was. *)
Lemma packWrites_unclaimed (i c : nat) d ws :
  (forall w, w ∈ ws -> channelIndexes w.2.1 <> Some c) ->
  foldl (packWrite i) d ws !! (i + c)%nat = d !! (i + c)%nat.
Proof.
  revert d. induction ws as [|w ws IH]; intros d Hno; [done|].
  simpl. rewrite IH by (intros w' Hw'; apply Hno; by right).
  unfold packWrite, packEntry.
  pose proof (Hno w ltac:(by left)) as Hw.
  destruct (channelIndexes w.2.1) as [c'|]; [|done].
  rewrite list_lookup_insert_ne; [done|]. intros Heq. apply Hw. f_equal. lia.
Qed.

(** The byte a write claims, when no other write claims it. *)
Lemma packWrites_claimed (i c : nat) d ws l to from :
  NoDup ws.*2.*1 -> (l, (to, from)) ∈ ws -> channelIndexes to = Some c ->
  (i + c < length d)%nat ->
  foldl (packWrite i) d ws !! (i + c)%nat
  = Some (stored (cf ← channelIndexes from; l !! (i + cf)%nat)).
Proof.
  revert d. induction ws as [|w ws IH]; intros d Hnd Hin Hc Hlen.
  { by apply elem_of_nil in Hin. }
  rewrite !fmap_cons in Hnd. apply NoDup_cons in Hnd as [Hnew Hnd].
  simpl. apply elem_of_cons in Hin as [<-|Hin].
  - rewrite packWrites_unclaimed.
    + unfold packWrite, packEntry. cbn [fst snd]. rewrite Hc.
      by rewrite list_lookup_insert_eq.
    + intros w' Hw' Hc'. apply Hnew. cbn [fst snd].
      rewrite (channelIndexes_inj to w'.2.1 c) by done.
      apply list_elem_of_fmap. exists w'.2. split; [done|].
      apply list_elem_of_fmap. by exists w'.
  - apply IH; [done..|]. by rewrite packWrite_length.
Qed.

End PackWrites.

Section PackTheorem.

Variable drawImageScaled : nat -> nat -> list Z -> nat -> nat -> nat -> Z.

Variables sizeX sizeY : nat.

Local Abbreviation fit :=
  (fun image : PackImage =>
     mkPackImage (packFit drawImageScaled sizeX sizeY (data image)) (channels image)).

Lemma packFit_sized (ctx : Context) :
  sizeY <> 0%nat -> wf ctx ->
  wf (packFit drawImageScaled sizeX sizeY ctx) /\
  width (packFit drawImageScaled sizeX sizeY ctx) = sizeX /\
  height (packFit drawImageScaled sizeX sizeY ctx) = sizeY.
Proof.
  intros Hy Hwf. unfold packFit.
  destruct (Nat.eqb_spec (width ctx) sizeX), (Nat.eqb_spec (height ctx) sizeY);
    cbn [negb orb]; try (split; [apply resize_wf|by apply resize_size]).
  done.
Qed.

(** What [pack] returns when no two claims name the same channel. *)
Lemma pack_disjoint (images : list PackImage) :
  sizeY <> 0%nat ->
  Forall (fun image => wf (data image) /\ channels image <> []) images ->
  NoDup (images ≫= fun image => (channels image).*1) ->
  pack drawImageScaled images sizeX sizeY
  = (mkContext sizeX sizeY
       (after (fun d i => foldl (packWrite i) d (writesOf (fit <$> images)))
          (replicate (4 * (sizeX * sizeY)) 0%Z) (sizeX * sizeY)), []).
Proof.
  intros Hy Himages Hnd. unfold pack.
  pose proof (packScan_new drawImageScaled sizeX sizeY images (length images)
                [] [] [] ltac:(lia)
                ltac:(eapply Forall_impl; [exact Himages|by intros ? [_ ?]])
                Hnd) as Hscan.
  cbn [length app] in Hscan. rewrite Hscan. cbn [st_images st_warnings].
  rewrite (getImageData_sized (createCanvas sizeX sizeY))
    by (done || apply createCanvas_wf).
  cbn [idata createCanvas pixels width height].
  rewrite length_replicate, frames_pixels.
  rewrite (foldl_pointwise _
             (fun d i => foldl (packWrite i) d
                (packWrites (fit <$> images)
                   ((fun img => getImageData (data img) 0 0 sizeX sizeY)
                      <$> (fit <$> images)))))
    by (intros; apply packFrame_writes).
  rewrite packWrites_sized.
  - change (foldl ?f ?l (_ <$> seq 0 ?n)) with (after f l n).
    rewrite putImageData_full; cbn [iwidth iheight idata width height]; try done.
    by rewrite after_length, length_replicate by apply packWrites_local.
  - apply Forall_fmap. eapply Forall_impl; [exact Himages|].
    intros image [Hwf _]. cbn [data]. by apply packFit_sized.
Qed.

End PackTheorem.

Lemma pack_disjoint_lookup
    (drawImageScaled : nat -> nat -> list Z -> nat -> nat -> nat -> Z)
    (images : list PackImage) (sizeX sizeY : nat) :
  sizeY <> 0%nat ->
  Forall (fun image => wf (data image) /\ channels image <> []) images ->
  NoDup (images ≫= fun image => (channels image).*1) ->
  exists packed,
    pack drawImageScaled images sizeX sizeY = (packed, []) /\
    wf packed /\ width packed = sizeX /\ height packed = sizeY /\
    forall k, (k < sizeX * sizeY)%nat ->
      (forall image to from (c : nat),
         image ∈ images -> (to, from) ∈ channels image ->
         channelIndexes to = Some c ->
         pixels packed !! (4 * k + c)%nat
         = Some (stored (cf ← channelIndexes from;
                         pixels (packFit drawImageScaled sizeX sizeY (data image))
                           !! (4 * k + cf)%nat))) /\
      (forall c : nat,
         (c < 4)%nat ->
         (forall image to from,
            image ∈ images -> (to, from) ∈ channels image ->
            channelIndexes to <> Some c) ->
         pixels packed !! (4 * k + c)%nat = Some 0%Z).
Proof.
  intros Hy Himages Hnd.
  eexists. split; [by apply pack_disjoint|].
  set (fit := fun image : PackImage =>
     mkPackImage (packFit drawImageScaled sizeX sizeY (data image)) (channels image)).
  set (ws := writesOf (fit <$> images)).
  pose proof (packWrites_local ws) as Hloc.
  assert (Hlen : forall n,
    length (after (fun d i => foldl (packWrite i) d ws)
              (replicate (4 * (sizeX * sizeY)) 0%Z) n) = (4 * (sizeX * sizeY))%nat).
  { intros n. by rewrite after_length, length_replicate. }
  split; [exact (Hlen _)|]. split; [done|]. split; [done|].
  intros k Hk. cbn [pixels]. split.
  - intros image to from c Hi He Hc.
    pose proof (channelIndexes_lt _ _ Hc) as Hc4.
    rewrite (after_frame _ _ _ k) by (done || lia).
    apply packWrites_claimed with (to := to); [| |done|rewrite Hlen; lia].
    + unfold ws. rewrite writesOf_keys.
      rewrite list_fmap_bind. exact Hnd.
    + apply (elem_of_writesOf (fit <$> images) (fit image) (to, from)); [|done].
      by apply list_elem_of_fmap_2.
  - intros c Hc4 Hno.
    rewrite (after_frame _ _ _ k) by (done || lia).
    rewrite packWrites_unclaimed.
    + rewrite after_untouched by (done || lia).
      apply lookup_replicate_2. lia.
    + intros w Hw. apply writesOf_elem in Hw as (image' & Hi & He).
      apply list_elem_of_fmap in Hi as (image & -> & Hi).
      destruct w as [l [to from]]. cbn [fst snd] in *.
      by apply (Hno image to from).
Qed.



(** ** unpack, then pack *)

(** X21: unpack, then pack of the four outputs, each into its own channel,
    gives back every colour byte of the image, with the alpha 255 at every
    pixel: the alpha of the image is not restored. *)
Theorem unpack_then_pack
    (drawImageScaled : nat -> nat -> list Z -> nat -> nat -> nat -> Z)
    (ctx : Context) :
  wf ctx -> height ctx <> 0%nat ->
  let '(rCanvas, gCanvas, bCanvas, aCanvas) := unpack ctx in
  exists packed,
    pack drawImageScaled
      [mkPackImage rCanvas [("R", "R")]; mkPackImage gCanvas [("G", "G")];
       mkPackImage bCanvas [("B", "B")]; mkPackImage aCanvas [("A", "A")]]
      (width ctx) (height ctx)
    = (packed, []) /\
    width packed = width ctx /\ height packed = height ctx /\
    forall k x y z t,
      pixel (pixels ctx) k = [x; y; z; t] ->
      pixel (pixels packed) k = [x; y; z; 255%Z].
Proof.
  intros Hwf Hh.
  pose proof (unpack_pixels ctx) as Hpx.
  pose proof (unpack_wf ctx Hwf) as Hout.
  destruct (unpack ctx) as [[[rCanvas gCanvas] bCanvas] aCanvas].
  apply Forall_cons in Hout as [(Wr & Wrw & Wrh) Hout].
  apply Forall_cons in Hout as [(Wg & Wgw & Wgh) Hout].
  apply Forall_cons in Hout as [(Wb & Wbw & Wbh) Hout].
  apply Forall_cons in Hout as [(Wa & Waw & Wah) _].
  destruct (pack_disjoint_lookup drawImageScaled
      [mkPackImage rCanvas [("R", "R")]; mkPackImage gCanvas [("G", "G")];
       mkPackImage bCanvas [("B", "B")]; mkPackImage aCanvas [("A", "A")]]
      (width ctx) (height ctx) Hh)
    as (packed & Hpack & Hpwf & Hpw & Hph & Hbytes).
  - repeat constructor; done.
  - cbn. repeat (apply NoDup_cons_2;
                 [intros Hin;
                  repeat (apply elem_of_cons in Hin as [Hin|Hin]; [discriminate Hin|]);
                  by apply elem_of_nil in Hin|]).
    apply NoDup_nil_2.
  - exists packed. split; [done|]. split; [done|]. split; [done|].
    intros k x y z t Hp.
    assert (Hk : (k < width ctx * height ctx)%nat).
    { apply pixel_length in Hp. unfold wf in Hwf. lia. }
    specialize (Hpx k x y z t Hwf Hk Hp). cbv beta iota in Hpx.
    destruct Hpx as (Hr & Hg & Hb & Ha & _).
    destruct (Hbytes k Hk) as [Hclaim _].
    assert (Hfit : forall canvas, wf canvas -> width canvas = width ctx ->
              height canvas = height ctx ->
              packFit drawImageScaled (width ctx) (height ctx) canvas = canvas).
    { intros canvas _ Hw' Hh'. unfold packFit. by rewrite Hw', Hh', !Nat.eqb_refl. }
    apply pixel_lookup in Hr as (Hr & _). apply pixel_lookup in Hg as (_ & Hg & _).
    apply pixel_lookup in Hb as (_ & _ & Hb & _).
    apply pixel_lookup. split; [|split; [|split]].
    + rewrite <- (Nat.add_0_r (4 * k)).
      rewrite (Hclaim (mkPackImage rCanvas [("R", "R")]) "R" "R" 0%nat)
        by (done || (by left)).
      cbn [data]. rewrite Hfit by done.
      change (channelIndexes "R") with (Some 0%nat). cbn [mbind option_bind].
      by rewrite Nat.add_0_r, Hr.
    + rewrite (Hclaim (mkPackImage gCanvas [("G", "G")]) "G" "G" 1%nat)
        by (done || (by left) || (by right; left)).
      cbn [data]. rewrite Hfit by done.
      change (channelIndexes "G") with (Some 1%nat). cbn [mbind option_bind].
      by rewrite Hg.
    + rewrite (Hclaim (mkPackImage bCanvas [("B", "B")]) "B" "B" 2%nat)
        by (done || (by left) || (by right; right; left)).
      cbn [data]. rewrite Hfit by done.
      change (channelIndexes "B") with (Some 2%nat). cbn [mbind option_bind].
      by rewrite Hb.
    + rewrite (Hclaim (mkPackImage aCanvas [("A", "A")]) "A" "A" 3%nat)
        by (done || (by left) || (by right; right; right; left)).
      cbn [data]. rewrite Hfit by done.
      change (channelIndexes "A") with (Some 3%nat). cbn [mbind option_bind].
      by rewrite Ha.
Qed.

Lemma unpack_then_pack_witness :
  let '(rCanvas, gCanvas, bCanvas, aCanvas) :=
    unpack (mkContext 2 1 [1; 2; 3; 40; 5; 6; 7; 80]%Z) in
  exists packed,
    pack nearestNeighbour
      [mkPackImage rCanvas [("R", "R")]; mkPackImage gCanvas [("G", "G")];
       mkPackImage bCanvas [("B", "B")]; mkPackImage aCanvas [("A", "A")]] 2 1
    = (packed, []) /\
    width packed = 2%nat /\ height packed = 1%nat /\
    forall k x y z t,
      pixel [1; 2; 3; 40; 5; 6; 7; 80]%Z k = [x; y; z; t] ->
      pixel (pixels packed) k = [x; y; z; 255%Z].
Proof.
  apply (unpack_then_pack nearestNeighbour (mkContext 2 1 [1; 2; 3; 40; 5; 6; 7; 80]%Z));
    [reflexivity|simpl; lia].
Defined.

(** ** pack: two claims of the same channel *)

Section PackConflict.

Variable drawImageScaled : nat -> nat -> list Z -> nat -> nat -> nat -> Z.

Variables (w h : nat) (l1 l2 : list Z) (to from1 from2 : string) (c : nat).

Hypothesis Hl1 : length l1 = (4 * (w * h))%nat.
Hypothesis Hl2 : length l2 = (4 * (w * h))%nat.
Hypothesis Hto : channelIndexes to = Some c.

Local Abbreviation first := (mkPackImage (mkContext w h l1) [(to, from1)]).
Local Abbreviation second := (mkPackImage (mkContext w h l2) [(to, from2)]).




End PackConflict.



(** ** Whole numbers as JavaScript numbers *)

Section Exact.

Lemma digits2_pos_iter (p d : positive) :
  digits2_pos (Pos.iter xO p d) = (digits2_pos p + d)%positive.
Proof.
  induction d as [|d IH] using Pos.peano_ind.
  - simpl. lia.
  - rewrite Pos.iter_succ. simpl. rewrite IH. lia.
Qed.

Lemma iter_xO_value (p d : positive) :
  Z.pos (Pos.iter xO p d) = (Z.pos p * 2 ^ Z.pos d)%Z.
Proof.
  induction d as [|d IH] using Pos.peano_ind.
  - simpl. lia.
  - rewrite Pos.iter_succ, Pos2Z.inj_xO, IH, Pos2Z.inj_succ, Z.pow_succ_r by lia. lia.
Qed.

Lemma digits2_pos_size (p : positive) : digits2_pos p = Pos.size p.
Proof. induction p as [p IH|p IH|]; simpl; by rewrite ?IH. Qed.

Lemma digits2_pos_bound (p : positive) :
  (Z.pos p < 2 ^ 53)%Z -> (Z.pos (digits2_pos p) <= 53)%Z.
Proof.
  intros Hp. rewrite digits2_pos_size.
  pose proof (Pos.size_le p) as Hle.
  assert (H2 : (2 ^ Z.pos (Pos.size p) <= 2 * Z.pos p)%Z).
  { rewrite <- Pos2Z.inj_pow. change (2 * Z.pos p)%Z with (Z.pos p~0). lia. }
  destruct (Z.le_gt_cases (Z.pos (Pos.size p)) 53) as [|Hgt]; [done|].
  assert (2 ^ 54 <= 2 ^ Z.pos (Pos.size p))%Z by (apply Z.pow_le_mono_r; lia).
  lia.
Qed.

(** The number made from a positive integer below 2^53 holds it exactly. *)
Lemma Prim2SF_ofZ_pos (p : positive) :
  (Z.pos p < 2 ^ 53)%Z ->
  exists m e, Prim2SF (ofZ (Z.pos p)) = S754_finite false m e /\
              (e <= 0)%Z /\ Z.pos m = (Z.pos p * 2 ^ (- e))%Z.
Proof.
  intros Hp. pose proof (digits2_pos_bound p Hp) as Hd.
  unfold ofZ. change (Z.pos p <? 0)%Z with false. cbv iota.
  rewrite FloatAxioms.of_uint63_spec, Uint63.of_Z_spec.
  rewrite Z.mod_small by (change Uint63.wB with (2 ^ 63)%Z; lia).
  cbn [binary_normalize]. unfold binary_round, shl_align.
  set (d := Z.pos (digits2_pos p)) in *.
  assert (Hfexp : forall k, (-1021 <= k)%Z -> fexp prec emax k = (k - 53)%Z).
  { intros k Hk. unfold fexp, SpecFloat.emin, prec, emax. lia. }
  rewrite Hfexp by lia.
  destruct (d + 0 - 53 - 0)%Z as [|q|q] eqn:Eq; [| lia |].
  - exists p, 0%Z.
    unfold binary_round_aux, shr_fexp. cbn [Zdigits2]. fold d.
    rewrite Hfexp by lia. replace (d + 0 - 53 - 0)%Z with 0%Z by lia.
    cbn. fold d. rewrite Hfexp by lia. replace (d + 0 - 53 - 0)%Z with 0%Z by lia.
    cbn. split; [done|]. lia.
  - exists (Pos.iter xO p q), (d + 0 - 53)%Z.
    unfold binary_round_aux, shr_fexp. cbn [Zdigits2].
    rewrite digits2_pos_iter, Pos2Z.inj_add. fold d.
    rewrite Hfexp by lia.
    replace (d + Z.pos q + (d + 0 - 53) - 53 - (d + 0 - 53))%Z with 0%Z by lia.
    cbn. rewrite digits2_pos_iter, Pos2Z.inj_add. fold d.
    rewrite Hfexp by lia.
    replace (d + Z.pos q + (d + 0 - 53) - 53 - (d + 0 - 53))%Z with 0%Z by lia.
    cbn.
    replace (d + 0 - 53 <=? emax - prec)%Z with true
      by (symmetry; apply Z.leb_le; unfold emax, prec; lia).
    split; [done|]. split; [lia|].
    rewrite iter_xO_value. f_equal. f_equal. lia.
Qed.

Lemma toInt_ofZ (n : Z) : (0 <= n < 2 ^ 53)%Z -> toInt (ofZ n) = n.
Proof.
  intros Hn. destruct n as [|p|p]; [reflexivity| |lia].
  destruct (Prim2SF_ofZ_pos p ltac:(lia)) as (m & e & Heq & He & Hm).
  unfold toInt. rewrite Heq.
  destruct (Z.leb_spec 0 e).
  - replace e with 0%Z in * by lia. simpl in *. lia.
  - rewrite Hm. apply Z.div_mul. apply Z.pow_nonzero; lia.
Qed.

End Exact.

(** ** offset by a fraction *)

Section OffsetFraction.

Local Open Scope float_scope.

Implicit Types (ctx src : Context) (x y : Z).

Lemma pixelAt_pixel ctx (x y : nat) :
  (x < width ctx)%nat -> (y < height ctx)%nat ->
  pixel (pixels ctx) (y * width ctx + x) = pixelAt ctx (Z.of_nat x) (Z.of_nat y).
Proof. intros. by rewrite pixelAt_inside. Qed.

(** A pixel of the canvas after a rectangle of [src] has been put on it. *)
Lemma put_get_pixelAt ctx src (sx sy : Z) (sw sh : nat) (dx dy : Z) x y :
  wf ctx -> wf src ->
  (0 <= x < Z.of_nat (width ctx))%Z -> (0 <= y < Z.of_nat (height ctx))%Z ->
  pixelAt (putImageData ctx (getImageData src sx sy sw sh) dx dy) x y
  = if ((0 <=? x - dx) && (x - dx <? Z.of_nat sw) &&
        (0 <=? y - dy) && (y - dy <? Z.of_nat sh))%Z
    then pixelAt src (sx + (x - dx)) (sy + (y - dy))
    else pixelAt ctx x y.
Proof.
  intros Hwf Hsrc Hx Hy.
  pose proof (getImageData_wfImage src sx sy sw sh Hsrc) as Himg.
  pose proof (putImageData_wf ctx _ dx dy Hwf Himg) as Hput.
  destruct (Z_of_nat_complete x ltac:(lia)) as [nx ->].
  destruct (Z_of_nat_complete y ltac:(lia)) as [ny ->].
  rewrite (pixelAt_inside (putImageData _ _ _ _)) by (cbn [width height putImageData]; lia).
  cbn [width putImageData].
  rewrite putImageData_pixel by (done || lia). cbv zeta.
  cbn [iwidth iheight getImageData].
  destruct (_ && _ && _ && _)%Z eqn:Hin.
  - repeat (apply andb_prop in Hin as [Hin ?]).
    repeat match goal with
           | Hb : (_ <=? _)%Z = true |- _ => apply Z.leb_le in Hb
           | Hb : (_ <? _)%Z = true |- _ => apply Z.ltb_lt in Hb
           end.
    change (raster sw sh _) with (idata (getImageData src sx sy sw sh)).
    rewrite getImageData_pixel by (done || lia).
    by rewrite !Z2Nat.id by lia.
  - by rewrite pixelAt_inside by lia.
Qed.

Lemma putImageData_size ctx (img : ImageData) (dx dy : Z) :
  width (putImageData ctx img dx dy) = width ctx /\
  height (putImageData ctx img dx dy) = height ctx.
Proof. done. Qed.

End OffsetFraction.

Section OffsetBranches.

Local Open Scope float_scope.

Lemma shiftsBy_spec (size : nat) (offset : Number) (s : nat) :
  shiftsBy size offset s = true ->
  toInt (shiftAmount size offset) = Z.of_nat s /\
  toInt (ofZ (Z.of_nat size) - shiftAmount size offset) = Z.of_nat (size - s).
Proof.
  unfold shiftsBy. intros H. apply andb_prop in H as [H1 H2].
  by apply Z.eqb_eq in H1, H2.
Qed.

Lemma toInt_zero : toInt 0 = 0%Z.
Proof. reflexivity. Qed.

(** The branch of [offset] for a horizontal shift only. *)
Lemma offset_horizontal (ctx : Context) (offsetX offsetY : Number) (s : nat) :
  (rem offsetX 1 =? 0) = false -> (rem offsetY 1 =? 0) = true ->
  shiftsBy (width ctx) offsetX s = true ->
  (Z.of_nat (height ctx) < 2 ^ 53)%Z ->
  offset ctx offsetX offsetY
  = putImageData
      (putImageData ctx
         (getImageData ctx 0 0 (width ctx - s) (height ctx)) (Z.of_nat s) 0)
      (getImageData ctx (Z.of_nat (width ctx - s)) 0 s (height ctx)) 0 0.
Proof.
  intros Hx Hy Hs Hh. apply shiftsBy_spec in Hs as [Hs1 Hs2].
  apply (fun H => toInt_ofZ _ (conj (Nat2Z.is_nonneg _) H)) in Hh.
  unfold offset. cbv zeta. rewrite Hx, Hy. cbn [negb andb].
  fold (shiftAmount (width ctx) offsetX).
  by rewrite Hs1, Hs2, Hh, toInt_zero, !Nat2Z.id.
Qed.

(** The branch of [offset] for a vertical shift only. *)
Lemma offset_vertical (ctx : Context) (offsetX offsetY : Number) (s : nat) :
  (rem offsetX 1 =? 0) = true -> (rem offsetY 1 =? 0) = false ->
  shiftsBy (height ctx) offsetY s = true ->
  (Z.of_nat (width ctx) < 2 ^ 53)%Z ->
  offset ctx offsetX offsetY
  = putImageData
      (putImageData ctx
         (getImageData ctx 0 0 (width ctx) (height ctx - s)) 0 (Z.of_nat s))
      (getImageData ctx 0 (Z.of_nat (height ctx - s)) (width ctx) s) 0 0.
Proof.
  intros Hx Hy Hs Hw. apply shiftsBy_spec in Hs as [Hs1 Hs2].
  apply (fun H => toInt_ofZ _ (conj (Nat2Z.is_nonneg _) H)) in Hw.
  unfold offset. cbv zeta. rewrite Hx, Hy. cbn [negb andb].
  fold (shiftAmount (height ctx) offsetY).
  by rewrite Hs1, Hs2, Hw, toInt_zero, !Nat2Z.id.
Qed.

End OffsetBranches.

(** X23: offset with a whole [offsetY] and an [offsetX] that has a
    fractional part moves the image right by [s = Math.round(width *
    fraction)] pixels (the fraction counted as [1 + fraction] when
    negative), the columns that leave on the right coming back on the left:
    it is the fractional part of the offset, as a share of the width, that
    shifts the image, not the number of pixels. *)
Theorem offset_fraction_moves_right (ctx : Context) (offsetX offsetY : Number)
    (s : nat) :
  wf ctx ->
  PrimFloat.eqb (rem offsetX 1%float) 0%float = false ->
  PrimFloat.eqb (rem offsetY 1%float) 0%float = true ->
  shiftsBy (width ctx) offsetX s = true ->
  (Z.of_nat (height ctx) < 2 ^ 53)%Z ->
  (0 < s < width ctx)%nat ->
  let result := offset ctx offsetX offsetY in
  wf result /\ width result = width ctx /\ height result = height ctx /\
  forall x y : Z,
    (0 <= x < Z.of_nat (width ctx))%Z -> (0 <= y < Z.of_nat (height ctx))%Z ->
    pixelAt result x y
    = pixelAt ctx ((x - Z.of_nat s) mod Z.of_nat (width ctx)) y.
Proof.
  intros Hwf Hx Hy Hs Hh Hrange result. unfold result.
  rewrite (offset_horizontal ctx offsetX offsetY s) by done.
  set (left := getImageData ctx 0 0 (width ctx - s) (height ctx)).
  set (right := getImageData ctx (Z.of_nat (width ctx - s)) 0 s (height ctx)).
  assert (Hinner : wf (putImageData ctx left (Z.of_nat s) 0))
    by (apply putImageData_wf; [done|by apply getImageData_wfImage]).
  split; [apply putImageData_wf; [done|by apply getImageData_wfImage]|].
  split; [done|]. split; [done|].
  intros x y Bx By. unfold right.
  rewrite put_get_pixelAt by done.
  destruct (Z.ltb_spec x (Z.of_nat s)) as [Hlt|Hge].
  - replace (_ && _ && _ && _)%Z with true
      by (symmetry; repeat (apply andb_true_intro; split);
          (apply Z.leb_le || apply Z.ltb_lt); lia).
    f_equal; [|lia].
    replace ((x - Z.of_nat s) mod Z.of_nat (width ctx))%Z
      with ((x - Z.of_nat s + 1 * Z.of_nat (width ctx)) mod Z.of_nat (width ctx))%Z
      by apply Z_mod_plus_full.
    rewrite Z.mod_small; lia.
  - replace (_ && _ && _ && _)%Z with false
      by (symmetry; apply andb_false_intro1, andb_false_intro1, andb_false_intro2,
            Z.ltb_ge; lia).
    unfold left. rewrite put_get_pixelAt by done.
    replace (_ && _ && _ && _)%Z with true
      by (symmetry; repeat (apply andb_true_intro; split);
          (apply Z.leb_le || apply Z.ltb_lt); lia).
    f_equal; [|lia]. rewrite Z.mod_small; lia.
Qed.

Lemma offset_fraction_moves_right_witness :
  let ctx := mkContext 4 1 [1; 1; 1; 1; 2; 2; 2; 2; 3; 3; 3; 3; 4; 4; 4; 4]%Z in
  pixelAt (offset ctx 0.25%float 0%float) 0 0 = [4; 4; 4; 4]%Z /\
  pixelAt (offset ctx 0.25%float 0%float) 2 0 = [2; 2; 2; 2]%Z.
Proof.
  intros ctx.
  destruct (offset_fraction_moves_right ctx 0.25%float 0%float 1)
    as (_ & _ & _ & Hpx); [reflexivity..|simpl; lia|].
  split.
  - apply (Hpx 0%Z 0%Z); simpl; lia.
  - apply (Hpx 2%Z 0%Z); simpl; lia.
Defined.

(** X24: offset with a whole [offsetX] and an [offsetY] that has a
    fractional part moves the image down by [s = Math.round(height *
    fraction)] pixels, the rows that leave at the bottom coming back at the
    top. *)
Theorem offset_fraction_moves_down (ctx : Context) (offsetX offsetY : Number)
    (s : nat) :
  wf ctx ->
  PrimFloat.eqb (rem offsetX 1%float) 0%float = true ->
  PrimFloat.eqb (rem offsetY 1%float) 0%float = false ->
  shiftsBy (height ctx) offsetY s = true ->
  (Z.of_nat (width ctx) < 2 ^ 53)%Z ->
  (0 < s < height ctx)%nat ->
  let result := offset ctx offsetX offsetY in
  wf result /\ width result = width ctx /\ height result = height ctx /\
  forall x y : Z,
    (0 <= x < Z.of_nat (width ctx))%Z -> (0 <= y < Z.of_nat (height ctx))%Z ->
    pixelAt result x y
    = pixelAt ctx x ((y - Z.of_nat s) mod Z.of_nat (height ctx)).
Proof.
  intros Hwf Hx Hy Hs Hw Hrange result. unfold result.
  rewrite (offset_vertical ctx offsetX offsetY s) by done.
  set (top := getImageData ctx 0 0 (width ctx) (height ctx - s)).
  set (bottom := getImageData ctx 0 (Z.of_nat (height ctx - s)) (width ctx) s).
  assert (Hinner : wf (putImageData ctx top 0 (Z.of_nat s)))
    by (apply putImageData_wf; [done|by apply getImageData_wfImage]).
  split; [apply putImageData_wf; [done|by apply getImageData_wfImage]|].
  split; [done|]. split; [done|].
  intros x y Bx By. unfold bottom.
  rewrite put_get_pixelAt by done.
  destruct (Z.ltb_spec y (Z.of_nat s)) as [Hlt|Hge].
  - replace (_ && _ && _ && _)%Z with true
      by (symmetry; repeat (apply andb_true_intro; split);
          (apply Z.leb_le || apply Z.ltb_lt); lia).
    f_equal; [lia|].
    replace ((y - Z.of_nat s) mod Z.of_nat (height ctx))%Z
      with ((y - Z.of_nat s + 1 * Z.of_nat (height ctx)) mod Z.of_nat (height ctx))%Z
      by apply Z_mod_plus_full.
    rewrite Z.mod_small; lia.
  - replace (_ && _ && _ && _)%Z with false
      by (symmetry; apply andb_false_intro2, Z.ltb_ge; lia).
    unfold top. rewrite put_get_pixelAt by done.
    replace (_ && _ && _ && _)%Z with true
      by (symmetry; repeat (apply andb_true_intro; split);
          (apply Z.leb_le || apply Z.ltb_lt); lia).
    f_equal; [lia|]. rewrite Z.mod_small; lia.
Qed.

Lemma offset_fraction_moves_down_witness :
  let ctx := mkContext 1 4 [1; 1; 1; 1; 2; 2; 2; 2; 3; 3; 3; 3; 4; 4; 4; 4]%Z in
  pixelAt (offset ctx 3%float (-0.25)%float) 0 0 = [2; 2; 2; 2]%Z /\
  pixelAt (offset ctx 3%float (-0.25)%float) 0 3 = [1; 1; 1; 1]%Z.
Proof.
  intros ctx.
  destruct (offset_fraction_moves_down ctx 3%float (-0.25)%float 3)
    as (_ & _ & _ & Hpx); [reflexivity..|simpl; lia|].
  split.
  - apply (Hpx 0%Z 0%Z); simpl; lia.
  - apply (Hpx 0%Z 3%Z); simpl; lia.
Defined.

Section OffsetDiagonal.

Local Open Scope float_scope.

(** The branch of [offset] for a shift in both directions. *)
Lemma offset_diagonal (ctx : Context) (offsetX offsetY : Number) (s u : nat) :
  (rem offsetX 1 =? 0) = false -> (rem offsetY 1 =? 0) = false ->
  shiftsBy (width ctx) offsetX s = true -> shiftsBy (height ctx) offsetY u = true ->
  let W := width ctx in
  let H := height ctx in
  let bottomRight := getImageData ctx (Z.of_nat (W - s)) (Z.of_nat (H - u)) s u in
  let bottomLeft := getImageData ctx 0 (Z.of_nat (H - u)) (W - s) (H - u) in
  let topRight := getImageData ctx (Z.of_nat (W - s)) 0 s (H - u) in
  let topLeft := getImageData ctx 0 0 (W - s) (H - u) in
  offset ctx offsetX offsetY
  = putImageData
      (putImageData
         (putImageData
            (putImageData ctx topLeft (Z.of_nat s) (Z.of_nat u))
            topRight 0 (Z.of_nat u))
         bottomLeft (Z.of_nat s) 0)
      bottomRight 0 0.
Proof.
  intros Hx Hy Hs Hu. apply shiftsBy_spec in Hs as [Hs1 Hs2].
  apply shiftsBy_spec in Hu as [Hu1 Hu2].
  unfold offset. cbv zeta. rewrite Hx, Hy. cbn [negb andb].
  fold (shiftAmount (width ctx) offsetX). fold (shiftAmount (height ctx) offsetY).
  by rewrite Hs1, Hs2, Hu1, Hu2, toInt_zero, !Nat2Z.id.
Qed.

Lemma inside_decide (x dx sw y dy sh : Z) :
  ((0 <=? x - dx) && (x - dx <? sw) && (0 <=? y - dy) && (y - dy <? sh))%Z
  = bool_decide ((dx <= x < dx + sw)%Z /\ (dy <= y < dy + sh)%Z).
Proof.
  case_bool_decide as Hd.
  - repeat (apply andb_true_intro; split); (apply Z.leb_le || apply Z.ltb_lt); lia.
  - apply not_true_is_false. intros Hin. apply Hd.
    repeat (apply andb_prop in Hin as [Hin ?]).
    repeat match goal with
           | Hb : (_ <=? _)%Z = true |- _ => apply Z.leb_le in Hb
           | Hb : (_ <? _)%Z = true |- _ => apply Z.ltb_lt in Hb
           end.
    lia.
Qed.

Lemma mod_wrap (x s W : Z) :
  (0 <= x < W)%Z -> (0 < s < W)%Z ->
  ((x - s) mod W = if x <? s then x - s + W else x - s)%Z.
Proof.
  intros Hx Hs. destruct (Z.ltb_spec x s).
  - replace ((x - s) mod W)%Z with ((x - s + 1 * W) mod W)%Z by apply Z_mod_plus_full.
    rewrite Z.mod_small; lia.
  - rewrite Z.mod_small; lia.
Qed.

End OffsetDiagonal.

(** X25: offset with fractional parts in both directions, when the vertical
    shift [u] is at least half the height: the image is moved right by [s]
    and down by [u] pixels with wrap-around, except in the pixels with [s <=
    x] and [height - u <= y < u], which keep what they held: the rectangle
    read for the bottom left is as high as the top one, not as the bottom
    one. When [u] is exactly half the height no such pixel exists. *)
Theorem offset_fractions_both (ctx : Context) (offsetX offsetY : Number)
    (s u : nat) :
  wf ctx ->
  PrimFloat.eqb (rem offsetX 1%float) 0%float = false ->
  PrimFloat.eqb (rem offsetY 1%float) 0%float = false ->
  shiftsBy (width ctx) offsetX s = true -> shiftsBy (height ctx) offsetY u = true ->
  (0 < s < width ctx)%nat -> (0 < u < height ctx)%nat -> (height ctx <= 2 * u)%nat ->
  let result := offset ctx offsetX offsetY in
  wf result /\ width result = width ctx /\ height result = height ctx /\
  forall x y : Z,
    (0 <= x < Z.of_nat (width ctx))%Z -> (0 <= y < Z.of_nat (height ctx))%Z ->
    pixelAt result x y
    = if ((Z.of_nat s <=? x) && (Z.of_nat (height ctx - u) <=? y) && (y <? Z.of_nat u))%Z
      then pixelAt ctx x y
      else pixelAt ctx ((x - Z.of_nat s) mod Z.of_nat (width ctx))
             ((y - Z.of_nat u) mod Z.of_nat (height ctx)).
Proof.
  intros Hwf Hx Hy Hs Hu Bs Bu Hhalf result. unfold result.
  rewrite (offset_diagonal ctx offsetX offsetY s u) by done. cbv zeta.
  set (W := width ctx) in *. set (H := height ctx) in *.
  set (topLeft := getImageData ctx 0 0 (W - s) (H - u)).
  set (topRight := getImageData ctx (Z.of_nat (W - s)) 0 s (H - u)).
  set (bottomLeft := getImageData ctx 0 (Z.of_nat (H - u)) (W - s) (H - u)).
  set (bottomRight := getImageData ctx (Z.of_nat (W - s)) (Z.of_nat (H - u)) s u).
  assert (H1 : wf (putImageData ctx topLeft (Z.of_nat s) (Z.of_nat u)))
    by (apply putImageData_wf; [done|by apply getImageData_wfImage]).
  assert (H2 : wf (putImageData (putImageData ctx topLeft (Z.of_nat s) (Z.of_nat u))
                     topRight 0 (Z.of_nat u)))
    by (apply putImageData_wf; [done|by apply getImageData_wfImage]).
  assert (H3 : wf (putImageData
                     (putImageData (putImageData ctx topLeft (Z.of_nat s) (Z.of_nat u))
                        topRight 0 (Z.of_nat u)) bottomLeft (Z.of_nat s) 0))
    by (apply putImageData_wf; [done|by apply getImageData_wfImage]).
  split; [apply putImageData_wf; [done|by apply getImageData_wfImage]|].
  split; [done|]. split; [done|].
  intros x y Bx By.
  unfold bottomRight. rewrite put_get_pixelAt by done.
  unfold bottomLeft. rewrite put_get_pixelAt by done.
  unfold topRight. rewrite put_get_pixelAt by done.
  unfold topLeft. rewrite put_get_pixelAt by done.
  rewrite !inside_decide.
  rewrite (mod_wrap x (Z.of_nat s) (Z.of_nat W)) by lia.
  rewrite (mod_wrap y (Z.of_nat u) (Z.of_nat H)) by lia.
  destruct (Z.leb_spec (Z.of_nat s) x), (Z.leb_spec (Z.of_nat (H - u)) y),
    (Z.ltb_spec y (Z.of_nat u)), (Z.ltb_spec x (Z.of_nat s));
    cbn [andb]; try lia;
    repeat case_bool_decide; try lia; f_equal; lia.
Qed.

Lemma offset_fractions_both_witness :
  let ctx :=
    mkContext 2 4 [1; 1; 1; 1; 2; 2; 2; 2; 3; 3; 3; 3; 4; 4; 4; 4;
                   5; 5; 5; 5; 6; 6; 6; 6; 7; 7; 7; 7; 8; 8; 8; 8]%Z in
  pixelAt (offset ctx 0.5%float 0.75%float) 0 0 = [4; 4; 4; 4]%Z /\
  pixelAt (offset ctx 0.5%float 0.75%float) 1 3 = [1; 1; 1; 1]%Z /\
  pixelAt (offset ctx 0.5%float 0.75%float) 1 1 = [4; 4; 4; 4]%Z /\
  pixelAt (offset ctx 0.5%float 0.75%float) 1 2 = [6; 6; 6; 6]%Z.
Proof.
  intros ctx.
  destruct (offset_fractions_both ctx 0.5%float 0.75%float 1 3)
    as (_ & _ & _ & Hpx); [reflexivity..|simpl; lia|simpl; lia|simpl; lia|].
  split; [|split; [|split]].
  - apply (Hpx 0%Z 0%Z); simpl; lia.
  - apply (Hpx 1%Z 3%Z); simpl; lia.
  - apply (Hpx 1%Z 1%Z); simpl; lia.
  - apply (Hpx 1%Z 2%Z); simpl; lia.
Defined.

(** ** Frames outside the array *)

Section Bounds.

Variable pow_approx : Number -> Number -> Number.

Local Open Scope float_scope.

Lemma aset_beyond (data : list Z) (i : nat) (v : Number) :
  (length data <= i)%nat -> aset data i v = data.
Proof. intros Hi. unfold aset. by apply list_insert_ge. Qed.

Lemma aset_length (data : list Z) (i : nat) (v : Number) :
  length (aset data i v) = length data.
Proof. apply length_insert. Qed.

Lemma tintFrame_beyond (data : list Z) (r g b int : Number) (i : nat) :
  (length data <= i)%nat -> tintFrame pow_approx data r g b int i = data.
Proof.
  intros Hi. unfold tintFrame. cbv zeta.
  destruct (r <? 0), (g <? 0), (b <? 0), (negb (int =? 1));
    repeat rewrite aset_beyond by (rewrite ?aset_length; lia); done.
Qed.

Lemma bumpScaleFrame_beyond (data : list Z) (scale : Number) (i : nat) :
  (length data <= i)%nat -> bumpScaleFrame data scale i = data.
Proof.
  intros Hi. unfold bumpScaleFrame. cbv zeta.
  rewrite (aset_beyond data i) by lia. by rewrite aset_beyond by lia.
Qed.

Lemma swizzleEntries_beyond lookup (entries : list (string * string)) (i : nat)
    (data : list Z) :
  Forall (fun entry => is_Some (channelIndexes entry.2)) entries ->
  (length data <= i)%nat ->
  swizzleEntries lookup entries i data = Returned data.
Proof.
  intros Hv Hi. induction Hv as [|[source dest] entries [c Hc] _ IH]; [done|].
  cbn [snd] in Hc. rewrite (swizzleEntries_valid _ _ _ c) by done.
  by rewrite list_insert_ge by lia.
Qed.

End Bounds.

(** X26: The frame functions never grow the array and never fail for an
    index outside it: at an index at or beyond the length [tintFrame] and
    [bumpScaleFrame] change nothing, and [swizzleFrame] with a map whose
    values are channels returns having changed nothing. *)
Theorem frames_beyond_the_end (pow_approx : Number -> Number -> Number)
    (data : list Z) (i : nat) :
  (length data <= i)%nat ->
  (forall r g b int, tintFrame pow_approx data r g b int i = data) /\
  (forall scale, bumpScaleFrame data scale i = data) /\
  (forall options,
     Forall (fun entry => is_Some (channelIndexes entry.2)) options ->
     swizzleFrame data options i = Returned data).
Proof.
  intros Hi. split; [|split].
  - intros. by apply tintFrame_beyond.
  - intros. by apply bumpScaleFrame_beyond.
  - intros options Hv. unfold swizzleFrame. by apply swizzleEntries_beyond.
Qed.

Lemma frames_beyond_the_end_witness :
  tintFrame noPow [1; 2; 3; 4]%Z 0%float 0%float 0%float 2%float 4 = [1; 2; 3; 4]%Z /\
  bumpScaleFrame [1; 2; 3; 4]%Z 0%float 8 = [1; 2; 3; 4]%Z.
Proof.
  split.
  - apply (proj1 (frames_beyond_the_end noPow [1; 2; 3; 4]%Z 4 ltac:(simpl; lia))).
  - apply (proj1 (proj2 (frames_beyond_the_end noPow [1; 2; 3; 4]%Z 8 ltac:(simpl; lia)))).
Defined.

(** ** bumpScale on the flat normal *)

Section FlatNormal.

Local Open Scope float_scope.

Lemma is_finite_spec (x : Number) :
  is_finite x = match Prim2SF x with
                | S754_zero _ | S754_finite _ _ _ => true
                | _ => false
                end.
Proof.
  unfold is_finite, is_infinity. rewrite is_nan_spec, FloatAxioms.eqb_spec, abs_spec.
  change (Prim2SF infinity) with (S754_infinity false).
  by destruct (Prim2SF x) as [[]|[]| |[] m e].
Qed.

(** Zero times a finite number is a zero; zero times anything else is NaN. *)
Lemma zero_mul (x : Number) :
  (is_finite x = true /\ (0 * x = 0 \/ 0 * x = neg_zero)) \/
  (is_finite x = false /\ 0 * x = nan).
Proof.
  rewrite is_finite_spec.
  assert (Hmul : Prim2SF (0 * x) = SFmul prec emax (S754_zero false) (Prim2SF x))
    by apply FloatAxioms.mul_spec.
  destruct (Prim2SF x) as [[]|[]| |[] m e]; cbn in Hmul;
    ((left; split; [done|];
      ((left; by apply Prim2SF_inj) || (right; by apply Prim2SF_inj)))
     || (right; split; [done|]; by apply Prim2SF_inj)).
Qed.

Lemma bumpScaled_flat (scale : Number) :
  bumpScaled scale 128 = if is_finite scale then 128%Z else 0%Z.
Proof.
  unfold bumpScaled, lerp.
  change (ofZ 128 - 128) with 0.
  destruct (zero_mul scale) as [[-> [-> | ->]] | [-> ->]]; reflexivity.
Qed.

End FlatNormal.

(** X27: bumpScale leaves a flat normal, a pixel with R = G = 128, as it is
    for every finite scale, negative and zero included; with an infinite or
    NaN scale it stores 0 in R and G, because [0 * scale] is NaN. *)
Theorem bumpScale_flat_normal_is_fixed (data : list Z) (scale : Number)
    (k : nat) (z t : Z) :
  pixel data k = [128; 128; z; t]%Z ->
  pixel (bumpScale data scale) k
  = if is_finite scale then [128; 128; z; t]%Z else [0; 0; z; t]%Z.
Proof.
  intros Hp. rewrite (bumpScale_pixel _ _ _ _ _ _ _ Hp), bumpScaled_flat.
  by destruct (is_finite scale).
Qed.

Lemma bumpScale_flat_normal_is_fixed_witness :
  pixel (bumpScale [1; 2; 3; 4; 128; 128; 255; 9]%Z (-7.5)%float) 1
  = [128; 128; 255; 9]%Z /\
  pixel (bumpScale [1; 2; 3; 4; 128; 128; 255; 9]%Z infinity) 1
  = [0; 0; 255; 9]%Z.
Proof.
  split.
  - apply (bumpScale_flat_normal_is_fixed [1; 2; 3; 4; 128; 128; 255; 9]%Z
             (-7.5)%float 1 255 9). reflexivity.
  - apply (bumpScale_flat_normal_is_fixed [1; 2; 3; 4; 128; 128; 255; 9]%Z
             infinity 1 255 9). reflexivity.
Defined.

(** ** pack: the image after a removed one *)

Section PackSkip.

Variable drawImageScaled : nat -> nat -> list Z -> nat -> nat -> nat -> Z.




End PackSkip.


